(** * Explicit-lyrics classifier notebook (project5.ipynb)

    A shallow embedding of the notebook's pipeline: the cleaning of the
    track table, the lyric normaliser [stemLyrics], scikit-learn's
    [CountVectorizer] as the notebook calls it (default parameters), the
    featureset loop, the feature-selection loop, [naive_bayes] and
    [MonteCarloCrossValidation].

    Text is modelled over the code points 0..255 (one [ascii] per Python
    character); counts are unbounded naturals (a cell of the int64 count
    matrix would need 2^63 tokens to wrap).  The entries of numpy's float
    arrays are the rationals that are float64 values, or a mark for [inf]
    and [nan]; every float64 operation rounds its exact result to the
    nearest float64, ties to even ([round64]).  Overflow to [inf] is left
    out: the entries are counts, their quotients and sums of those, far
    below 2^1024.  The calls into nltk, numpy's generator and the plotting
    back end whose results the notebook only passes on are parameters. *)

From Stdlib Require Import String Ascii ZArith QArith Qabs Qround Qpower Qreduction Lqa.
From Stdlib Require SpecFloat.
From stdpp Require Import base list strings gmap sorting.

Local Open Scope string_scope.
Local Open Scope nat_scope.
Local Open Scope list_scope.
Set Warnings "-clear-no-such-hyp".

(** ** Characters and strings, as Python's [str] treats them *)

Module Text.

Definition code (c : ascii) : nat := nat_of_ascii c.

Definition between (lo hi n : nat) : bool := (lo <=? n) && (n <=? hi).

(** [str.lower] on one character: A-Z, and the upper-case letters of the
    range 192..222 (the multiplication sign 215 is not a letter). *)
Definition lower_char (c : ascii) : ascii :=
  let n := code c in
  if between 65 90 n || (between 192 222 n && negb (n =? 215))
  then ascii_of_nat (n + 32) else c.

(** What [str.split()] and [str.isspace] regard as whitespace. *)
Definition is_space (c : ascii) : bool :=
  let n := code c in
  between 9 13 n || between 28 32 n || (n =? 133) || (n =? 160).

(** The class [\w] of a Python 3 [str] pattern: alphanumeric or underscore. *)
Definition is_word_char (c : ascii) : bool :=
  let n := code c in
  between 48 57 n || between 65 90 n || (n =? 95) || between 97 122 n
  || (n =? 170) || (n =? 178) || (n =? 179) || (n =? 181) || (n =? 185)
  || (n =? 186) || between 188 190 n
  || (between 192 255 n && negb (n =? 215) && negb (n =? 247)).

Fixpoint lower (s : string) : string :=
  match s with
  | EmptyString => EmptyString
  | String c s' => String (lower_char c) (lower s')
  end.

(** Cut [s] at every character satisfying [sep].  The pieces between two
    adjacent separators, before a leading one and after a trailing one are
    empty strings, so the result always has one more piece than [s] has
    separators. *)
Fixpoint split_on (sep : ascii → bool) (s : string) : list string :=
  match s with
  | EmptyString => [EmptyString]
  | String c s' =>
      if sep c then EmptyString :: split_on sep s'
      else match split_on sep s' with
           | [] => [String c EmptyString]
           | t :: ts => String c t :: ts
           end
  end.

Definition is_sp (c : ascii) : bool := bool_decide (c = " "%char).

(** [s.split(" ")] *)
Definition split_space (s : string) : list string := split_on is_sp s.

(** [s.split()]: runs of whitespace separate, no empty piece is kept. *)
Definition split_whitespace (s : string) : list string :=
  filter (λ t, t ≠ EmptyString) (split_on is_space s).

(** [" ".join(l)] *)
Definition join (l : list string) : string := String.concat " " l.

Fixpoint has_space (s : string) : bool :=
  match s with
  | EmptyString => false
  | String c s' => is_sp c || has_space s'
  end.

End Text.

(** ** Cell 5, before [stemLyrics]: cleaning the track table *)

Module Tracks.

(** A data frame: its rows in order, each with its index label. *)
Definition DataFrame (A : Type) : Type := list (Z * A).

Section WithRows.

(** The cells of one row of [data/tracks.csv]; the notebook reads the
    columns 'lyrics' and 'explicit' of it. *)
Context {Row : Type} `{EqDecision Row}.

(** Whether some cell of the row is missing. *)
Variable isna : Row → bool.

(** [tracks.drop_duplicates(inplace=True)]: of the rows with the same
    cells, the first stays. *)
Fixpoint drop_duplicates_seen (seen : list Row) (tracks : DataFrame Row)
  : DataFrame Row :=
  match tracks with
  | [] => []
  | (label, row) :: rest =>
      if decide (row ∈ seen) then drop_duplicates_seen seen rest
      else (label, row) :: drop_duplicates_seen (row :: seen) rest
  end.

Definition drop_duplicates (tracks : DataFrame Row) : DataFrame Row :=
  drop_duplicates_seen [] tracks.

(** [tracks.dropna(inplace=True)] *)
Definition dropna (tracks : DataFrame Row) : DataFrame Row :=
  filter (λ r, isna r.2 = false) tracks.

(** [tracks.reset_index(inplace=True)]: the rows are numbered from 0, and
    the old labels become the first column, named 'index'. *)
Definition reset_index {A} (tracks : DataFrame A) : DataFrame (Z * A) :=
  imap (λ i r, (Z.of_nat i, r)) tracks.

(** [del tracks["index"]] *)
Definition del_index {A} (tracks : DataFrame (Z * A)) : DataFrame A :=
  (λ r, (r.1, r.2.2)) <$> tracks.

(** The table as the rest of the notebook sees it. *)
Definition clean (tracks : DataFrame Row) : DataFrame Row :=
  del_index (reset_index (dropna (drop_duplicates tracks))).

End WithRows.

End Tracks.

(** ** Cell 5: the Text Normaliser *)

Module Normalizer.
Import Text.

Section WithStemmer.

(** [stemmer.stem], nltk's Porter stemmer: a string-to-string function
    that the notebook only calls. *)
Variable stem : string → string.

(** One pass of the loop body of [stemLyrics], for one lyric string. *)
Definition stem_lyric (stop_words : list string) (lyrics : string) : string :=
  let lyricsList := split_space lyrics in
  let stemmedLyrics :=
    stem <$> filter (λ word, lower word ∉ stop_words) lyricsList in
  join stemmedLyrics.

(** [stemLyrics(stop_words)], with the column [tracks['lyrics']] it reads
    made a parameter; the loop appends one string per lyric. *)
Definition stemLyrics (lyrics_column : list string) (stop_words : list string)
  : list string :=
  foldl (λ stemmedLyricsList lyrics,
           stemmedLyricsList ++ [stem_lyric stop_words lyrics])
        [] lyrics_column.

(** The normaliser as the specification words it: split on whitespace,
    drop stop words, stem, rejoin with single spaces. *)
Definition spec_normalize (stop_words : list string) (raw : string) : string :=
  join (stem <$> filter (λ word, lower word ∉ stop_words) (split_whitespace raw)).

End WithStemmer.

End Normalizer.

(** ** Python outcomes *)

(** The exceptions the modelled code can raise. *)
Inductive value_error :=
  | EmptyVocabulary      (* CountVectorizer: no term survived the analyser *)
  | EmptyTrainSet        (* train_test_split: the training subset would be empty *)
  | EmptyTargets         (* sklearn.metrics: no sample to score *)
  | ShapeMismatch.       (* numpy: operands cannot be broadcast together *)

Inductive exn :=
  | ValueError (why : value_error)
  | IndexError
  | KeyError
  | TypeError
  | ZeroDivisionError
  | UnboundLocalError
  | RenderError.         (* raised by the plotting back end *)

Inductive res (A : Type) :=
  | Ok (a : A)
  | Raise (e : exn).
Arguments Ok {A} a.
Arguments Raise {A} e.

(** ** Cell 7, first half: the Vectorizer *)

Module Vectorizer.
Import Text.

(** The analyser of [CountVectorizer()] with its default parameters:
    [lowercase=True], [token_pattern=r"(?u)\b\w\w+\b"], no stop words,
    unigrams.  The pattern matches the maximal runs of word characters
    that are at least two characters long. *)
Definition build_analyzer (doc : string) : list string :=
  filter (λ t, 2 ≤ String.length t)
         (split_on (λ c, negb (is_word_char c)) (lower doc)).

Definition count_of (term : string) (tokens : list string) : nat :=
  length (filter (λ t, t = term) tokens).

(** The fitted vocabulary, in the order of its column indices: the distinct
    terms of the whole collection, sorted.  With the defaults [min_df=1],
    [max_df=1.0], [max_features=None] no term is pruned. *)
Definition fit_vocabulary (raw_documents : list string) : list string :=
  merge_sort String.le (remove_dups (mjoin (build_analyzer <$> raw_documents))).

(** A fitted vectorizer. *)
Record CountVectorizer := { vocabulary_ : list string }.

Definition transform_row (v : CountVectorizer) (doc : string) : list nat :=
  (λ term, count_of term (build_analyzer doc)) <$> vocabulary_ v.

(** [vectorizer.fit_transform(raw_documents).toarray()]: the fitted
    vectorizer and one dense row of counts per document.  An empty
    vocabulary makes scikit-learn raise [ValueError]. *)
Definition fit_transform (raw_documents : list string)
  : res (CountVectorizer * list (list nat)) :=
  match fit_vocabulary raw_documents with
  | [] => Raise (ValueError EmptyVocabulary)
  | vocabulary =>
      let v := {| vocabulary_ := vocabulary |} in
      Ok (v, transform_row v <$> raw_documents)
  end.

Definition get_feature_names_out (v : CountVectorizer) : list string :=
  vocabulary_ v.

End Vectorizer.

(** ** The interpreter state: heap of mutable objects, random source, output *)

Module Py.

Definition loc := nat.

(** The mutable objects the notebook shares between cells and calls: the
    feature dictionaries and the lists of [(featureDict, isExplicit)]
    tuples.  A tuple is immutable; its first component is a reference. *)
Inductive obj :=
  | ODict (d : gmap string nat)
  | OList (l : list (loc * bool)).

(** Entries of numpy float arrays: a finite value, or [inf]/[nan]. *)
Inductive npfloat :=
  | Finite (q : Q)
  | NonFinite.

(** The values stored in the metrics dictionaries. *)
Inductive pyval :=
  | PyInt (z : Z)
  | PyFloat (x : npfloat)
  | NdInt (a : list Z)
  | NdFloat (a : list npfloat).

Inductive event :=
  | Printed (label : string) (v : pyval)
  | Plotted (confusionMatrix : list (list nat)) (display_labels : list string).

Record World := {
  heap : gmap loc obj;
  rng_calls : nat;            (* permutations drawn so far from numpy's global generator *)
  stdout : list event;        (* oldest first *)
}.

Definition set_heap (h : gmap loc obj) (w : World) : World :=
  {| heap := h; rng_calls := rng_calls w; stdout := stdout w |}.

(** A computation returns or raises, and leaves a world behind either way. *)
Definition M (A : Type) : Type := World → res A * World.

Definition run {A} (m : M A) (w : World) : res A * World := m w.

Definition ret {A} (a : A) : M A := λ w, (Ok a, w).
Definition raise {A} (e : exn) : M A := λ w, (Raise e, w).
Definition bind {A B} (m : M A) (f : A → M B) : M B :=
  λ w, match m w with
       | (Ok a, w') => f a w'
       | (Raise e, w') => (Raise e, w')
       end.

Declare Scope py_scope.
Delimit Scope py_scope with py.
Notation "'let*' x := m 'in' k" := (bind m (λ x, k))
  (at level 10, x pattern, m at level 100, k at level 200) : py_scope.
Notation "m ;; k" := (bind m (λ _, k))
  (at level 100, k at level 200, right associativity) : py_scope.
Local Open Scope py_scope.

(** [for x in xs: body] *)
Fixpoint for_each {A} (xs : list A) (body : A → M unit) : M unit :=
  match xs with
  | [] => ret tt
  | x :: xs' => body x ;; for_each xs' body
  end.

(** [[f(x) for x in xs]] *)
Fixpoint comprehension {A B} (f : A → M B) (xs : list A) : M (list B) :=
  match xs with
  | [] => ret []
  | x :: xs' => let* b := f x in
                let* bs := comprehension f xs' in
                ret (b :: bs)
  end.

(** [xs[i]] on an immutable sequence *)
Definition index {A} (xs : list A) (i : nat) : M A :=
  match xs !! i with
  | Some x => ret x
  | None => raise IndexError
  end.

(** Allocation of a new object, at an address not in use. *)
Definition alloc (o : obj) : M loc :=
  λ w, let l := fresh (dom (heap w)) in
       (Ok l, set_heap (<[l := o]> (heap w)) w).

Definition dict_read (d : loc) : M (gmap string nat) :=
  λ w, match heap w !! d with
       | Some (ODict m) => (Ok m, w)
       | _ => (Raise TypeError, w)
       end.

Definition list_read (l : loc) : M (list (loc * bool)) :=
  λ w, match heap w !! l with
       | Some (OList xs) => (Ok xs, w)
       | _ => (Raise TypeError, w)
       end.

Definition store (l : loc) (o : obj) : M unit :=
  λ w, (Ok tt, set_heap (<[l := o]> (heap w)) w).

(** [d[k] = v] *)
Definition dict_setitem (d : loc) (k : string) (v : nat) : M unit :=
  let* m := dict_read d in store d (ODict (<[k := v]> m)).

(** [d[k]] *)
Definition dict_getitem (d : loc) (k : string) : M nat :=
  let* m := dict_read d in
  match m !! k with
  | Some v => ret v
  | None => raise KeyError
  end.

(** [del d[k]] *)
Definition dict_delitem (d : loc) (k : string) : M unit :=
  let* m := dict_read d in
  match m !! k with
  | Some _ => store d (ODict (delete k m))
  | None => raise KeyError
  end.

(** [list(d.keys())]; the order of the keys has no influence on any
    result below. *)
Definition dict_keys (d : loc) : M (list string) :=
  let* m := dict_read d in ret (map_to_list m).*1.

(** [d.copy()] *)
Definition dict_copy (d : loc) : M loc :=
  let* m := dict_read d in alloc (ODict m).

(** [l.append(x)] *)
Definition list_append (l : loc) (x : loc * bool) : M unit :=
  let* xs := list_read l in store l (OList (xs ++ [x])).

(** A pure call that may raise. *)
Definition lift {A} (r : res A) : M A :=
  match r with Ok a => ret a | Raise e => raise e end.

(** A [for] loop that rebinds local variables, collected in [s]. *)
Fixpoint for_fold {A S} (xs : list A) (s : S) (body : S → A → M S) : M S :=
  match xs with
  | [] => ret s
  | x :: xs' => let* s' := body s x in for_fold xs' s' body
  end.

(** The metrics dictionaries: four string keys, in insertion order. *)
Definition metrics_dict := list (string * pyval).

Definition md_keys (d : metrics_dict) : list string := d.*1.

Fixpoint md_lookup (d : metrics_dict) (k : string) : option pyval :=
  match d with
  | [] => None
  | (k', v) :: d' => if bool_decide (k' = k) then Some v else md_lookup d' k
  end.

Definition md_getitem (d : metrics_dict) (k : string) : M pyval :=
  match md_lookup d k with
  | Some v => ret v
  | None => raise KeyError
  end.

Fixpoint md_setitem (d : metrics_dict) (k : string) (v : pyval) : metrics_dict :=
  match d with
  | [] => [(k, v)]
  | (k', v') :: d' =>
      if bool_decide (k' = k) then (k', v) :: d' else (k', v') :: md_setitem d' k v
  end.

(** The dictionary [naive_bayes] fills, entry by entry; the support array
    [s] is an int64 or a float64 array. *)
Definition metrics_of (p r f : list npfloat) (s : pyval) : metrics_dict :=
  [("precision", NdFloat p); ("recall", NdFloat r);
   ("f-score", NdFloat f); ("support", s)]%string.

(** [print(f"{label}: {v}")] *)
Definition print (label : string) (v : pyval) : M unit :=
  λ w, (Ok tt, {| heap := heap w; rng_calls := rng_calls w;
                  stdout := stdout w ++ [Printed label v] |}).

(** [display.plot()] *)
Definition plot (confusionMatrix : list (list nat)) (labels : list string) : M unit :=
  λ w, (Ok tt, {| heap := heap w; rng_calls := rng_calls w;
                  stdout := stdout w ++ [Plotted confusionMatrix labels] |}).

End Py.

(** ** Cells 7 and 13: building and reducing the featuresets *)

Module Featuresets.
Import Py.
Local Open Scope py_scope.

(** Cell 7, the loop filling [featuresets]; [vectorized_lyrics] stands for
    the column [tracks['vectorized_lyrics']], [y] for [tracks['explicit']].
    The result is the address of the list. *)
Definition build_featuresets (words : list string)
    (vectorized_lyrics : list (list nat)) (y : list bool) : M loc :=
  let* featuresets := alloc (OList []) in
  for_each (seq 0 (length y)) (λ i,
    let* featureX := alloc (ODict ∅) in
    for_each (seq 0 (length words)) (λ j,
      let* row := index vectorized_lyrics i in
      let* count := index row j in
      let* word := index words j in
      dict_setitem featureX word count) ;;
    let* label := index y i in
    list_append featuresets (featureX, label)) ;;
  ret featuresets.

(** Cell 13, the loop filling [informative_featuresets]. *)
Definition select_informative (most_informative_features : list string)
    (featuresets : loc) : M loc :=
  let* informative_featuresets := alloc (OList []) in
  let* pairs := list_read featuresets in
  for_each pairs (λ '(featureDict, isExplicit),
    let* newFeatureDict := alloc (ODict ∅) in
    let* keys := dict_keys featureDict in
    for_each keys (λ word,
      if bool_decide (word ∈ most_informative_features) then
        let* count := dict_getitem featureDict word in
        dict_setitem newFeatureDict word count
      else ret tt) ;;
    list_append informative_featuresets (newFeatureDict, isExplicit)) ;;
  ret informative_featuresets.

Section Pipeline.
Variable stem : string → string.

(** Cells 5 and 7 in sequence, from the track table (lyrics, explicit
    flag) and the stop-word list to the featuresets. *)
Definition data_preparation (tracks : list (string * bool))
    (stopWords : list string) : M loc :=
  let stemmed_lyrics := Normalizer.stemLyrics stem tracks.*1 stopWords in
  let y := tracks.*2 in
  match Vectorizer.fit_transform stemmed_lyrics with
  | Raise e => raise e
  | Ok (vectorizer, vec) =>
      build_featuresets (Vectorizer.get_feature_names_out vectorizer) vec y
  end.
End Pipeline.

(** What a list of featuresets denotes in a heap: the contents of each
    dictionary with its label, if every reference is a dictionary. *)
Definition deref (h : gmap loc obj) (pair : loc * bool)
  : option (gmap string nat * bool) :=
  match h !! pair.1 with
  | Some (ODict m) => Some (m, pair.2)
  | _ => None
  end.

Definition contents (h : gmap loc obj) (l : loc)
  : option (list (gmap string nat * bool)) :=
  match h !! l with
  | Some (OList pairs) => mapM (deref h) pairs
  | _ => None
  end.

(** The dictionary of one track, as a value: each word with the count at
    its position in the row. *)
Definition feature_map (words : list string) (row : list nat) : gmap string nat :=
  list_to_map (zip words row).

(** The reduction of one feature map, as a value. *)
Definition restrict (names : list string) (m : gmap string nat) : gmap string nat :=
  filter (λ kv, kv.1 ∈ names) m.

Definition empty_world : World :=
  {| heap := ∅; rng_calls := 0; stdout := [] |}.

End Featuresets.

(** ** float64 arithmetic *)

Module Float64.
Import Py.
Local Open Scope Q_scope.

(** [2^e], for any integer exponent. *)
Definition pow2 (e : Z) : Q := 2 ^ e.

(** The integer nearest to [x]; a tie goes to the even one. *)
Definition round_half_even (x : Q) : Z :=
  let f := Qfloor x in
  match Qcompare (x - inject_Z f) (1 # 2) with
  | Lt => f
  | Gt => (f + 1)%Z
  | Eq => if Z.even f then f else (f + 1)%Z
  end.

(** The integer [l] with [2^l <= x < 2^(l+1)], for [x > 0]. *)
Definition floor_log2 (x : Q) : Z :=
  let l := (Z.log2 (Qnum x) - Z.log2 (Z.pos (Qden x)))%Z in
  if Qle_bool (pow2 l) x then l else (l - 1)%Z.

(** Rounding of [x > 0] to 53 significant bits, the last of them not below
    [2^-1074] (where float64 becomes subnormal). *)
Definition round_pos (x : Q) : Q :=
  let e := Z.max (floor_log2 x - 52) (-1074) in
  inject_Z (round_half_even (x * pow2 (- e))) * pow2 e.

(** The float64 nearest to the rational [q] (round to nearest, ties to
    even), as a reduced fraction. *)
Definition round64 (q : Q) : Q :=
  match Qcompare q 0 with
  | Eq => 0
  | Gt => Qred (round_pos (Qred q))
  | Lt => Qred (- round_pos (Qred (- q)))
  end.

(** The rationals that are float64 values. *)
Definition representable (q : Q) : Prop :=
  ∃ m e : Z, (Z.abs m <= 2 ^ 53)%Z ∧ (-1074 <= e)%Z ∧ q == inject_Z m * pow2 e.

(** The float64 operations on finite values, and the conversion of an
    integer (int64, or a Python integer) to float64. *)
Definition fadd (a b : Q) : Q := round64 (a + b).
Definition fmul (a b : Q) : Q := round64 (a * b).
Definition fdiv (a b : Q) : Q := round64 (a / b).
Definition of_Z (z : Z) : Q := round64 (inject_Z z).

Definition of_int (z : Z) : npfloat := Finite (of_Z z).

(** An array entry that holds a float64: [round64] leaves it as it is. *)
Definition is_float64 (x : npfloat) : Prop :=
  match x with
  | Finite q => round64 q = q
  | NonFinite => True
  end.

(** The Standard Library's IEEE 754 operations at binary64, to compare
    [round64] with. *)
Definition binary64_of_Z (z : Z) : SpecFloat.spec_float :=
  SpecFloat.binary_normalize 53 1024 z 0 false.

Definition has_value (x : SpecFloat.spec_float) (q : Q) : bool :=
  match x with
  | SpecFloat.S754_zero _ => Qeq_bool 0 q
  | SpecFloat.S754_finite s m e =>
      Qeq_bool ((if s then -1 else 1) * inject_Z (Z.pos m) * pow2 e) q
  | _ => false
  end.

(** Whether [of_Z], [fdiv] and [fadd] give the values of the binary64
    conversion, division and addition on [a], [a / b] and
    [a / b + c / b]. *)
Definition agrees_with_binary64 (a b c : Z) : bool :=
  has_value (binary64_of_Z a) (of_Z a)
  && has_value (SpecFloat.SFdiv 53 1024 (binary64_of_Z a) (binary64_of_Z b))
               (fdiv (of_Z a) (of_Z b))
  && has_value (SpecFloat.SFadd 53 1024
                  (SpecFloat.SFdiv 53 1024 (binary64_of_Z a) (binary64_of_Z b))
                  (SpecFloat.SFdiv 53 1024 (binary64_of_Z c) (binary64_of_Z b)))
               (fadd (fdiv (of_Z a) (of_Z b)) (fdiv (of_Z c) (of_Z b))).

End Float64.

(** ** scikit-learn's metrics, as [naive_bayes] calls them *)

Module Metrics.
Import Py Float64.

(** [_prf_divide] with [zero_division="warn"]: the float64 quotient, and
    0.0 where the denominator is zero. *)
Definition prf_divide (numerator denominator : Q) : npfloat :=
  if Qeq_bool denominator 0 then Finite 0
  else Finite (fdiv numerator denominator).

Definition count_if {A} (p : A → bool) (l : list A) : nat :=
  length (List.filter p l).

(** [unique_labels(y_true, y_pred)]: the labels present, sorted
    ([False < True]). *)
Definition unique_labels (y_true y_pred : list bool) : list bool :=
  List.filter (λ l, existsb (Bool.eqb l) (y_true ++ y_pred)) [false; true].

Definition tp_sum (y_true y_pred : list bool) (l : bool) : nat :=
  count_if (λ '(t, p), Bool.eqb t l && Bool.eqb p l) (zip y_true y_pred).
Definition pred_sum (y_pred : list bool) (l : bool) : nat :=
  count_if (Bool.eqb l) y_pred.
Definition true_sum (y_true : list bool) (l : bool) : nat :=
  count_if (Bool.eqb l) y_true.

(** Whether some sample is predicted correctly.  When none is,
    [multilabel_confusion_matrix] takes its "pathological case": it sets
    [tp_sum] to [np.zeros(len(labels))], a float64 array, and every array
    derived from it is float64, the support among them. *)
Definition any_correct (y_true y_pred : list bool) : bool :=
  existsb (λ '(t, p), Bool.eqb t p) (zip y_true y_pred).

(** The support array: the counts of the true labels, int64 as
    [np.bincount] returns them, or converted to float64. *)
Definition support_counts (y_true y_pred : list bool) : list Z :=
  (λ l, Z.of_nat (true_sum y_true l)) <$> unique_labels y_true y_pred.

Definition support_array (y_true y_pred : list bool) : pyval :=
  if any_correct y_true y_pred then NdInt (support_counts y_true y_pred)
  else NdFloat (of_int <$> support_counts y_true y_pred).

(** [precision_recall_fscore_support(y_true, y_pred)] with the defaults
    [beta=1.0], [labels=None], [average=None]: four arrays with one entry
    per present label.  The quotients are taken in float64, of counts
    converted to float64; the f-score is
    [(1 + beta2) * tp_sum / (beta2 * true_sum + pred_sum)] with
    [beta2 = 1.0].  Lists of different lengths raise [ValueError], and so
    do empty lists: there is no confusion matrix to reshape. *)
Definition precision_recall_fscore_support (y_true y_pred : list bool)
  : res (list npfloat * list npfloat * list npfloat * pyval) :=
  if negb (length y_true =? length y_pred) then Raise (ValueError ShapeMismatch)
  else if length y_true =? 0 then Raise (ValueError EmptyTargets)
  else
    let labels := unique_labels y_true y_pred in
    let tp l := of_Z (Z.of_nat (tp_sum y_true y_pred l)) in
    let predicted l := of_Z (Z.of_nat (pred_sum y_pred l)) in
    let actual l := of_Z (Z.of_nat (true_sum y_true l)) in
    let precision := (λ l, prf_divide (tp l) (predicted l)) <$> labels in
    let recall := (λ l, prf_divide (tp l) (actual l)) <$> labels in
    let f_score :=
      (λ l, prf_divide (fmul 2 (tp l)) (fadd (fmul 1 (actual l)) (predicted l)))
        <$> labels in
    Ok (precision, recall, f_score, support_array y_true y_pred).

(** [confusion_matrix(y_true, y_pred)]: rows are true labels, columns
    predicted labels, both over the present labels. *)
Definition confusion_matrix (y_true y_pred : list bool) : list (list nat) :=
  let labels := unique_labels y_true y_pred in
  (λ t, (λ p, count_if (λ '(t', p'), Bool.eqb t' t && Bool.eqb p' p)
                       (zip y_true y_pred)) <$> labels) <$> labels.

(** A finite float in the interval [0, 1]. *)
Definition unit_interval (x : npfloat) : Prop :=
  ∃ q, x = Finite q ∧ (0 <= q)%Q ∧ (q <= 1)%Q.

Definition sum_Z (l : list Z) : Z := foldr Z.add 0%Z l.

End Metrics.

(** ** Arithmetic on the values of the metrics dictionaries *)

Module Arith.
Import Py.
Export Float64.

(** float64 addition. *)
Definition np_add (x y : npfloat) : npfloat :=
  match x, y with
  | Finite a, Finite b => Finite (fadd a b)
  | _, _ => NonFinite
  end.

(** numpy division by a Python integer, which is converted to float64: a
    zero divisor gives [inf] or [nan] (and a warning), not an exception. *)
Definition np_div (x : npfloat) (n : Z) : npfloat :=
  match x with
  | Finite a => if (n =? 0)%Z then NonFinite else Finite (fdiv a (of_Z n))
  | NonFinite => NonFinite
  end.

(** Python's [x / n] on two integers: the quotient, correctly rounded. *)
Definition int_truediv (x n : Z) : npfloat :=
  Finite (round64 (inject_Z x / inject_Z n)).

(** Element-wise combination of the array [xs] with the operand [ys]
    broadcast to its shape, as an in-place operator needs it. *)
Definition broadcast_into {A B} (f : A → B → A) (xs : list A) (ys : list B)
  : res (list A) :=
  match ys with
  | [y] => Ok ((λ x, f x y) <$> xs)
  | _ => if length xs =? length ys then Ok (zip_with f xs ys)
         else Raise (ValueError ShapeMismatch)
  end.

Definition fmap_res {A B} (f : A → B) (r : res A) : res B :=
  match r with Ok a => Ok (f a) | Raise e => Raise e end.

(** [a += b] on a dictionary entry: [a + b] when [a] is a Python number,
    the in-place addition of numpy when [a] is an array. *)
Definition iadd (a b : pyval) : res pyval :=
  match a, b with
  | PyInt x, PyInt y => Ok (PyInt (x + y))
  | PyInt x, PyFloat y => Ok (PyFloat (np_add (of_int x) y))
  | PyInt x, NdInt ys => Ok (NdInt (Z.add x <$> ys))
  | PyInt x, NdFloat ys => Ok (NdFloat (np_add (of_int x) <$> ys))
  | PyFloat x, PyInt y => Ok (PyFloat (np_add x (of_int y)))
  | PyFloat x, PyFloat y => Ok (PyFloat (np_add x y))
  | PyFloat x, NdInt ys => Ok (NdFloat ((λ y, np_add x (of_int y)) <$> ys))
  | PyFloat x, NdFloat ys => Ok (NdFloat (np_add x <$> ys))
  | NdInt xs, PyInt y => Ok (NdInt ((λ x, x + y)%Z <$> xs))
  | NdInt xs, NdInt ys => fmap_res NdInt (broadcast_into Z.add xs ys)
  | NdInt _, (PyFloat _ | NdFloat _) => Raise TypeError
  | NdFloat xs, PyInt y => Ok (NdFloat ((λ x, np_add x (of_int y)) <$> xs))
  | NdFloat xs, PyFloat y => Ok (NdFloat ((λ x, np_add x y) <$> xs))
  | NdFloat xs, NdInt ys =>
      fmap_res NdFloat (broadcast_into (λ x y, np_add x (of_int y)) xs ys)
  | NdFloat xs, NdFloat ys => fmap_res NdFloat (broadcast_into np_add xs ys)
  end.

(** [a / n] for a Python integer [n]. *)
Definition truediv (a : pyval) (n : Z) : res pyval :=
  match a with
  | PyInt x =>
      if (n =? 0)%Z then Raise ZeroDivisionError
      else Ok (PyFloat (int_truediv x n))
  | PyFloat x =>
      if (n =? 0)%Z then Raise ZeroDivisionError else Ok (PyFloat (np_div x n))
  | NdInt xs => Ok (NdFloat ((λ x, np_div (of_int x) n) <$> xs))
  | NdFloat xs => Ok (NdFloat ((λ x, np_div x n) <$> xs))
  end.

(** numpy's [array_equal] on arrays: the same length and equal entries, an
    integer being equal to the float it converts to.  An entry that is
    [inf] or [nan] is not taken to equal anything. *)
Definition np_eq (x y : npfloat) : Prop :=
  match x, y with
  | Finite a, Finite b => (a == b)%Q
  | _, _ => False
  end.

(** A numpy array, and an array whose float entries are float64
    values. *)
Definition is_array (v : pyval) : Prop :=
  match v with
  | NdInt _ | NdFloat _ => True
  | PyInt _ | PyFloat _ => False
  end.

Definition float_entries (v : pyval) : Prop :=
  match v with
  | NdFloat a => Forall is_float64 a
  | NdInt _ | PyInt _ | PyFloat _ => True
  end.

Definition entries (v : pyval) : option (list npfloat) :=
  match v with
  | NdInt a => Some (of_int <$> a)
  | NdFloat a => Some a
  | PyInt _ | PyFloat _ => None
  end.

Definition array_equal (a b : pyval) : Prop :=
  match entries a, entries b with
  | Some xs, Some ys => Forall2 np_eq xs ys
  | _, _ => False
  end.

End Arith.

(** ** Cells 9 and 13: the Classifier Trainer/Evaluator *)

Module NaiveBayes.
Import Py Metrics.
Local Open Scope py_scope.

(** A trained [nltk.NaiveBayesClassifier].  Its probability tables are a
    function of the training sample, which is what the record keeps. *)
Record NaiveBayesClassifier := {
  training : list (gmap string nat * bool);
}.

(** A feature name is known to the classifier when some training
    featureset had it: [(label, fname) in self._feature_probdist]. *)
Definition known_fname (c : NaiveBayesClassifier) (fname : string) : bool :=
  existsb (λ '(m, _), bool_decide (is_Some (m !! fname))) (training c).

Section WithLibraries.

(** numpy's global generator: the permutation of [range(n)] that its
    [k]-th call returns. *)
Variable rng_permutation : nat → nat → list nat.

(** nltk's decision rule: the label of maximal posterior probability
    under the tables estimated from the training sample. *)
Variable posterior_argmax : list (gmap string nat * bool) → gmap string nat → bool.

(** nltk's ranking of the [(fname, fval)] pairs by informativeness. *)
Variable informativeness_ranking :
  NaiveBayesClassifier → list (string * option nat).

(** Whether the plotting back end accepts a matrix with these tick
    labels. *)
Variable render_ok : list (list nat) → list string → bool.

Definition rng_draw (n : nat) : M (list nat) :=
  λ w, (Ok (rng_permutation (rng_calls w) n),
        {| heap := heap w; rng_calls := S (rng_calls w); stdout := stdout w |}).

(** [train_test_split(featuresets)] with its defaults: the test subset
    takes [ceil(0.25 * n)] samples, the first of one random permutation;
    the training subset takes the others.  The two lists are new, their
    tuples are the ones of the input list. *)
Definition train_test_split (featuresets : loc)
  : M (list (loc * bool) * list (loc * bool)) :=
  let* array := list_read featuresets in
  let n_samples := length array in
  let n_test := (n_samples + 3) / 4 in
  let n_train := n_samples - n_test in
  if n_train =? 0 then raise (ValueError EmptyTrainSet)
  else
    let* permutation := rng_draw n_samples in
    let ind_test := take n_test permutation in
    let ind_train := take n_train (drop n_test permutation) in
    let* train := comprehension (index array) ind_train in
    let* test := comprehension (index array) ind_test in
    ret (train, test).

(** [nltk.NaiveBayesClassifier.train(trainSet)] reads the items of every
    training dictionary. *)
Definition train (trainSet : list (loc * bool)) : M NaiveBayesClassifier :=
  let* sample := comprehension
                   (λ '(featureset, label),
                      let* m := dict_read featureset in ret (m, label))
                   trainSet in
  ret {| training := sample |}.

(** [classifier.classify(features)]: nltk copies the featureset, deletes
    from the copy the names the classifier never saw, and returns the
    most probable label. *)
Definition classify (classifier : NaiveBayesClassifier) (features : loc) : M bool :=
  let* featureset := dict_copy features in
  let* fnames := dict_keys featureset in
  for_each fnames (λ fname,
    if known_fname classifier fname then ret tt
    else dict_delitem featureset fname) ;;
  let* m := dict_read featureset in
  ret (posterior_argmax (training classifier) m).

Definition most_informative_features (classifier : NaiveBayesClassifier)
    (n : nat) : list (string * option nat) :=
  take n (informativeness_ranking classifier).

(** Column [k] of the transposed [testSet], as the notebook takes it with
    [zip]: an empty [testSet] has no column to index. *)
Definition column {A} (testSet : list (loc * bool)) (proj : loc * bool → A)
  : M (list A) :=
  match testSet with
  | [] => raise IndexError
  | _ => ret (proj <$> testSet)
  end.

Definition naive_bayes (featuresets : loc)
    (printMetrics showConfusionMatrix : bool)
  : M (NaiveBayesClassifier * metrics_dict) :=
  let* (trainSet, testSet) := train_test_split featuresets in
  let* classifier := train trainSet in
  let* testY := column testSet snd in
  let* test_features := column testSet fst in
  let* predictY := comprehension (classify classifier) test_features in
  let* (p, r, f, s) := lift (precision_recall_fscore_support testY predictY) in
  let metrics :=
    md_setitem (md_setitem (md_setitem (md_setitem []
      "precision" (NdFloat p)) "recall" (NdFloat r))
      "f-score" (NdFloat f)) "support" s in
  (if printMetrics then
     for_each (md_keys metrics) (λ metric,
       let* v := md_getitem metrics metric in print metric v)
   else ret tt) ;;
  (if showConfusionMatrix then
     let labels := ["Not Explicit"; "Explicit"]%string in
     let confusionMatrix := confusion_matrix testY predictY in
     if render_ok confusionMatrix labels then plot confusionMatrix labels
     else raise RenderError
   else ret tt) ;;
  ret (classifier, metrics).

(** Cell 13: the names of the [num_most_informative] best-ranked
    features, then the reduction loop. *)
Definition feature_selection (classifier : NaiveBayesClassifier)
    (num_most_informative : nat) (featuresets : loc) : M loc :=
  let most_informative_features :=
    (most_informative_features classifier num_most_informative).*1 in
  Featuresets.select_informative most_informative_features featuresets.

End WithLibraries.

End NaiveBayes.

(** ** Cell 18: the Monte Carlo Validator *)

Module MonteCarlo.
Import Py Arith NaiveBayes.
Local Open Scope py_scope.

Section WithLibraries.
Variable rng_permutation : nat → nat → list nat.
Variable posterior_argmax : list (gmap string nat * bool) → gmap string nat → bool.
Variable render_ok : list (list nat) → list string → bool.

Definition MonteCarloCrossValidation (featuresets : loc) (n : Z)
  : M metrics_dict :=
  let metrics_averages : metrics_dict :=
    [("precision", PyInt 0); ("recall", PyInt 0);
     ("f-score", PyInt 0); ("support", PyInt 0)]%string in
  let* (metrics_averages, metrics) :=
    for_fold (seq 0 (Z.to_nat n)) (metrics_averages, None)
      (λ '(metrics_averages, _) _,
         let* (_, metrics) :=
           naive_bayes rng_permutation posterior_argmax render_ok
                       featuresets false false in
         let* metrics_averages :=
           for_fold (md_keys metrics) metrics_averages
             (λ metrics_averages metric,
                let* a := md_getitem metrics_averages metric in
                let* b := md_getitem metrics metric in
                let* sum := lift (iadd a b) in
                ret (md_setitem metrics_averages metric sum)) in
         ret (metrics_averages, Some metrics)) in
  let* metrics_averages :=
    for_fold (md_keys metrics_averages) metrics_averages
      (λ acc metric,
         let* a := md_getitem acc metric in
         let* q := lift (truediv a n) in
         ret (md_setitem acc metric q)) in
  let* metrics := match metrics with
                  | Some metrics => ret metrics
                  | None => raise UnboundLocalError
                  end in
  for_each (md_keys metrics) (λ metric,
    let* v := md_getitem metrics_averages metric in
    print ("average " ++ metric)%string v) ;;
  ret metrics_averages.

End WithLibraries.

End MonteCarlo.

(** What a single repetition leaves in [metrics_averages]: each array added
    to 0, then divided by 1; and the lines the validator prints. *)
Module MonteCarloOnce.
Import Py Arith.

Definition once (array : pyval) : pyval :=
  match array with
  | NdInt a => NdFloat ((λ x, np_div (of_int x) 1) <$> (Z.add 0 <$> a))
  | NdFloat a => NdFloat ((λ x, np_div x 1) <$> (np_add (of_int 0) <$> a))
  | PyInt _ | PyFloat _ => array
  end.

Definition averaged_once (p r f : list npfloat) (s : pyval) : metrics_dict :=
  [("precision", once (NdFloat p)); ("recall", once (NdFloat r));
   ("f-score", once (NdFloat f)); ("support", once s)]%string.

(** The values of an array as float64: what the division by 1 makes of
    it. *)
Definition as_float64 (array : pyval) : pyval :=
  match array with
  | NdInt a => NdFloat (of_int <$> a)
  | NdFloat _ | PyInt _ | PyFloat _ => array
  end.

Definition print_averages (d : metrics_dict) (w : World) : World :=
  {| heap := heap w; rng_calls := rng_calls w;
     stdout := foldl (λ out kv, out ++ [Printed ("average " ++ kv.1)%string kv.2])
                     (stdout w) d |}.
End MonteCarloOnce.

(** ** Small concrete inputs *)

Module Examples.
Import Py.

(** Two lines of lyrics, separated by a line feed. *)
Definition two_line_lyric : string := "hello" ++ String "010"%char "world".

(** A stemmer that only knows the plural "beings". *)
Definition toy_stem (word : string) : string :=
  if bool_decide (word = "beings") then "be" else word.

(** The four tracks of the specification's scenario A, and four more. *)
Definition demo_tracks : list (string * bool) :=
  [("damn", true); ("hello", false); ("damn hell", true); ("sunshine", false);
   ("Hell yeah", true); ("a sweet day", false); ("hello world", false);
   ("damn right", true)].

Definition demo_stop_words : list string := ["the"; "a"].

Definition demo_world : World :=
  (run (Featuresets.data_preparation Text.lower demo_tracks demo_stop_words)
       Featuresets.empty_world).2.

(** The address [data_preparation] gives the list in the empty world. *)
Definition demo_featuresets : loc := 0.

Definition demo_contents : list (gmap string nat * bool) :=
  default [] (Featuresets.contents (heap demo_world) demo_featuresets).

Definition demo_rng (k n : nat) : list nat := reverse (seq 0 n).

Definition demo_argmax (training : list (gmap string nat * bool))
    (features : gmap string nat) : bool :=
  bool_decide (features !! "damn" = Some 1).

Definition demo_ranking (c : NaiveBayes.NaiveBayesClassifier)
  : list (string * option nat) :=
  [("damn", Some 1); ("damn", Some 0); ("hell", Some 1); ("sunshine", Some 0)].

Definition demo_render (cm : list (list nat)) (labels : list string) : bool :=
  length cm =? length labels.

Definition res_value {A} (r : res A) : option A :=
  match r with Ok a => Some a | Raise _ => None end.

(** The outcome of one direct call on the demo data, by components. *)
Definition demo_call : res (NaiveBayes.NaiveBayesClassifier * metrics_dict) * World :=
  run (NaiveBayes.naive_bayes demo_rng demo_argmax demo_render demo_featuresets
                              true false) demo_world.

Definition demo_classifier : NaiveBayes.NaiveBayesClassifier :=
  match demo_call.1 with
  | Ok (c, _) => c
  | Raise _ => {| NaiveBayes.training := [] |}
  end.

Definition demo_metrics : metrics_dict :=
  match demo_call.1 with Ok (_, m) => m | Raise _ => [] end.

Definition demo_after : World := demo_call.2.

End Examples.

(** ** Assertions about computations *)

Module Hoare.
Import Py.

(** [hoare P m Q]: from a world satisfying [P], the outcome of [m] (a value
    or an exception) and the world it leaves satisfy [Q].  Computations are
    functions, so [m] always has an outcome, and it returns whenever [Q]
    excludes [Raise]. *)
Definition hoare {A} (P : World → Prop) (m : M A) (Q : res A → World → Prop)
  : Prop :=
  ∀ w, P w → Q (run m w).1 (run m w).2.

Definition any {A} : A → Prop := λ _, True.

(** [frames h0 m Q]: run from a heap that extends [h0], the computation [m]
    leaves every object of [h0] as it was, whether it returns or raises; a
    returned value satisfies [Q]. *)
Definition frames {A} (h0 : gmap loc obj) (m : M A) (Q : A → Prop) : Prop :=
  hoare (λ w, h0 ⊆ heap w) m
        (λ r w', h0 ⊆ heap w' ∧ match r with Ok a => Q a | Raise _ => True end).

(** [raises_only E m]: whatever [m] raises satisfies [E]. *)
Definition raises_only {A} (E : exn → Prop) (m : M A) : Prop :=
  hoare (λ _, True) m
        (λ r _, match r with Ok _ => True | Raise e => E e end).

Definition not_zde (e : exn) : Prop := e ≠ ZeroDivisionError.

(** [outcome Q E m]: what [m] returns satisfies [Q], what it raises
    satisfies [E]. *)
Definition outcome {A} (Q : A → Prop) (E : exn → Prop) (m : M A) : Prop :=
  hoare (λ _, True) m
        (λ r _, match r with Ok a => Q a | Raise e => E e end).

(** A value without [inf] or [nan]. *)
Definition finite_val (v : pyval) : Prop :=
  match v with
  | PyInt _ | NdInt _ => True
  | PyFloat x => x ≠ NonFinite
  | NdFloat xs => Forall (λ x, x ≠ NonFinite) xs
  end.

Definition all_finite (d : metrics_dict) : Prop :=
  Forall (λ kv, finite_val kv.2) d.

End Hoare.

(** ** Effects on the generator and on the output *)

Module Effects.
Import Py.

(** [silent m]: the computation [m] draws nothing from the generator and
    prints nothing, whether it returns or raises. *)
Definition silent {A} (m : M A) : Prop :=
  ∀ w, rng_calls (run m w).2 = rng_calls w ∧ stdout (run m w).2 = stdout w.

(** [draws k Q m]: the computation [m] prints nothing; when it returns,
    its value satisfies [Q] and it has drawn exactly [k] permutations from
    the generator; when it raises, it has drawn at most [k]. *)
Definition draws {A} (k : nat) (Q : A → Prop) (m : M A) : Prop :=
  ∀ w, stdout (run m w).2 = stdout w
       ∧ match (run m w).1 with
         | Ok a => Q a ∧ rng_calls (run m w).2 = rng_calls w + k
         | Raise _ => rng_calls w ≤ rng_calls (run m w).2 ≤ rng_calls w + k
         end.

(** The keys of every metrics dictionary, in insertion order. *)
Definition metric_names : list string :=
  ["precision"; "recall"; "f-score"; "support"]%string.

(** The objects a loop of cell 7 or cell 13 has created so far: the list
    [out] and the dictionaries of its pairs [outs], all new with respect to
    the heap [h0] the cell started from, no two of them the same, and
    nothing else was added to the heap. *)
Definition created (h0 h : gmap loc obj) (out : loc) (outs : list (loc * bool)) : Prop :=
  h0 ⊆ h
  ∧ h !! out = Some (OList outs)
  ∧ h0 !! out = None
  ∧ NoDup outs.*1
  ∧ Forall (λ d, h0 !! d = None ∧ d ≠ out) outs.*1
  ∧ dom h = dom h0 ∪ {[out]} ∪ list_to_set outs.*1.

End Effects.

(** ** The validator's accumulators, in closed form *)

Module Averages.
Import Py Arith NaiveBayes.
Local Open Scope py_scope.

Section WithLibraries.
Variable rng_permutation : nat → nat → list nat.
Variable posterior_argmax : list (gmap string nat * bool) → gmap string nat → bool.
Variable render_ok : list (list nat) → list string → bool.

(** [n] evaluation runs one after the other, as the loop of the validator
    makes them: the metrics dictionaries they return, in order. *)
Fixpoint repeat_runs (featuresets : loc) (n : nat) : M (list metrics_dict) :=
  match n with
  | 0 => ret []
  | S n' =>
      let* (_, metrics) :=
        naive_bayes rng_permutation posterior_argmax render_ok featuresets false false in
      let* rest := repeat_runs featuresets n' in
      ret (metrics :: rest)
  end.

End WithLibraries.

(** The four arrays of one run whose support array is int64. *)
Definition run_arrays : Type := list npfloat * list npfloat * list npfloat * list Z.

Definition dict_of (t : run_arrays) : metrics_dict :=
  let '(p, r, f, s) := t in metrics_of p r f (NdInt s).

(** [0 + array], the accumulators after the first run. *)
Definition first_run (t : run_arrays) : run_arrays :=
  let '(p, r, f, s) := t in
  (np_add (of_int 0) <$> p, np_add (of_int 0) <$> r, np_add (of_int 0) <$> f,
   Z.add 0 <$> s).

(** [accumulator += array], for arrays of the accumulator's length. *)
Definition add_run (acc t : run_arrays) : run_arrays :=
  let '(P, R, F, T) := acc in
  let '(p, r, f, s) := t in
  (zip_with np_add P p, zip_with np_add R r, zip_with np_add F f, zip_with Z.add T s).

(** [accumulator / n], entry by entry. *)
Definition divided (n : Z) (acc : run_arrays) : metrics_dict :=
  let '(P, R, F, T) := acc in
  [("precision", NdFloat ((λ x, np_div x n) <$> P));
   ("recall", NdFloat ((λ x, np_div x n) <$> R));
   ("f-score", NdFloat ((λ x, np_div x n) <$> F));
   ("support", NdFloat ((λ x, np_div (of_int x) n) <$> T))]%string.

Definition same_shape (L : nat) (t : run_arrays) : Prop :=
  let '(p, r, f, s) := t in
  length p = L ∧ length r = L ∧ length f = L ∧ length s = L.

(** The float arrays of a run hold float64 values. *)
Definition float_arrays (t : run_arrays) : Prop :=
  Forall is_float64 t.1.1.1 ∧ Forall is_float64 t.1.1.2 ∧ Forall is_float64 t.1.2.

(** The entries of the array stored under [key]. *)
Definition array_of (key : string) (m : metrics_dict) : option (list npfloat) :=
  md_lookup m key ≫= entries.

(** The int64 array stored under [key], if it is one. *)
Definition int_array_of (key : string) (m : metrics_dict) : option (list Z) :=
  match md_lookup m key with
  | Some (NdInt a) => Some a
  | _ => None
  end.

(** The float64 array stored under [key], if it is one. *)
Definition float_array_of (key : string) (m : metrics_dict) : option (list npfloat) :=
  match md_lookup m key with
  | Some (NdFloat a) => Some a
  | _ => None
  end.

(** numpy's element-wise sum of arrays of one length, and their mean. *)
Definition elementwise_sum (arrays : list (list npfloat)) : list npfloat :=
  match arrays with
  | [] => []
  | a :: rest => foldl (zip_with np_add) a rest
  end.

Definition elementwise_mean (n : Z) (arrays : list (list npfloat)) : list npfloat :=
  (λ x, np_div x n) <$> elementwise_sum arrays.

(** The element-wise sum of int64 arrays of one length. *)
Definition elementwise_int_sum (arrays : list (list Z)) : list Z :=
  match arrays with
  | [] => []
  | a :: rest => foldl (zip_with Z.add) a rest
  end.

(** The number of classes a run reported: the length of its arrays. *)
Definition classes_of (r : res (NaiveBayesClassifier * metrics_dict)) : option nat :=
  match r with
  | Ok (_, metrics) => length <$> array_of "support" metrics
  | Raise _ => None
  end.

(** The support array of a run that returned, if int64; if float64. *)
Definition int_support_of (r : res (NaiveBayesClassifier * metrics_dict))
  : option (list Z) :=
  match r with
  | Ok (_, metrics) => int_array_of "support" metrics
  | Raise _ => None
  end.

Definition float_support_of (r : res (NaiveBayesClassifier * metrics_dict))
  : option (list npfloat) :=
  match r with
  | Ok (_, metrics) => float_array_of "support" metrics
  | Raise _ => None
  end.

(** [0 + array], for an array of either dtype. *)
Definition first_array (array : pyval) : pyval :=
  match array with
  | NdInt a => NdInt (Z.add 0 <$> a)
  | NdFloat a => NdFloat (np_add (of_int 0) <$> a)
  | PyInt _ | PyFloat _ => array
  end.

End Averages.

(** ** More concrete inputs *)

Module MoreExamples.
Import Py Examples.

(** Three runs on the demo data, by components. *)
Definition demo_runs : res (list metrics_dict) * World :=
  run (Averages.repeat_runs demo_rng demo_argmax demo_render demo_featuresets 3)
      demo_world.

Definition demo_run_metrics : list metrics_dict :=
  match demo_runs.1 with Ok ms => ms | Raise _ => [] end.

Definition demo_runs_after : World := demo_runs.2.

(** One run on the demo data with the metrics printed and the confusion
    matrix plotted. *)
Definition demo_plot_call
  : res (NaiveBayes.NaiveBayesClassifier * metrics_dict) * World :=
  run (NaiveBayes.naive_bayes demo_rng demo_argmax demo_render demo_featuresets
                              true true) demo_world.

Definition demo_plot_result : NaiveBayes.NaiveBayesClassifier * metrics_dict :=
  default ({| NaiveBayes.training := [] |}, []) (res_value demo_plot_call.1).

(** A generator whose [j]-th draw puts two tracks of one class first, and
    whose other draws leave the order as it is. *)
Definition demo_rng_at (j k n : nat) : list nat :=
  if k =? j then [1; 3; 0; 2] ++ seq 4 (n - 4) else seq 0 n.

(** A classifier that calls every track explicit. *)
Definition demo_always_explicit (training : list (gmap string nat * bool))
    (features : gmap string nat) : bool :=
  true.

End MoreExamples.

Section Float64Facts.
Import Float64.
Local Open Scope Q_scope.

Lemma pow2_pos e : 0 < pow2 e.
Proof. apply Qpower_0_lt. reflexivity. Qed.

Lemma pow2_plus a b : pow2 (a + b) == pow2 a * pow2 b.
Proof. apply Qpower_plus. discriminate. Qed.

Lemma pow2_opp_cancel e : pow2 (- e) * pow2 e == 1.
Proof. rewrite <- pow2_plus. by replace (- e + e)%Z with 0%Z by lia. Qed.

Lemma pow2_le a b : (a <= b)%Z → pow2 a <= pow2 b.
Proof. intros H. apply Qpower_le_compat_l; [done|]. discriminate. Qed.

Lemma pow2_lt a b : (a < b)%Z → pow2 a < pow2 b.
Proof. intros H. apply Qpower_lt_compat_l; [done|]. reflexivity. Qed.

Lemma pow2_inject e : (0 <= e)%Z → pow2 e == inject_Z (2 ^ e).
Proof. intros H. unfold pow2. by rewrite Zpower_Qpower. Qed.

Lemma pow2_succ e : pow2 (e + 1) == 2 * pow2 e.
Proof. rewrite pow2_plus. unfold pow2 at 2. rewrite Qpower_1_r. ring. Qed.

Lemma round_half_even_proper x y : x == y → round_half_even x = round_half_even y.
Proof.
  intros H. unfold round_half_even. rewrite (Qfloor_comp _ _ H).
  assert (x - inject_Z (Qfloor y) == y - inject_Z (Qfloor y)) as -> by by rewrite H.
  done.
Qed.

Lemma round_half_even_close x :
  - (1 # 2) <= inject_Z (round_half_even x) - x <= 1 # 2.
Proof.
  unfold round_half_even.
  pose proof (Qfloor_le x) as Hlo. pose proof (Qlt_floor x) as Hhi.
  rewrite inject_Z_plus in Hhi. change (inject_Z 1) with 1 in Hhi.
  destruct (Qcompare (x - inject_Z (Qfloor x)) (1 # 2)) eqn:E.
  - apply Qeq_alt in E. destruct (Z.even _); rewrite ?inject_Z_plus;
      change (inject_Z 1) with 1; lra.
  - apply Qlt_alt in E. lra.
  - apply Qgt_alt in E. rewrite inject_Z_plus. change (inject_Z 1) with 1. lra.
Qed.

Lemma inject_Z_apart (k r : Z) :
  k ≠ r → inject_Z k - inject_Z r <= -1 ∨ 1 <= inject_Z k - inject_Z r.
Proof.
  intros Hne. destruct (Z.lt_ge_cases k r) as [Hlt|Hge].
  - left. assert (k + 1 <= r)%Z as H by lia. rewrite Zle_Qle, inject_Z_plus in H.
    change (inject_Z 1) with 1 in H. lra.
  - right. assert (r + 1 <= k)%Z as H by lia. rewrite Zle_Qle, inject_Z_plus in H.
    change (inject_Z 1) with 1 in H. lra.
Qed.

(** No integer is nearer to [x] than [round_half_even x]. *)
Lemma round_half_even_nearest x (k : Z) :
  Qabs (inject_Z (round_half_even x) - x) <= Qabs (inject_Z k - x).
Proof.
  pose proof (round_half_even_close x) as Hc.
  destruct (decide (k = round_half_even x)) as [->|Hne]; [apply Qle_refl|].
  apply inject_Z_apart in Hne.
  apply Qabs_Qle_condition.
  assert (1 # 2 <= Qabs (inject_Z k - x)) as Hfar.
  { apply Qabs_case; intros; destruct Hne; lra. }
  lra.
Qed.

Lemma round_half_even_Z (k : Z) : round_half_even (inject_Z k) = k.
Proof.
  pose proof (round_half_even_close (inject_Z k)) as Hc.
  destruct (decide (round_half_even (inject_Z k) = k)) as [|Hne]; [done|].
  apply inject_Z_apart in Hne. lra.
Qed.

Lemma round_half_even_le x (k : Z) : x <= inject_Z k → (round_half_even x <= k)%Z.
Proof.
  intros Hx. pose proof (round_half_even_close x) as Hc.
  destruct (Z.le_gt_cases (round_half_even x) k) as [|Hgt]; [done|].
  assert (k + 1 <= round_half_even x)%Z as H by lia.
  rewrite Zle_Qle, inject_Z_plus in H. change (inject_Z 1) with 1 in H. lra.
Qed.

Lemma round_half_even_ge x (k : Z) : inject_Z k <= x → (k <= round_half_even x)%Z.
Proof.
  intros Hx. pose proof (round_half_even_close x) as Hc.
  destruct (Z.le_gt_cases k (round_half_even x)) as [|Hgt]; [done|].
  assert (round_half_even x + 1 <= k)%Z as H by lia.
  rewrite Zle_Qle, inject_Z_plus in H. change (inject_Z 1) with 1 in H. lra.
Qed.


Lemma Qmult_le_cancel x y d : 0 < d → x * d <= y * d → x <= y.
Proof. intros Hd H. by apply Qmult_le_r in H. Qed.

Lemma Qmult_lt_cancel x y d : 0 < d → x * d < y * d → x < y.
Proof. intros Hd H. by apply Qmult_lt_r in H. Qed.

Lemma floor_log2_spec x :
  0 < x → pow2 (floor_log2 x) <= x ∧ x < pow2 (floor_log2 x + 1).
Proof.
  destruct x as [n d]. intros Hx.
  assert (0 < n)%Z as Hn by (unfold Qlt in Hx; simpl in Hx; lia).
  unfold floor_log2. cbn [Qnum Qden].
  pose proof (Z.log2_spec n Hn) as [Ha1 Ha2].
  pose proof (Z.log2_spec (Z.pos d) eq_refl) as [Hb1 Hb2].
  pose proof (Z.log2_nonneg n) as Ha0.
  pose proof (Z.log2_nonneg (Z.pos d)) as Hb0.
  set (a := Z.log2 n) in *. set (b := Z.log2 (Z.pos d)) in *.
  assert (HA1 : pow2 a <= inject_Z n)
    by (rewrite pow2_inject by done; by rewrite <- Zle_Qle).
  assert (HA2 : inject_Z n < pow2 (a + 1))
    by (rewrite pow2_inject by lia; by rewrite <- Zlt_Qlt).
  assert (HB1 : pow2 b <= inject_Z (Z.pos d))
    by (rewrite pow2_inject by done; by rewrite <- Zle_Qle).
  assert (HB2 : inject_Z (Z.pos d) < pow2 (b + 1))
    by (rewrite pow2_inject by lia; by rewrite <- Zlt_Qlt).
  assert (Hnd : inject_Z n == (n # d) * inject_Z (Z.pos d)).
  { unfold Qeq, Qmult, inject_Z. simpl. lia. }
  assert (0 < inject_Z (Z.pos d)) as HD by done.
  set (x := n # d) in *. set (D := inject_Z (Z.pos d)) in *. set (N := inject_Z n) in *.
  assert (H1 : pow2 (a - b + 1) * pow2 b == pow2 (a + 1)).
  { rewrite <- pow2_plus. by replace (a - b + 1 + b)%Z with (a + 1)%Z by lia. }
  assert (H2 : pow2 (a - b - 1) * pow2 (b + 1) == pow2 a).
  { rewrite <- pow2_plus. by replace (a - b - 1 + (b + 1))%Z with a by lia. }
  pose proof (pow2_pos (a - b + 1)) as P1. pose proof (pow2_pos (a - b - 1)) as P2.
  pose proof (pow2_pos b) as P3.
  destruct (Qle_bool (pow2 (a - b)) x) eqn:E.
  - apply Qle_bool_iff in E. split; [done|].
    apply (Qmult_lt_cancel _ _ D); [done|].
    rewrite <- Hnd. eapply Qlt_le_trans; [exact HA2|]. rewrite <- H1.
    apply Qmult_le_l; done.
  - split.
    + apply (Qmult_le_cancel _ _ D); [done|]. rewrite <- Hnd.
      eapply Qle_trans; [|exact HA1]. rewrite <- H2.
      apply Qmult_le_l; [done|]. by apply Qlt_le_weak.
    + replace (a - b - 1 + 1)%Z with (a - b)%Z by lia.
      apply Qnot_le_lt. intros Hle. apply Qle_bool_iff in Hle. congruence.
Qed.

Lemma floor_log2_unique x l : pow2 l <= x → x < pow2 (l + 1) → floor_log2 x = l.
Proof.
  intros Hlo Hhi.
  assert (0 < x) as Hx by (pose proof (pow2_pos l); lra).
  destruct (floor_log2_spec x Hx) as [Hlo' Hhi'].
  destruct (Z.lt_trichotomy (floor_log2 x) l) as [Hlt|[Heq|Hgt] ]; [|done|].
  - pose proof (pow2_le (floor_log2 x + 1) l ltac:(lia)). lra.
  - pose proof (pow2_le (l + 1) (floor_log2 x) ltac:(lia)). lra.
Qed.

Lemma floor_log2_proper x y : 0 < x → x == y → floor_log2 x = floor_log2 y.
Proof.
  intros Hx Hxy. destruct (floor_log2_spec x Hx) as [Hlo Hhi].
  symmetry. apply floor_log2_unique; lra.
Qed.


Lemma Qabs_scale a b c : 0 < c → Qabs (a * c - b * c) == Qabs (a - b) * c.
Proof.
  intros Hc. assert (a * c - b * c == (a - b) * c) as -> by ring.
  rewrite Qabs_Qmult. rewrite (Qabs_pos c); [done|]. by apply Qlt_le_weak.
Qed.

Lemma round_pos_exponent x :
  let e := Z.max (floor_log2 x - 52) (-1074) in
  (-1074 <= e)%Z ∧ (floor_log2 x - 52 <= e)%Z
  ∧ (e = (floor_log2 x - 52)%Z ∨ e = (-1074)%Z).
Proof. lia. Qed.

Lemma round_pos_mantissa x :
  0 < x →
  let e := Z.max (floor_log2 x - 52) (-1074) in
  (0 <= round_half_even (x * pow2 (- e)) <= 2 ^ 53)%Z.
Proof.
  intros Hx e. destruct (floor_log2_spec x Hx) as [_ Hhi].
  pose proof (pow2_pos (- e)) as Hp.
  split.
  - apply round_half_even_ge. change (inject_Z 0) with 0.
    apply Qlt_le_weak, Qmult_lt_0_compat; done.
  - apply round_half_even_le. rewrite <- pow2_inject by done.
    apply Qlt_le_weak. eapply Qlt_le_trans; [apply Qmult_lt_r, Hhi; done|].
    rewrite <- pow2_plus. apply pow2_le. lia.
Qed.

Lemma round_pos_nonneg x : 0 < x → 0 <= round_pos x.
Proof.
  intros Hx. unfold round_pos.
  destruct (round_pos_mantissa x Hx) as [Hm _]. rewrite Zle_Qle in Hm.
  change (inject_Z 0) with 0 in Hm.
  apply Qmult_le_0_compat; [done|]. apply Qlt_le_weak, pow2_pos.
Qed.

Lemma round_pos_representable x : 0 < x → representable (round_pos x).
Proof.
  intros Hx. unfold round_pos.
  destruct (round_pos_mantissa x Hx) as [Hm0 Hm1].
  eexists _, _. split; [|split; [|reflexivity] ]; lia.
Qed.

(** On the grid of the multiples of its last bit, [round_pos x] is a point
    nearest to [x]. *)
Lemma round_pos_grid x (k : Z) :
  0 < x →
  let e := Z.max (floor_log2 x - 52) (-1074) in
  Qabs (round_pos x - x) <= Qabs (inject_Z k * pow2 e - x).
Proof.
  intros Hx e. unfold round_pos. fold e.
  pose proof (pow2_pos e) as He.
  assert (∀ a, Qabs (a * pow2 e - x) == Qabs (a - x * pow2 (- e)) * pow2 e) as Hscale.
  { intros a. rewrite <- Qabs_scale by done. apply Qabs_wd.
    rewrite <- (Qmult_assoc x), pow2_opp_cancel. ring. }
  rewrite !Hscale.
  apply Qmult_le_compat_r; [|by apply Qlt_le_weak].
  apply round_half_even_nearest.
Qed.

Lemma round_pos_nearest x f :
  0 < x → representable f → 0 <= f → Qabs (round_pos x - x) <= Qabs (f - x).
Proof.
  intros Hx (m & e' & Hm & He' & Hf) Hf0.
  set (e := Z.max (floor_log2 x - 52) (-1074)).
  destruct (Z.le_gt_cases e e') as [Hle|Hgt].
  - pose proof (round_pos_grid x (m * 2 ^ (e' - e)) Hx) as H. cbv zeta in H. fold e in H.
    assert (inject_Z (m * 2 ^ (e' - e)) * pow2 e == f) as Hgrid.
    { rewrite Hf, inject_Z_mult, <- pow2_inject by lia.
      rewrite <- Qmult_assoc, <- pow2_plus.
      by replace (e' - e + e)%Z with e' by lia. }
    by rewrite Hgrid in H.
  - assert (e = (floor_log2 x - 52)%Z) as He by lia.
    destruct (floor_log2_spec x Hx) as [Hlo _].
    pose proof (round_pos_grid x (2 ^ 52) Hx) as H. cbv zeta in H. fold e in H.
    assert (inject_Z (2 ^ 52) * pow2 e == pow2 (floor_log2 x)) as Hg.
    { rewrite <- pow2_inject by lia. rewrite <- pow2_plus.
      by replace (52 + e)%Z with (floor_log2 x) by lia. }
    rewrite Hg in H.
    assert (f <= pow2 (floor_log2 x)) as Hfle.
    { rewrite Hf. pose proof (pow2_pos e') as Hp.
      assert (inject_Z m <= pow2 53) as Hm'.
      { rewrite pow2_inject by lia. rewrite <- Zle_Qle. lia. }
      eapply Qle_trans; [apply Qmult_le_compat_r; [exact Hm'|by apply Qlt_le_weak] |].
      rewrite <- pow2_plus. apply pow2_le. lia. }
    eapply Qle_trans; [exact H|].
    rewrite !Qabs_neg by lra. lra.
Qed.

Lemma representable_0 : representable 0.
Proof. exists 0%Z, 0%Z. split; [done|]. split; [lia|reflexivity]. Qed.

Lemma representable_opp f : representable f → representable (- f).
Proof.
  intros (m & e & Hm & He & Hf). exists (- m)%Z, e.
  split; [lia|]. split; [done|]. rewrite Hf, inject_Z_opp. ring.
Qed.

Lemma representable_proper f g : f == g → representable f → representable g.
Proof. intros Hfg (m & e & Hm & He & Hf). exists m, e. by rewrite <- Hfg. Qed.

Lemma representable_Z (z : Z) : (Z.abs z <= 2 ^ 53)%Z → representable (inject_Z z).
Proof.
  intros Hz. exists z, 0%Z. split; [done|]. split; [lia|].
  unfold pow2. rewrite Qpower_0_r. ring.
Qed.

Lemma round64_proper q q' : q == q' → round64 q = round64 q'.
Proof.
  intros H. unfold round64.
  assert (Qcompare q 0 = Qcompare q' 0) as -> by by rewrite H.
  rewrite (Qred_complete _ _ H).
  assert (- q == - q') as H' by by rewrite H.
  by rewrite (Qred_complete _ _ H').
Qed.

Lemma round64_cases q :
  (q == 0 ∧ round64 q = 0)
  ∨ (0 < q ∧ round64 q = Qred (round_pos (Qred q)))
  ∨ (q < 0 ∧ round64 q = Qred (- round_pos (Qred (- q)))).
Proof.
  unfold round64. destruct (Qcompare q 0) eqn:E.
  - left. by apply Qeq_alt in E.
  - right. right. by apply Qlt_alt in E.
  - right. left. by apply Qgt_alt in E.
Qed.

Lemma round64_representable q : representable (round64 q).
Proof.
  destruct (round64_cases q) as [ [_ ->]|[ [Hq ->]|[Hq ->] ] ].
  - apply representable_0.
  - eapply representable_proper; [symmetry; apply Qred_correct|].
    apply round_pos_representable. by rewrite Qred_correct.
  - eapply representable_proper; [symmetry; apply Qred_correct|].
    apply representable_opp, round_pos_representable. rewrite Qred_correct. lra.
Qed.

(** No float64 is nearer to [q] than [round64 q]. *)
Lemma round64_nearest q f :
  representable f → Qabs (round64 q - q) <= Qabs (f - q).
Proof.
  intros Hf.
  destruct (round64_cases q) as [ [Hq ->]|[ [Hq ->]|[Hq ->] ] ].
  - rewrite Hq. assert (0 - 0 == 0) as -> by ring. apply Qabs_nonneg.
  - rewrite (Qred_correct (round_pos _)).
    assert (0 < Qred q) as Hx by by rewrite Qred_correct.
    destruct (Qlt_le_dec f 0) as [Hneg|Hpos].
    + pose proof (round_pos_nearest _ 0 Hx representable_0 (Qle_refl 0)) as H.
      rewrite Qred_correct in H at 2 3.
      eapply Qle_trans; [exact H|].
      rewrite !Qabs_neg by lra. lra.
    + pose proof (round_pos_nearest _ f Hx Hf Hpos) as H.
      by rewrite Qred_correct in H at 2 3.
  - rewrite (Qred_correct (- round_pos _)).
    assert (0 < Qred (- q)) as Hx by (rewrite Qred_correct; lra).
    assert (∀ g, 0 <= g → representable g →
                 Qabs (- round_pos (Qred (- q)) - q) <= Qabs (- g - q)) as Hg.
    { intros g Hg0 Hgr.
      pose proof (round_pos_nearest _ g Hx Hgr Hg0) as H.
      rewrite Qred_correct in H at 2 3.
      assert (- round_pos (Qred (- q)) - q == - (round_pos (Qred (- q)) - - q)) as -> by ring.
      assert (- g - q == - (g - - q)) as -> by ring.
      by rewrite !Qabs_opp. }
    destruct (Qlt_le_dec 0 f) as [Hpos|Hneg].
    + eapply Qle_trans; [apply (Hg 0 (Qle_refl 0) representable_0)|].
      rewrite !Qabs_pos by lra. lra.
    + pose proof (Hg (- f) ltac:(lra) (representable_opp _ Hf)) as H.
      assert (- - f - q == f - q) as E by ring. by rewrite E in H.
Qed.

(** A float64 rounds to itself. *)
Lemma round64_fixed q : representable q → round64 q == q.
Proof.
  intros Hq. pose proof (round64_nearest q q Hq) as H.
  assert (q - q == 0) as E by ring. rewrite E in H. change (Qabs 0) with 0 in H.
  pose proof (Qabs_nonneg (round64 q - q)) as H0.
  assert (Qabs (round64 q - q) == 0) as Habs by lra.
  revert Habs. apply Qabs_case; intros; lra.
Qed.

Lemma Qred_Qred q : Qred (Qred q) = Qred q.
Proof. apply Qred_complete, Qred_correct. Qed.

Lemma round64_Qred q : Qred (round64 q) = round64 q.
Proof.
  destruct (round64_cases q) as [ [_ ->]|[ [_ ->]|[_ ->] ] ];
    [reflexivity|apply Qred_Qred..].
Qed.

Lemma round64_eq q q' : round64 q == round64 q' → round64 q = round64 q'.
Proof. intros H. rewrite <- (round64_Qred q), <- (round64_Qred q'). by apply Qred_complete. Qed.

Lemma round64_idempotent q : round64 (round64 q) = round64 q.
Proof.
  apply round64_eq, round64_fixed, round64_representable.
Qed.

(** Rounding keeps the order. *)
Lemma round64_monotone q q' : q <= q' → round64 q <= round64 q'.
Proof.
  intros Hle. apply Qnot_lt_le. intros Hlt.
  pose proof (round64_nearest q (round64 q') (round64_representable q')) as H1.
  pose proof (round64_nearest q' (round64 q) (round64_representable q)) as H2.
  set (r := round64 q) in *. set (r' := round64 q') in *.
  assert (q == q') as Heq.
  { revert H1 H2. do 4 (apply Qabs_case; intros ?); intros; lra. }
  apply round64_proper in Heq. fold r r' in Heq. rewrite Heq in Hlt. lra.
Qed.

Lemma round64_0 : round64 0 = 0.
Proof. reflexivity. Qed.

Lemma round64_1 : round64 1 = 1.
Proof. vm_compute. reflexivity. Qed.

Lemma round64_nonneg q : 0 <= q → 0 <= round64 q.
Proof. intros H. rewrite <- round64_0. by apply round64_monotone. Qed.

Lemma round64_unit q : 0 <= q → q <= 1 → 0 <= round64 q ∧ round64 q <= 1.
Proof.
  intros H0 H1. split; [by apply round64_nonneg|].
  rewrite <- round64_1. by apply round64_monotone.
Qed.

Lemma of_Z_0 : of_Z 0 = 0.
Proof. reflexivity. Qed.

Lemma of_Z_1 : of_Z 1 = 1.
Proof. apply round64_1. Qed.

Lemma of_Z_monotone a b : (a <= b)%Z → of_Z a <= of_Z b.
Proof. intros H. apply round64_monotone. by rewrite <- Zle_Qle. Qed.

Lemma of_Z_nonneg z : (0 <= z)%Z → 0 <= of_Z z.
Proof. intros H. rewrite <- of_Z_0. by apply of_Z_monotone. Qed.

Lemma of_Z_pos z : (1 <= z)%Z → 1 <= of_Z z.
Proof. intros H. rewrite <- of_Z_1. by apply of_Z_monotone. Qed.

Lemma of_Z_float z : round64 (of_Z z) = of_Z z.
Proof. apply round64_idempotent. Qed.

Lemma fadd_0_l q : round64 q = q → fadd 0 q = q.
Proof.
  intros Hq. unfold fadd. rewrite <- Hq at 2. apply round64_proper. ring.
Qed.

Lemma fmul_1_l q : round64 q = q → fmul 1 q = q.
Proof.
  intros Hq. unfold fmul. rewrite <- Hq at 2. apply round64_proper. ring.
Qed.

Lemma fdiv_1_r q : round64 q = q → fdiv q 1 = q.
Proof.
  intros Hq. unfold fdiv. rewrite <- Hq at 2. apply round64_proper.
  unfold Qdiv. change (/ 1) with 1. ring.
Qed.

Lemma fdiv_same q : ¬ q == 0 → fdiv q q = 1.
Proof.
  intros Hq. unfold fdiv. rewrite <- round64_1. apply round64_proper.
  by field.
Qed.

(** A quotient of two floats [0 <= a <= b], rounded, is in [0, 1]. *)
Lemma fdiv_unit a b : 0 <= a → a <= b → 0 < b → 0 <= fdiv a b ∧ fdiv a b <= 1.
Proof.
  intros Ha Hab Hb. apply round64_unit.
  - apply Qle_shift_div_l; [done|]. lra.
  - apply Qle_shift_div_r; [done|]. lra.
Qed.

Lemma is_float64_of_int z : is_float64 (of_int z).
Proof. apply of_Z_float. Qed.

(** [round64] gives binary64's conversion, division and addition on the
    quotients of counts up to 24, as the Standard Library's IEEE 754
    operations compute them. *)
Lemma round64_agrees_with_binary64 :
  forallb (λ a, forallb (λ b, forallb (λ c,
             agrees_with_binary64 (Z.of_nat a) (Z.of_nat b) (Z.of_nat c))
           [0; 1; 7]%nat) (seq 1%nat 24%nat)) (seq 0%nat 25%nat)
  = true.
Proof. vm_compute. reflexivity. Qed.

End Float64Facts.

Section TextFacts.
Import Text.

Lemma split_on_cons_inv sep s : ∃ t ts, split_on sep s = t :: ts.
Proof.
  destruct s as [|c s]; simpl; [by eauto|].
  destruct (sep c); [by eauto|]. destruct (split_on sep s); eauto.
Qed.

Lemma join_cons t t' ts : join (t :: t' :: ts) = (t ++ String " " (join (t' :: ts)))%string.
Proof. reflexivity. Qed.

Lemma is_sp_true c : is_sp c = true ↔ c = " "%char.
Proof. unfold is_sp. apply bool_decide_eq_true. Qed.

(** [" ".join(s.split(" ")) == s] *)
Lemma join_split_space s : join (split_space s) = s.
Proof.
  unfold split_space. induction s as [|c s IH]; [done|]. simpl.
  destruct (is_sp c) eqn:Hc.
  - apply is_sp_true in Hc as ->.
    destruct (split_on_cons_inv is_sp s) as (t & ts & Hs). rewrite Hs in *.
    rewrite join_cons. simpl. by rewrite IH.
  - destruct (split_on_cons_inv is_sp s) as (t & ts & Hs). rewrite Hs in *.
    destruct ts as [|t' ts]; unfold join in *; simpl in *; by rewrite <- IH.
Qed.

Lemma split_space_no_space s : Forall (λ t, has_space t = false) (split_space s).
Proof.
  unfold split_space. induction s as [|c s IH]; simpl.
  - by repeat constructor.
  - destruct (is_sp c) eqn:Hc; [by constructor|].
    destruct (split_on_cons_inv is_sp s) as (t & ts & Hs). rewrite Hs in *.
    inversion_clear IH. constructor; [|done]. simpl. by rewrite Hc.
Qed.

Lemma split_space_whole t : has_space t = false → split_space t = [t].
Proof.
  unfold split_space. induction t as [|c t IH]; simpl; [done|].
  intros [Hc Ht]%orb_false_iff. rewrite Hc, IH; done.
Qed.

Lemma split_space_app t s :
  has_space t = false →
  split_space (t ++ String " " s)%string = t :: split_space s.
Proof.
  unfold split_space. induction t as [|c t IH]; simpl; [done|].
  intros [Hc Ht]%orb_false_iff. by rewrite Hc, IH.
Qed.

(** [" ".join(ts).split(" ") == ts] for a non-empty list of space-free
    strings. *)
Lemma split_space_join ts :
  ts ≠ [] → Forall (λ t, has_space t = false) ts → split_space (join ts) = ts.
Proof.
  induction ts as [|t ts IH]; [done|]. intros _ Hts. inversion_clear Hts as [|?? Ht Hts'].
  destruct ts as [|t' ts]; [by apply split_space_whole|].
  rewrite join_cons, split_space_app by done. f_equal. by apply IH.
Qed.

Lemma join_inj_no_space ts1 ts2 :
  ts1 ≠ [] → ts2 ≠ [] →
  Forall (λ t, has_space t = false) ts1 → Forall (λ t, has_space t = false) ts2 →
  join ts1 = join ts2 → ts1 = ts2.
Proof.
  intros ?? H1 H2 E. rewrite <- (split_space_join ts1), <- (split_space_join ts2) by done.
  by rewrite E.
Qed.
End TextFacts.

Section NormalizerFacts.
Import Text Normalizer.
Variable stem : string → string.

Lemma foldl_snoc_fmap {A B} (f : A → B) (l : list A) (acc : list B) :
  foldl (λ acc x, acc ++ [f x]) acc l = acc ++ (f <$> l).
Proof.
  revert acc. induction l as [|x l IH]; intros acc; simpl.
  - by rewrite app_nil_r.
  - rewrite IH, <- app_assoc. done.
Qed.

Lemma stemLyrics_fmap lyrics_column stop_words :
  stemLyrics stem lyrics_column stop_words = stem_lyric stem stop_words <$> lyrics_column.
Proof. unfold stemLyrics. by rewrite foldl_snoc_fmap. Qed.

Lemma filter_all {A} (P : A → Prop) `{∀ x, Decision (P x)} (l : list A) :
  Forall P l → filter P l = l.
Proof.
  induction 1 as [|x l Hx _ IH]; [done|]. by rewrite filter_cons_True, IH.
Qed.

Lemma stem_lyric_all_filtered stop_words raw :
  Forall (λ word, lower word ∈ stop_words) (split_space raw) →
  stem_lyric stem stop_words raw = "".
Proof.
  intros Hall. unfold stem_lyric.
  replace (filter _ (split_space raw)) with (@nil string); [done|].
  symmetry. induction Hall as [|t ts Ht _ IH]; [done|].
  rewrite filter_cons_False; [done|]. by intros ?.
Qed.

Hypothesis stem_idem : ∀ w, stem (stem w) = stem w.
Hypothesis stem_empty : stem "" = "".
Hypothesis stem_no_space : ∀ w, has_space w = false → has_space (stem w) = false.

(** Normalising the join of stems of kept tokens gives it back. *)
Lemma stem_lyric_join_stems stop_words (kept : list string) :
  (∀ w, lower w ∉ stop_words → lower (stem w) ∉ stop_words) →
  Forall (λ w, has_space w = false ∧ lower w ∉ stop_words) kept →
  stem_lyric stem stop_words (join (stem <$> kept)) = join (stem <$> kept).
Proof.
  intros Hclosed Hkept. unfold stem_lyric. destruct kept as [|w kept'].
  - (* every token was a stop word: the string is empty *)
    change (split_space (join (stem <$> []))) with [""].
    destruct (decide (lower "" ∈ stop_words)) as [Hin|Hout].
    + by rewrite filter_cons_False by (by intros ?).
    + rewrite filter_cons_True by done. simpl. by rewrite stem_empty.
  - rewrite split_space_join.
    + f_equal. rewrite filter_all.
      * rewrite <- list_fmap_compose. apply list_fmap_ext. intros ???. simpl.
        apply stem_idem.
      * apply Forall_fmap. eapply Forall_impl; [exact Hkept|]. intros x [??]. simpl.
        by apply Hclosed.
    + done.
    + apply Forall_fmap. eapply Forall_impl; [exact Hkept|]. intros x [??]. simpl.
      by apply stem_no_space.
Qed.

End NormalizerFacts.

Section VectorizerFacts.
Import Text Vectorizer.

Lemma count_of_cons term t tokens :
  count_of term (t :: tokens)
  = (if decide (t = term) then 1 else 0) + count_of term tokens.
Proof.
  unfold count_of. destruct (decide (t = term)).
  - by rewrite filter_cons_True.
  - by rewrite filter_cons_False.
Qed.

Lemma sum_list_fmap_add {A} (f g : A → nat) (l : list A) :
  sum_list ((λ x, f x + g x) <$> l) = sum_list (f <$> l) + sum_list (g <$> l).
Proof. induction l as [|x l IH]; csimpl; lia. Qed.

Lemma sum_list_indicator (t : string) (vocabulary : list string) :
  NoDup vocabulary → t ∈ vocabulary →
  sum_list ((λ term, if decide (t = term) then 1 else 0) <$> vocabulary) = 1.
Proof.
  induction 1 as [|x l Hx Hnd IH]; [by intros ?%elem_of_nil|].
  intros [->|Hin]%elem_of_cons; simpl.
  - rewrite decide_True by done. f_equal.
    clear IH Hnd. induction l as [|y l IH]; [done|]. simpl.
    rewrite decide_False by (intros ->; set_solver).
    apply IH. set_solver.
  - rewrite decide_False by (intros ->; done). by apply IH.
Qed.

(** Over a duplicate-free vocabulary that contains every token, the
    counts add up to the number of tokens. *)
Lemma sum_counts (vocabulary tokens : list string) :
  NoDup vocabulary → tokens ⊆ vocabulary →
  sum_list ((λ term, count_of term tokens) <$> vocabulary) = length tokens.
Proof.
  intros Hnd. induction tokens as [|t tokens IH]; intros Hsub.
  - clear. induction vocabulary; simpl; [done|]. auto.
  - rewrite (list_fmap_ext _ (λ term, (if decide (t = term) then 1 else 0)
                                      + count_of term tokens) vocabulary)
      by (intros ???; apply count_of_cons).
    rewrite sum_list_fmap_add, sum_list_indicator, IH; [done|..]; set_solver.
Qed.

Lemma fit_vocabulary_NoDup raw_documents : NoDup (fit_vocabulary raw_documents).
Proof.
  unfold fit_vocabulary. rewrite merge_sort_Permutation. apply NoDup_remove_dups.
Qed.

Lemma elem_of_fit_vocabulary raw_documents term :
  term ∈ fit_vocabulary raw_documents
  ↔ ∃ doc, doc ∈ raw_documents ∧ term ∈ build_analyzer doc.
Proof.
  unfold fit_vocabulary.
  rewrite merge_sort_Permutation, elem_of_remove_dups, list_elem_of_join.
  split.
  - intros (l & Hterm & (doc & -> & Hdoc)%list_elem_of_fmap). eauto.
  - intros (doc & Hdoc & Hterm). exists (build_analyzer doc). split; [done|].
    apply list_elem_of_fmap. eauto.
Qed.

Lemma fit_transform_Ok raw_documents v vec :
  fit_transform raw_documents = Ok (v, vec) →
  vocabulary_ v = fit_vocabulary raw_documents ∧ vocabulary_ v ≠ []
  ∧ vec = transform_row v <$> raw_documents.
Proof.
  unfold fit_transform. destruct (fit_vocabulary raw_documents) as [|t ts] eqn:E; [done|].
  intros [= <- <-]. done.
Qed.

Lemma fit_transform_no_tokens raw_documents :
  Forall (λ doc, build_analyzer doc = []) raw_documents →
  fit_transform raw_documents = Raise (ValueError EmptyVocabulary).
Proof.
  intros Hall. unfold fit_transform.
  destruct (fit_vocabulary raw_documents) as [|t ts] eqn:E; [done|].
  assert (t ∈ fit_vocabulary raw_documents) as (doc & Hdoc & Ht)%elem_of_fit_vocabulary
    by (rewrite E; set_solver).
  rewrite Forall_forall in Hall. rewrite (Hall _ Hdoc) in Ht. by apply elem_of_nil in Ht.
Qed.

Lemma transform_row_sum raw_documents v vec doc :
  fit_transform raw_documents = Ok (v, vec) → doc ∈ raw_documents →
  sum_list (transform_row v doc) = length (build_analyzer doc).
Proof.
  intros (Hv & _ & _)%fit_transform_Ok Hdoc. unfold transform_row. rewrite Hv.
  apply sum_counts; [apply fit_vocabulary_NoDup|].
  intros t Ht. apply elem_of_fit_vocabulary; eauto.
Qed.
End VectorizerFacts.

Section HoareRules.
Import Py Hoare.
Local Open Scope py_scope.

Lemma run_bind {A B} (m : M A) (k : A → M B) w :
  run (bind m k) w = match run m w with
                     | (Ok a, w') => run (k a) w'
                     | (Raise e, w') => (Raise e, w')
                     end.
Proof. reflexivity. Qed.

Lemma run_bind_Ok {A B} (m : M A) (k : A → M B) w a w' :
  run m w = (Ok a, w') → run (bind m k) w = run (k a) w'.
Proof. intros H. by rewrite run_bind, H. Qed.

Lemma hoare_bind {A B} P (m : M A) (k : A → M B) Q1 Q :
  hoare P m Q1 →
  (∀ a, hoare (Q1 (Ok a)) (k a) Q) →
  (∀ e w, Q1 (Raise e) w → Q (Raise e) w) →
  hoare P (bind m k) Q.
Proof.
  intros Hm Hk He w Hw. specialize (Hm w Hw). rewrite run_bind.
  destruct (run m w) as [[a|e] w']; simpl in *.
  - by apply Hk.
  - by apply He.
Qed.

(** Loops, with an invariant over the elements already visited. *)
Lemma hoare_for_each {A} (I : list A → World → Prop) (xs : list A)
    (body : A → M unit) (Q : res unit → World → Prop) :
  (∀ done x rest, xs = done ++ x :: rest →
     hoare (I done) (body x)
           (λ r w, match r with
                   | Ok _ => I (done ++ [x]) w
                   | Raise e => Q (Raise e) w
                   end)) →
  (∀ w, I xs w → Q (Ok tt) w) →
  hoare (I []) (for_each xs body) Q.
Proof.
  intros Hbody Hexit.
  cut (∀ rest done, xs = done ++ rest → hoare (I done) (for_each rest body) Q).
  { intros H. by apply (H xs []). }
  induction rest as [|x rest IH]; intros done Hxs.
  - rewrite app_nil_r in Hxs. subst. intros w Hw. by apply Hexit.
  - simpl. eapply hoare_bind.
    + by apply (Hbody done x rest).
    + intros []. apply IH. by rewrite <- app_assoc.
    + done.
Qed.

End HoareRules.

Section FrameRules.
Import Py Hoare.
Local Open Scope py_scope.
Variable h0 : gmap loc obj.

Lemma frames_ret {A} (a : A) (Q : A → Prop) : Q a → frames h0 (ret a) Q.
Proof. intros HQ w Hw. done. Qed.

Lemma frames_raise {A} e (Q : A → Prop) : frames h0 (raise e) Q.
Proof. intros w Hw. done. Qed.

Lemma frames_bind {A B} (m : M A) (k : A → M B) Q1 Q :
  frames h0 m Q1 → (∀ a, Q1 a → frames h0 (k a) Q) → frames h0 (bind m k) Q.
Proof.
  intros Hm Hk. unfold frames.
  eapply hoare_bind; [exact Hm| |].
  - intros a w [Hw Ha]. by apply Hk.
  - intros e w [Hw _]. done.
Qed.

Lemma frames_lift {A} (r : res A) : frames h0 (lift r) any.
Proof. destruct r; [by apply frames_ret|apply frames_raise]. Qed.

Lemma frames_index {A} (xs : list A) i : frames h0 (index xs i) any.
Proof. unfold index. destruct (xs !! i); [by apply frames_ret|apply frames_raise]. Qed.

Lemma frames_for_each {A} (xs : list A) (body : A → M unit) :
  (∀ x, frames h0 (body x) any) → frames h0 (for_each xs body) any.
Proof.
  intros Hbody. induction xs as [|x xs IH]; simpl.
  - by apply frames_ret.
  - eapply frames_bind; [apply Hbody|done].
Qed.

Lemma frames_comprehension {A B} (f : A → M B) (xs : list A) :
  (∀ x, frames h0 (f x) any) → frames h0 (comprehension f xs) any.
Proof.
  intros Hf. induction xs as [|x xs IH]; simpl.
  - by apply frames_ret.
  - eapply frames_bind; [apply Hf|]. intros b _.
    eapply frames_bind; [apply IH|]. intros bs _. by apply frames_ret.
Qed.

(** A new object never takes the address of an old one. *)
Lemma frames_alloc o : frames h0 (alloc o) (λ l, h0 !! l = None).
Proof.
  intros w Hw. simpl.
  assert (Hfresh : heap w !! fresh (dom (heap w)) = None)
    by apply not_elem_of_dom, is_fresh.
  assert (Hnew : h0 !! fresh (dom (heap w)) = None).
  { destruct (h0 !! fresh (dom (heap w))) eqn:E; [|done].
    eapply lookup_weaken in E; [|exact Hw]. congruence. }
  split; [|done]. by apply insert_subseteq_r.
Qed.

Lemma frames_dict_read d : frames h0 (dict_read d) any.
Proof.
  intros w Hw. unfold run, dict_read. by destruct (heap w !! d) as [[]|].
Qed.

Lemma frames_list_read l : frames h0 (list_read l) any.
Proof.
  intros w Hw. unfold run, list_read. by destruct (heap w !! l) as [[]|].
Qed.

(** Writing to an address outside [h0] leaves [h0] alone. *)
Lemma frames_store l o : h0 !! l = None → frames h0 (store l o) any.
Proof. intros Hl w Hw. simpl. split; [|done]. by apply insert_subseteq_r. Qed.

Lemma frames_dict_setitem d k v : h0 !! d = None → frames h0 (dict_setitem d k v) any.
Proof.
  intros Hd. eapply frames_bind; [apply frames_dict_read|].
  intros m _. by apply frames_store.
Qed.

Lemma frames_dict_getitem d k : frames h0 (dict_getitem d k) any.
Proof.
  eapply frames_bind; [apply frames_dict_read|]. intros m _.
  destruct (m !! k); [by apply frames_ret|apply frames_raise].
Qed.

Lemma frames_dict_delitem d k : h0 !! d = None → frames h0 (dict_delitem d k) any.
Proof.
  intros Hd. eapply frames_bind; [apply frames_dict_read|]. intros m _.
  destruct (m !! k); [by apply frames_store|apply frames_raise].
Qed.

Lemma frames_dict_keys d : frames h0 (dict_keys d) any.
Proof.
  eapply frames_bind; [apply frames_dict_read|]. intros m _. by apply frames_ret.
Qed.

Lemma frames_dict_copy d : frames h0 (dict_copy d) (λ l, h0 !! l = None).
Proof.
  eapply frames_bind; [apply frames_dict_read|]. intros m _. apply frames_alloc.
Qed.

Lemma frames_list_append l x : h0 !! l = None → frames h0 (list_append l x) any.
Proof.
  intros Hl. eapply frames_bind; [apply frames_list_read|].
  intros xs _. by apply frames_store.
Qed.

Lemma frames_print label v : frames h0 (print label v) any.
Proof. intros w Hw. done. Qed.

Lemma frames_plot cm labels : frames h0 (plot cm labels) any.
Proof. intros w Hw. done. Qed.

(** The reduction loop of cell 13 writes to the dictionaries and the list
    it creates, and to nothing else. *)
Lemma select_informative_frames top featuresets :
  frames h0 (Featuresets.select_informative top featuresets) any.
Proof.
  unfold Featuresets.select_informative.
  eapply frames_bind; [apply frames_alloc|]. intros out Hout.
  eapply frames_bind; [apply frames_list_read|]. intros pairs _.
  eapply frames_bind; [|intros; by apply frames_ret].
  apply frames_for_each. intros [featureDict isExplicit].
  eapply frames_bind; [apply frames_alloc|]. intros new Hnew.
  eapply frames_bind; [apply frames_dict_keys|]. intros keys _.
  eapply frames_bind; [|intros; by apply frames_list_append].
  apply frames_for_each. intros word. case_bool_decide; [|by apply frames_ret].
  eapply frames_bind; [apply frames_dict_getitem|]. intros c _.
  by apply frames_dict_setitem.
Qed.

Section NaiveBayes.
Import NaiveBayes.
Variable rng_permutation : nat → nat → list nat.
Variable posterior_argmax : list (gmap string nat * bool) → gmap string nat → bool.
Variable render_ok : list (list nat) → list string → bool.

Lemma frames_rng_draw n : frames h0 (rng_draw rng_permutation n) any.
Proof. intros w Hw. done. Qed.

Lemma train_test_split_frames featuresets :
  frames h0 (train_test_split rng_permutation featuresets) any.
Proof.
  unfold train_test_split.
  eapply frames_bind; [apply frames_list_read|]. intros array _.
  destruct (_ =? 0); [apply frames_raise|].
  eapply frames_bind; [apply frames_rng_draw|]. intros perm _.
  eapply frames_bind; [apply frames_comprehension, frames_index|]. intros tr _.
  eapply frames_bind; [apply frames_comprehension, frames_index|]. intros te _.
  by apply frames_ret.
Qed.

Lemma train_frames trainSet : frames h0 (train trainSet) any.
Proof.
  unfold train. eapply frames_bind; [|intros; by apply frames_ret].
  apply frames_comprehension. intros [d label].
  eapply frames_bind; [apply frames_dict_read|]. intros; by apply frames_ret.
Qed.

(** [classify] deletes unseen names, but from its private copy. *)
Lemma classify_frames classifier features :
  frames h0 (classify posterior_argmax classifier features) any.
Proof.
  unfold classify.
  eapply frames_bind; [apply frames_dict_copy|]. intros copy Hcopy.
  eapply frames_bind; [apply frames_dict_keys|]. intros fnames _.
  eapply frames_bind.
  - apply frames_for_each. intros fname.
    destruct (known_fname classifier fname); [by apply frames_ret|].
    by apply frames_dict_delitem.
  - intros _ _. eapply frames_bind; [apply frames_dict_read|].
    intros; by apply frames_ret.
Qed.

Lemma column_frames {A} testSet (proj : loc * bool → A) :
  frames h0 (column testSet proj) any.
Proof. destruct testSet; [apply frames_raise|by apply frames_ret]. Qed.

Lemma naive_bayes_frames featuresets printMetrics showConfusionMatrix :
  frames h0 (naive_bayes rng_permutation posterior_argmax render_ok
                         featuresets printMetrics showConfusionMatrix) any.
Proof.
  unfold naive_bayes.
  eapply frames_bind; [apply train_test_split_frames|]. intros [trainSet testSet] _.
  eapply frames_bind; [apply train_frames|]. intros classifier _.
  eapply frames_bind; [apply column_frames|]. intros testY _.
  eapply frames_bind; [apply column_frames|]. intros test_features _.
  eapply frames_bind; [apply frames_comprehension, classify_frames|]. intros predictY _.
  eapply frames_bind; [apply frames_lift|]. intros [[[p r] f] s] _.
  apply (frames_bind _ _ any).
  { destruct printMetrics; [|by apply frames_ret].
    apply frames_for_each. intros metric.
    apply (frames_bind _ _ any); [|intros; apply frames_print].
    unfold md_getitem.
    destruct (md_lookup _ _); [by apply frames_ret|apply frames_raise]. }
  intros _ _. apply (frames_bind _ _ any); [|intros; by apply frames_ret].
  destruct showConfusionMatrix; [|by apply frames_ret].
  destruct (render_ok _ _); [apply frames_plot|apply frames_raise].
Qed.
End NaiveBayes.
End FrameRules.

Section RunEquations.
Import Py Hoare.
Local Open Scope py_scope.

Lemma run_dict_read d m w :
  heap w !! d = Some (ODict m) → run (dict_read d) w = (Ok m, w).
Proof. intros H. unfold run, dict_read. by rewrite H. Qed.

Lemma run_list_read l xs w :
  heap w !! l = Some (OList xs) → run (list_read l) w = (Ok xs, w).
Proof. intros H. unfold run, list_read. by rewrite H. Qed.

Lemma run_dict_setitem d k v m w :
  heap w !! d = Some (ODict m) →
  run (dict_setitem d k v) w
  = (Ok tt, set_heap (<[d := ODict (<[k := v]> m)]> (heap w)) w).
Proof.
  intros H. unfold dict_setitem. by erewrite run_bind_Ok by by apply run_dict_read.
Qed.

Lemma run_dict_getitem d k v m w :
  heap w !! d = Some (ODict m) → m !! k = Some v →
  run (dict_getitem d k) w = (Ok v, w).
Proof.
  intros H Hk. unfold dict_getitem.
  erewrite run_bind_Ok by by apply run_dict_read. by rewrite Hk.
Qed.

Lemma run_dict_delitem d k v m w :
  heap w !! d = Some (ODict m) → m !! k = Some v →
  run (dict_delitem d k) w
  = (Ok tt, set_heap (<[d := ODict (delete k m)]> (heap w)) w).
Proof.
  intros H Hk. unfold dict_delitem.
  erewrite run_bind_Ok by by apply run_dict_read. by rewrite Hk.
Qed.

Lemma run_dict_keys d m w :
  heap w !! d = Some (ODict m) → run (dict_keys d) w = (Ok (map_to_list m).*1, w).
Proof.
  intros H. unfold dict_keys. by erewrite run_bind_Ok by by apply run_dict_read.
Qed.

Lemma run_list_append l x xs w :
  heap w !! l = Some (OList xs) →
  run (list_append l x) w
  = (Ok tt, set_heap (<[l := OList (xs ++ [x])]> (heap w)) w).
Proof.
  intros H. unfold list_append. by erewrite run_bind_Ok by by apply run_list_read.
Qed.

Lemma run_index {A} (xs : list A) i x w :
  xs !! i = Some x → run (index xs i) w = (Ok x, w).
Proof. intros H. unfold index. by rewrite H. Qed.

Lemma fresh_lookup_None (h : gmap loc obj) : h !! fresh (dom h) = None.
Proof. apply not_elem_of_dom, is_fresh. Qed.

(** A loop whose body always returns and keeps an invariant returns, with
    the invariant over the whole list. *)
Lemma run_for_each {A} (I : list A → World → Prop) (xs : list A)
    (body : A → M unit) w :
  I [] w →
  (∀ done x rest w, xs = done ++ x :: rest → I done w →
     ∃ w', run (body x) w = (Ok tt, w') ∧ I (done ++ [x]) w') →
  ∃ w', run (for_each xs body) w = (Ok tt, w') ∧ I xs w'.
Proof.
  intros H0 Hbody.
  pose proof (hoare_for_each I xs body
                (λ r w', r = Ok tt ∧ I xs w')) as H.
  destruct (run (for_each xs body) w) as [r w'] eqn:E.
  specialize (λ H1 H2, H H1 H2 w H0). rewrite E in H. simpl in H.
  destruct H as [-> ?]; [| |by eauto].
  - intros done x rest Hxs w1 Hw1.
    destruct (Hbody done x rest w1 Hxs Hw1) as (w2 & -> & ?). done.
  - done.
Qed.
End RunEquations.

Section SelectFacts.
Import Py Hoare Featuresets.
Local Open Scope py_scope.

Lemma restrict_lookup names m k :
  restrict names m !! k = if decide (k ∈ names) then m !! k else None.
Proof.
  unfold restrict. destruct (decide (k ∈ names)) as [Hin|Hout].
  - destruct (m !! k) as [v|] eqn:E.
    + by apply map_lookup_filter_Some.
    + apply map_lookup_filter_None. by left.
  - apply map_lookup_filter_None. right. intros v _. done.
Qed.

Lemma size_list_to_set_le (l : list string) :
  size (list_to_set (C := gset string) l) ≤ length l.
Proof.
  induction l as [|x l IH]; simpl; [done|].
  destruct (decide (x ∈ (list_to_set l : gset string))) as [Hin|Hout].
  - replace ({[x]} ∪ list_to_set l) with (list_to_set l : gset string) by set_solver. lia.
  - rewrite size_union by set_solver. rewrite size_singleton. lia.
Qed.

Lemma restrict_size names m : size (restrict names m) ≤ length names.
Proof.
  rewrite <- size_dom. etransitivity; [|apply size_list_to_set_le].
  apply subseteq_size. intros k [v Hk]%elem_of_dom.
  rewrite restrict_lookup in Hk. case_decide; [|done]. by apply elem_of_list_to_set.
Qed.

Lemma elem_of_keys (m : gmap string nat) k :
  k ∈ (map_to_list m).*1 ↔ is_Some (m !! k).
Proof.
  rewrite list_elem_of_fmap. split.
  - intros ([k' v] & -> & Hkv%elem_of_map_to_list). eauto.
  - intros [v Hv]. exists (k, v). split; [done|]. by apply elem_of_map_to_list.
Qed.

(** The inner loop of cell 13 fills the new dictionary with the entries of
    the old one whose key is listed. *)
Lemma run_select_inner names d new m hb w :
  heap w = <[new := ODict ∅]> hb → hb !! d = Some (ODict m) → hb !! new = None →
  ∃ w', run (for_each (map_to_list m).*1 (λ word,
               if bool_decide (word ∈ names) then
                 let* count := dict_getitem d word in
                 dict_setitem new word count
               else ret tt)) w = (Ok tt, w')
        ∧ heap w' = <[new := ODict (restrict names m)]> hb.
Proof.
  intros Hw Hd Hnew.
  assert (Hne : d ≠ new) by (intros ->; congruence).
  edestruct (run_for_each
    (λ done w, ∃ acc, heap w = <[new := ODict acc]> hb
               ∧ ∀ k, acc !! k = if decide (k ∈ done ∧ k ∈ names)
                                 then m !! k else None)) as (w' & Hrun & acc & Hw' & Hacc);
    [| |exists w'; split; [exact Hrun|] ].
  - exists ∅. split; [done|]. intros k. rewrite lookup_empty.
    rewrite decide_False; [done|]. intros [[]%elem_of_nil _].
  - intros done word rest w1 Hxs (acc & Hw1 & Hacc).
    assert (is_Some (m !! word)) as [c Hc].
    { apply elem_of_keys. rewrite Hxs. set_solver. }
    case_bool_decide as Hin.
    + erewrite run_bind_Ok; cycle 1.
      { apply (run_dict_getitem _ _ c m); [|done].
        by rewrite Hw1, lookup_insert_ne. }
      erewrite run_dict_setitem; cycle 1.
      { by rewrite Hw1, lookup_insert_eq. }
      eexists. split; [done|]. exists (<[word := c]> acc). simpl. split.
      { by rewrite Hw1, insert_insert_eq. }
      intros k. destruct (decide (k = word)) as [->|Hk].
      * rewrite lookup_insert_eq, decide_True; [done|]. set_solver.
      * rewrite lookup_insert_ne, Hacc by done.
        apply decide_ext. set_solver.
    + eexists. split; [done|]. exists acc. split; [done|].
      intros k. rewrite Hacc. apply decide_ext. set_solver.
  - rewrite Hw'. do 2 f_equal. apply map_eq. intros k.
    rewrite Hacc, restrict_lookup.
    destruct (decide (k ∈ names)) as [Hin|Hout].
    + destruct (m !! k) as [v|] eqn:E.
      * rewrite decide_True; [done|]. split; [|done]. apply elem_of_keys. eauto.
      * by case_decide.
    + rewrite decide_False; [done|]. by intros [_ ?].
Qed.

Lemma deref_Some h pair x :
  deref h pair = Some x ↔ ∃ m, h !! pair.1 = Some (ODict m) ∧ x = (m, pair.2).
Proof.
  unfold deref. destruct (h !! pair.1) as [[m|l]|]; naive_solver.
Qed.

Lemma deref_insert_ne h l o pair x :
  deref h pair = Some x → l ≠ pair.1 → deref (<[l := o]> h) pair = Some x.
Proof. unfold deref. intros H Hne. by rewrite lookup_insert_ne. Qed.

Lemma deref_weaken h h' pair x :
  h ⊆ h' → deref h pair = Some x → deref h' pair = Some x.
Proof.
  intros Hsub (m & Hm & ->)%deref_Some. apply deref_Some. exists m.
  split; [|done]. by eapply lookup_weaken.
Qed.

Lemma contents_weaken h h' l fs :
  h ⊆ h' → contents h l = Some fs → contents h' l = Some fs.
Proof.
  unfold contents. intros Hsub H.
  destruct (h !! l) as [[m|pairs]|] eqn:E; try done.
  rewrite (lookup_weaken _ _ _ _ E Hsub).
  apply mapM_Some in H. apply mapM_Some.
  eapply Forall2_impl; [exact H|]. intros p x. by apply deref_weaken.
Qed.

(** Cell 13 returns a new list with, for each pair of the input in order,
    a new dictionary holding the listed entries of the old one, and the
    same label. *)
Lemma run_select_informative names featuresets w fs :
  contents (heap w) featuresets = Some fs →
  ∃ out w', run (select_informative names featuresets) w = (Ok out, w')
            ∧ heap w ⊆ heap w'
            ∧ contents (heap w') out
              = Some ((λ x, (restrict names x.1, x.2)) <$> fs).
Proof.
  unfold contents. intros Hfs.
  destruct (heap w !! featuresets) as [[?|pairs]|] eqn:HL; try done.
  apply mapM_Some in Hfs.
  unfold select_informative. rewrite run_bind. simpl.
  set (out := fresh (dom (heap w))).
  assert (Hout : heap w !! out = None) by apply fresh_lookup_None.
  set (w1 := set_heap _ w).
  erewrite run_bind_Ok; cycle 1.
  { apply (run_list_read _ pairs). simpl. rewrite lookup_insert_ne; [done|]. congruence. }
  edestruct (run_for_each
    (λ done w', heap w ⊆ heap w' ∧ ∃ outs,
       heap w' !! out = Some (OList outs)
       ∧ Forall2 (λ q x, deref (heap w') q = Some (restrict names x.1, x.2))
                 outs (take (length done) fs)) pairs) as (w' & Hrun & Hsub & outs & Ho & Hall);
    [| |rewrite run_bind, Hrun; exists out, w'; split; [done|split; [done|] ] ].
  - split; [by apply insert_subseteq_r|]. exists []. simpl. rewrite lookup_insert_eq.
    split; [done|]. rewrite take_0. constructor.
  - intros done [d label] rest w2 Hxs (Hsub & outs & Ho & Hall).
    assert (pairs !! length done = Some (d, label)) as Hd.
    { rewrite Hxs. by apply list_lookup_middle. }
    destruct (Forall2_lookup_l _ _ _ _ _ Hfs Hd) as (x & Hx & Hderef).
    apply deref_Some in Hderef as (m & Hm & ->). simpl in *.
    rewrite run_bind. simpl.
    set (new := fresh (dom (heap w2))).
    assert (Hnew : heap w2 !! new = None) by apply fresh_lookup_None.
    assert (Hm2 : heap w2 !! d = Some (ODict m)) by (by eapply lookup_weaken).
    assert (d ≠ new) by congruence. assert (out ≠ new) by congruence.
    erewrite run_bind_Ok; cycle 1.
    { apply (run_dict_keys _ m). simpl. by rewrite lookup_insert_ne. }
    destruct (run_select_inner names d new m (heap w2) (set_heap (<[new:=ODict ∅]> (heap w2)) w2))
      as (w3 & Hrun3 & Hw3); [done..|].
    rewrite run_bind, Hrun3.
    erewrite run_list_append; cycle 1.
    { rewrite Hw3, lookup_insert_ne by done. exact Ho. }
    eexists. split; [done|]. simpl. rewrite Hw3. split.
    { apply insert_subseteq_r; [done|]. apply insert_subseteq_r; [|done].
      destruct (heap w !! new) eqn:E; [|done].
      eapply lookup_weaken in E; [|exact Hsub]. congruence. }
    exists (outs ++ [(new, label)]). rewrite lookup_insert_eq. split; [done|].
    rewrite length_app. simpl. rewrite Nat.add_1_r.
    rewrite (take_S_r _ _ _ Hx). apply Forall2_app.
    + eapply Forall2_impl; [exact Hall|]. intros q x Hq.
      pose proof Hq as (mq & Hmq & _)%deref_Some.
      apply deref_insert_ne; [|congruence]. apply deref_insert_ne; [done|congruence].
    + constructor; [|constructor]. apply deref_Some. exists (restrict names m).
      simpl. rewrite lookup_insert_ne, lookup_insert_eq by done. done.
  - rewrite Ho. apply mapM_Some. apply Forall2_fmap_r.
    rewrite take_ge in Hall; [done|].
    by rewrite (Forall2_length _ _ _ Hfs).
Qed.
End SelectFacts.

Section BuildFacts.
Import Py Hoare Featuresets.
Local Open Scope py_scope.

Lemma seq_middle n done (x : nat) rest :
  seq 0 n = done ++ x :: rest → x = length done ∧ x < n.
Proof.
  intros H. assert (seq 0 n !! length done = Some x) as Hx.
  { rewrite H. by apply list_lookup_middle. }
  apply lookup_seq in Hx. lia.
Qed.

Lemma feature_map_lookup words row j word :
  NoDup words → length words ≤ length row →
  words !! j = Some word → feature_map words row !! word = row !! j.
Proof.
  intros Hnd Hlen Hj.
  assert (is_Some (row !! j)) as [c Hc].
  { apply lookup_lt_is_Some. apply lookup_lt_Some in Hj. lia. }
  rewrite Hc. unfold feature_map. apply elem_of_list_to_map_1.
  - by rewrite fst_zip.
  - apply list_elem_of_lookup. exists j. rewrite lookup_zip_with, Hj. simpl. by rewrite Hc.
Qed.

Lemma feature_map_lookup_None words row k :
  k ∉ words → feature_map words row !! k = None.
Proof.
  intros Hk. unfold feature_map. apply not_elem_of_list_to_map_1.
  intros Hin. apply Hk. apply list_elem_of_fmap in Hin as ([k' c] & -> & Hin).
  apply elem_of_zip_l in Hin. done.
Qed.

Lemma feature_map_dom words row :
  length words ≤ length row →
  dom (feature_map words row) = list_to_set words.
Proof.
  intros Hlen. unfold feature_map. rewrite dom_list_to_map_L. by rewrite fst_zip.
Qed.

Lemma feature_map_size words row :
  NoDup words → length words ≤ length row →
  size (feature_map words row) = length words.
Proof.
  intros Hnd Hlen. rewrite <- size_dom, feature_map_dom by done.
  by apply size_list_to_set.
Qed.

(** The inner loop of cell 7 fills the new dictionary with one entry per
    word. *)
Lemma run_build_inner words vectorized_lyrics i row d hb w :
  NoDup words → length words ≤ length row →
  vectorized_lyrics !! i = Some row →
  heap w = <[d := ODict ∅]> hb →
  ∃ w', run (for_each (seq 0 (length words)) (λ j,
               let* row := index vectorized_lyrics i in
               let* count := index row j in
               let* word := index words j in
               dict_setitem d word count)) w = (Ok tt, w')
        ∧ heap w' = <[d := ODict (feature_map words row)]> hb.
Proof.
  intros Hnd Hlen Hrow Hw.
  edestruct (run_for_each
    (λ (done : list nat) w, ∃ acc, heap w = <[d := ODict acc]> hb
               ∧ ∀ k, acc !! k = if decide (k ∈ take (length done) words)
                                 then feature_map words row !! k else None))
    as (w' & Hrun & acc & Hw' & Hacc);
    [| |exists w'; split; [exact Hrun|] ].
  - exists ∅. split; [done|]. intros k. rewrite lookup_empty, take_0.
    rewrite decide_False; [done|]. by intros ?%elem_of_nil.
  - intros done j rest w1 Hxs (acc & Hw1 & Hacc).
    apply seq_middle in Hxs as [-> Hj].
    assert (is_Some (words !! length done)) as [word Hword] by by apply lookup_lt_is_Some.
    assert (is_Some (row !! length done)) as [c Hc] by (apply lookup_lt_is_Some; lia).
    erewrite run_bind_Ok by by apply run_index.
    erewrite run_bind_Ok by by apply run_index.
    erewrite run_bind_Ok by by apply run_index.
    erewrite run_dict_setitem by by rewrite Hw1, lookup_insert_eq.
    eexists. split; [done|]. exists (<[word := c]> acc). simpl. split.
    { by rewrite Hw1, insert_insert_eq. }
    intros k. rewrite length_app. simpl. rewrite Nat.add_1_r.
    rewrite (take_S_r _ _ _ Hword).
    destruct (decide (k = word)) as [->|Hk].
    + rewrite lookup_insert_eq, decide_True by set_solver.
      by rewrite (feature_map_lookup _ _ _ _ Hnd Hlen Hword).
    + rewrite lookup_insert_ne, Hacc by done. apply decide_ext. set_solver.
  - rewrite Hw'. do 2 f_equal. apply map_eq. intros k. rewrite Hacc.
    rewrite length_seq, firstn_all. case_decide; [done|].
    by rewrite feature_map_lookup_None.
Qed.

(** Cell 7 returns a list with one pair per label, in order: a new
    dictionary with the row's counts, and the label. *)
Lemma run_build_featuresets words vectorized_lyrics y w :
  NoDup words →
  Forall (λ row, length words ≤ length row) vectorized_lyrics →
  length y ≤ length vectorized_lyrics →
  ∃ out w', run (build_featuresets words vectorized_lyrics y) w = (Ok out, w')
            ∧ heap w ⊆ heap w'
            ∧ contents (heap w') out
              = Some (zip_with (λ row label, (feature_map words row, label))
                               vectorized_lyrics y).
Proof.
  intros Hnd Hrows Hlen.
  set (target := zip_with (λ row label, (feature_map words row, label))
                          vectorized_lyrics y).
  unfold build_featuresets. rewrite run_bind. simpl.
  set (out := fresh (dom (heap w))).
  assert (Hout : heap w !! out = None) by apply fresh_lookup_None.
  edestruct (run_for_each
    (λ (done : list nat) w', heap w ⊆ heap w' ∧ ∃ outs,
       heap w' !! out = Some (OList outs)
       ∧ Forall2 (λ q x, deref (heap w') q = Some x)
                 outs (take (length done) target)) (seq 0 (length y)))
    as (w' & Hrun & Hsub & outs & Ho & Hall);
    [| |rewrite run_bind, Hrun; exists out, w'; split; [done|split; [done|] ] ].
  - split; [by apply insert_subseteq_r|]. exists []. simpl. rewrite lookup_insert_eq.
    split; [done|]. rewrite take_0. constructor.
  - intros done i rest w2 Hxs (Hsub & outs & Ho & Hall).
    apply seq_middle in Hxs as [-> Hi].
    assert (is_Some (y !! length done)) as [label Hlabel] by by apply lookup_lt_is_Some.
    assert (is_Some (vectorized_lyrics !! length done)) as [row Hrow]
      by (apply lookup_lt_is_Some; lia).
    assert (length words ≤ length row) as Hlenrow.
    { rewrite Forall_forall in Hrows. apply Hrows. by eapply list_elem_of_lookup_2. }
    rewrite run_bind. simpl.
    set (new := fresh (dom (heap w2))).
    assert (Hnew : heap w2 !! new = None) by apply fresh_lookup_None.
    assert (out ≠ new) by congruence.
    destruct (run_build_inner words vectorized_lyrics (length done) row new (heap w2)
                (set_heap (<[new:=ODict ∅]> (heap w2)) w2))
      as (w3 & Hrun3 & Hw3); [done..|].
    rewrite run_bind, Hrun3.
    erewrite run_bind_Ok by by apply run_index.
    erewrite run_list_append; cycle 1.
    { rewrite Hw3, lookup_insert_ne by done. exact Ho. }
    eexists. split; [done|]. simpl. rewrite Hw3. split.
    { apply insert_subseteq_r; [done|]. apply insert_subseteq_r; [|done].
      destruct (heap w !! new) eqn:E; [|done].
      eapply lookup_weaken in E; [|exact Hsub]. congruence. }
    exists (outs ++ [(new, label)]). rewrite lookup_insert_eq. split; [done|].
    rewrite length_app. simpl. rewrite Nat.add_1_r.
    assert (target !! length done = Some (feature_map words row, label)) as Ht.
    { unfold target. rewrite lookup_zip_with, Hrow. simpl. by rewrite Hlabel. }
    rewrite (take_S_r _ _ _ Ht). apply Forall2_app.
    + eapply Forall2_impl; [exact Hall|]. intros q x Hq.
      pose proof Hq as (mq & Hmq & _)%deref_Some.
      apply deref_insert_ne; [|congruence]. apply deref_insert_ne; [done|congruence].
    + constructor; [|constructor]. apply deref_Some. exists (feature_map words row).
      simpl. rewrite lookup_insert_ne, lookup_insert_eq by done. done.
  - unfold contents. rewrite Ho. apply mapM_Some.
    rewrite take_ge in Hall; [done|].
    unfold target. rewrite length_zip_with, length_seq. lia.
Qed.
End BuildFacts.

Section RaisesOnly.
Import Py Hoare.
Local Open Scope py_scope.
Variable E : exn → Prop.

Lemma raises_only_ret {A} (a : A) : raises_only E (ret a).
Proof. by intros w _. Qed.

Lemma raises_only_raise {A} e : E e → raises_only E (raise (A := A) e).
Proof. by intros He w _. Qed.

Lemma raises_only_bind {A B} (m : M A) (k : A → M B) :
  raises_only E m → (∀ a, raises_only E (k a)) → raises_only E (bind m k).
Proof.
  intros Hm Hk. eapply hoare_bind; [exact Hm| |done].
  intros a w _. by apply Hk.
Qed.

Lemma raises_only_lift {A} (r : res A) :
  (∀ e, r = Raise e → E e) → raises_only E (lift r).
Proof. intros H. destruct r; [apply raises_only_ret|apply raises_only_raise; auto]. Qed.

Lemma raises_only_for_each {A} (xs : list A) (body : A → M unit) :
  (∀ x, raises_only E (body x)) → raises_only E (for_each xs body).
Proof.
  intros Hbody. induction xs as [|x xs IH]; simpl.
  - apply raises_only_ret.
  - by apply raises_only_bind.
Qed.

Lemma raises_only_comprehension {A B} (f : A → M B) (xs : list A) :
  (∀ x, raises_only E (f x)) → raises_only E (comprehension f xs).
Proof.
  intros Hf. induction xs as [|x xs IH]; simpl.
  - apply raises_only_ret.
  - apply raises_only_bind; [done|]. intros b.
    apply raises_only_bind; [done|]. intros bs. apply raises_only_ret.
Qed.
End RaisesOnly.

Section NoZeroDivision.
Import Py Hoare NaiveBayes.
Local Open Scope py_scope.

Lemma nz_index {A} (xs : list A) i : raises_only not_zde (index xs i).
Proof. unfold index. destruct (xs !! i); [apply raises_only_ret|by apply raises_only_raise]. Qed.

Lemma nz_dict_read d : raises_only not_zde (dict_read d).
Proof. intros w _. unfold run, dict_read. by destruct (heap w !! d) as [[]|]. Qed.

Lemma nz_list_read l : raises_only not_zde (list_read l).
Proof. intros w _. unfold run, list_read. by destruct (heap w !! l) as [[]|]. Qed.

Lemma nz_store l o : raises_only not_zde (store l o).
Proof. by intros w _. Qed.

Lemma nz_alloc o : raises_only not_zde (alloc o).
Proof. by intros w _. Qed.

Lemma nz_print label v : raises_only not_zde (print label v).
Proof. by intros w _. Qed.

Lemma nz_plot cm labels : raises_only not_zde (plot cm labels).
Proof. by intros w _. Qed.

Lemma nz_md_getitem d k : raises_only not_zde (md_getitem d k).
Proof.
  unfold md_getitem. destruct (md_lookup d k); [apply raises_only_ret|by apply raises_only_raise].
Qed.

Variable rng_permutation : nat → nat → list nat.
Variable posterior_argmax : list (gmap string nat * bool) → gmap string nat → bool.
Variable render_ok : list (list nat) → list string → bool.

Lemma nz_train_test_split featuresets :
  raises_only not_zde (train_test_split rng_permutation featuresets).
Proof.
  unfold train_test_split.
  apply raises_only_bind; [apply nz_list_read|]. intros array.
  destruct (_ =? 0); [by apply raises_only_raise|].
  apply raises_only_bind; [by intros w _|]. intros perm.
  apply raises_only_bind; [apply raises_only_comprehension, nz_index|]. intros tr.
  apply raises_only_bind; [apply raises_only_comprehension, nz_index|]. intros te.
  apply raises_only_ret.
Qed.

Lemma nz_train trainSet : raises_only not_zde (train trainSet).
Proof.
  unfold train. apply raises_only_bind; [|intros; apply raises_only_ret].
  apply raises_only_comprehension. intros [d label].
  apply raises_only_bind; [apply nz_dict_read|]. intros; apply raises_only_ret.
Qed.

Lemma nz_classify classifier features :
  raises_only not_zde (classify posterior_argmax classifier features).
Proof.
  unfold classify, dict_copy, dict_keys, dict_delitem.
  apply raises_only_bind.
  { apply raises_only_bind; [apply nz_dict_read|]. intros; apply nz_alloc. }
  intros copy. apply raises_only_bind.
  { apply raises_only_bind; [apply nz_dict_read|]. intros; apply raises_only_ret. }
  intros fnames. apply raises_only_bind.
  - apply raises_only_for_each. intros fname.
    destruct (known_fname classifier fname); [apply raises_only_ret|].
    apply raises_only_bind; [apply nz_dict_read|]. intros m.
    destruct (m !! fname); [apply nz_store|by apply raises_only_raise].
  - intros _. apply raises_only_bind; [apply nz_dict_read|].
    intros; apply raises_only_ret.
Qed.

Lemma nz_column {A} testSet (proj : loc * bool → A) :
  raises_only not_zde (column testSet proj).
Proof. destruct testSet; [by apply raises_only_raise|apply raises_only_ret]. Qed.

Lemma nz_prfs y_true y_pred e :
  Metrics.precision_recall_fscore_support y_true y_pred = Raise e → not_zde e.
Proof.
  unfold Metrics.precision_recall_fscore_support.
  destruct (negb _); [by intros [= <-]|]. by destruct (_ =? 0); intros [= <-].
Qed.

Lemma naive_bayes_no_zero_division featuresets printMetrics showConfusionMatrix :
  raises_only not_zde (naive_bayes rng_permutation posterior_argmax render_ok
                                   featuresets printMetrics showConfusionMatrix).
Proof.
  unfold naive_bayes.
  apply raises_only_bind; [apply nz_train_test_split|]. intros [trainSet testSet].
  apply raises_only_bind; [apply nz_train|]. intros classifier.
  apply raises_only_bind; [apply nz_column|]. intros testY.
  apply raises_only_bind; [apply nz_column|]. intros test_features.
  apply raises_only_bind; [apply raises_only_comprehension, nz_classify|]. intros predictY.
  apply raises_only_bind; [apply raises_only_lift, nz_prfs|]. intros [[[p r] f] s].
  apply raises_only_bind.
  { destruct printMetrics; [|apply raises_only_ret].
    apply raises_only_for_each. intros metric.
    apply raises_only_bind; [apply nz_md_getitem|intros; apply nz_print]. }
  intros _. apply raises_only_bind; [|intros; apply raises_only_ret].
  destruct showConfusionMatrix; [|apply raises_only_ret].
  destruct (render_ok _ _); [apply nz_plot|by apply raises_only_raise].
Qed.
End NoZeroDivision.

(** Stepping through a computation that is known to return: [stage H] takes
    the first stage of the sequence in [H] (and of the same sequence in the
    goal) and keeps the case where it returned. *)
Ltac stage H :=
  rewrite run_bind in H |- *;
  match type of H with
  | context [Py.run ?m ?w] =>
      let E := fresh "Hstage" in
      destruct (Py.run m w) as [[?|?] ?] eqn:E; [|discriminate H]
  end.

Ltac stage_hyp H :=
  rewrite run_bind in H;
  match type of H with
  | context [Py.run ?m ?w] =>
      let E := fresh "Hstage" in
      destruct (Py.run m w) as [[?|?] ?] eqn:E; [|discriminate H]
  end.

Section NaiveBayesShape.
Import Py Hoare NaiveBayes Metrics.
Local Open Scope py_scope.
Variable rng_permutation : nat → nat → list nat.
Variable posterior_argmax : list (gmap string nat * bool) → gmap string nat → bool.
Variable render_ok : list (list nat) → list string → bool.

Abbreviation naive_bayes := (naive_bayes rng_permutation posterior_argmax render_ok).

(** A call that returns has computed its metrics with
    [precision_recall_fscore_support], and the same call with both flags
    off returns the same classifier and metrics. *)
Lemma naive_bayes_returns featuresets printMetrics showConfusionMatrix w c m w' :
  run (naive_bayes featuresets printMetrics showConfusionMatrix) w = (Ok (c, m), w') →
  ∃ testY predictY p r f s w1,
    precision_recall_fscore_support testY predictY = Ok (p, r, f, s)
    ∧ testY ≠ []
    ∧ m = metrics_of p r f s
    ∧ run (naive_bayes featuresets false false) w = (Ok (c, m), w1).
Proof.
  intros H. unfold NaiveBayes.naive_bayes in *.
  stage H. destruct a as [trainSet testSet].
  stage H. rename a into classifier.
  stage H. rename a into testY.
  stage H. rename a into test_features.
  stage H. rename a into predictY.
  rewrite run_bind in H |- *.
  destruct (precision_recall_fscore_support testY predictY)
    as [[[[p r] f] s]|e] eqn:Hprfs; [|discriminate H].
  simpl in H |- *.
  stage_hyp H. stage_hyp H.
  injection H as <- <- <-.
  exists testY, predictY, p, r, f, s. eexists.
  split; [exact Hprfs|]. split; [|split; reflexivity].
  destruct testSet; [discriminate|]. by injection Hstage1 as <- <-.
Qed.
End NaiveBayesShape.

Section MonteCarloFacts.
Import Py Hoare NaiveBayes Metrics Arith MonteCarlo MonteCarloOnce.
Local Open Scope py_scope.
Variable rng_permutation : nat → nat → list nat.
Variable posterior_argmax : list (gmap string nat * bool) → gmap string nat → bool.
Variable render_ok : list (list nat) → list string → bool.

Abbreviation naive_bayes := (naive_bayes rng_permutation posterior_argmax render_ok).
Abbreviation MonteCarloCrossValidation :=
  (MonteCarloCrossValidation rng_permutation posterior_argmax render_ok).

Lemma MonteCarlo_zero featuresets w :
  run (MonteCarloCrossValidation featuresets 0) w = (Raise ZeroDivisionError, w).
Proof. reflexivity. Qed.

Lemma MonteCarlo_one_run featuresets w c p r f s w1 :
  is_array s →
  run (naive_bayes featuresets false false) w = (Ok (c, metrics_of p r f s), w1) →
  run (MonteCarloCrossValidation featuresets 1) w
  = (Ok (averaged_once p r f s), print_averages (averaged_once p r f s) w1).
Proof.
  intros Hs Hnb. unfold MonteCarlo.MonteCarloCrossValidation.
  rewrite run_bind. change (Z.to_nat 1) with 1. simpl seq. simpl for_fold.
  rewrite !run_bind. rewrite Hnb.
  destruct s; try done; reflexivity.
Qed.

(** Adding a float64 to 0 and dividing it by 1 gives the same float64. *)
Lemma add_zero_div_one (x : npfloat) :
  is_float64 x → np_div (np_add (of_int 0) x) 1 = x.
Proof.
  destruct x as [q|]; [|done]. intros Hq. unfold of_int, np_add, np_div.
  change (1 =? 0)%Z with false. cbv iota. f_equal.
  rewrite of_Z_0, of_Z_1, fadd_0_l by done. by apply fdiv_1_r.
Qed.

Lemma int_div_one (z : Z) : np_div (of_int (0 + z)) 1 = of_int z.
Proof.
  unfold of_int, np_div. change (1 =? 0)%Z with false. cbv iota. f_equal.
  rewrite of_Z_1. apply fdiv_1_r, of_Z_float.
Qed.

Lemma once_float (xs : list npfloat) :
  Forall is_float64 xs → once (NdFloat xs) = NdFloat xs.
Proof.
  intros Hxs. unfold once. f_equal.
  rewrite <- list_fmap_compose. rewrite <- (list_fmap_id xs) at 2.
  apply Forall_fmap_ext_1. eapply Forall_impl; [exact Hxs|].
  intros x Hx. by apply add_zero_div_one.
Qed.

Lemma once_int (s : list Z) : once (NdInt s) = NdFloat (of_int <$> s).
Proof.
  unfold once. f_equal.
  rewrite <- list_fmap_compose. apply list_fmap_ext. intros ???. apply int_div_one.
Qed.

Lemma averaged_once_id p r f s :
  Forall is_float64 p → Forall is_float64 r → Forall is_float64 f →
  float_entries s →
  averaged_once p r f s
  = [("precision", NdFloat p); ("recall", NdFloat r); ("f-score", NdFloat f);
     ("support", as_float64 s)].
Proof.
  intros Hp Hr Hf Hs. unfold averaged_once. rewrite !once_float by done.
  destruct s as [| |a|a]; [done|done|by rewrite once_int|by rewrite once_float].
Qed.
End MonteCarloFacts.

Section OutcomeRules.
Import Py Hoare.
Local Open Scope py_scope.
Variable E : exn → Prop.

Lemma outcome_ret {A} (Q : A → Prop) a : Q a → outcome Q E (ret a).
Proof. by intros H w _. Qed.

Lemma outcome_raise {A} (Q : A → Prop) e : E e → outcome Q E (raise e).
Proof. by intros H w _. Qed.

Lemma outcome_bind {A B} (Q1 : A → Prop) (Q : B → Prop) (m : M A) (k : A → M B) :
  outcome Q1 E m → (∀ a, Q1 a → outcome Q E (k a)) → outcome Q E (bind m k).
Proof.
  intros Hm Hk w _. specialize (Hm w I). rewrite run_bind.
  destruct (run m w) as [[a|e] w']; simpl in *; [|done]. by apply Hk.
Qed.

Lemma outcome_lift {A} (Q : A → Prop) (r : res A) :
  match r with Ok a => Q a | Raise e => E e end → outcome Q E (lift r).
Proof. destruct r; [apply outcome_ret|apply outcome_raise]. Qed.

Lemma outcome_for_fold {A S} (I : S → Prop) (xs : list A) (s : S) (body : S → A → M S) :
  I s → (∀ s x, I s → outcome I E (body s x)) → outcome I E (for_fold xs s body).
Proof.
  intros Hs Hbody. revert s Hs. induction xs as [|x xs IH]; intros s Hs; simpl.
  - by apply outcome_ret.
  - eapply outcome_bind; [by apply Hbody|]. done.
Qed.

Lemma outcome_for_each {A} (xs : list A) (body : A → M unit) :
  (∀ x, outcome any E (body x)) → outcome any E (for_each xs body).
Proof. intros H. by apply raises_only_for_each. Qed.
End OutcomeRules.

Section Finiteness.
Import Py Hoare Arith Metrics.

Lemma md_lookup_finite d k v : all_finite d → md_lookup d k = Some v → finite_val v.
Proof.
  induction 1 as [|[k' v'] d Hv _ IH]; simpl; [done|].
  case_bool_decide; [by intros [= <-]|done].
Qed.

Lemma md_setitem_finite d k v : all_finite d → finite_val v → all_finite (md_setitem d k v).
Proof.
  intros Hd Hv. induction Hd as [|[k' v'] d Hv' Hd IH]; simpl.
  - by repeat constructor.
  - case_bool_decide; constructor; done.
Qed.

Lemma md_getitem_outcome d k :
  all_finite d → outcome finite_val not_zde (md_getitem d k).
Proof.
  intros Hd. unfold md_getitem. destruct (md_lookup d k) eqn:E.
  - apply outcome_ret. by eapply md_lookup_finite.
  - by apply outcome_raise.
Qed.

Lemma np_add_finite x y : x ≠ NonFinite → y ≠ NonFinite → np_add x y ≠ NonFinite.
Proof. by destruct x, y. Qed.

Lemma np_div_finite x n : x ≠ NonFinite → n ≠ 0%Z → np_div x n ≠ NonFinite.
Proof. intros Hx Hn. destruct x; [|done]. simpl. by rewrite (proj2 (Z.eqb_neq n 0) Hn). Qed.

Lemma broadcast_into_finite {B} (P : B → Prop) (f : npfloat → B → npfloat) xs ys :
  (∀ x y, x ≠ NonFinite → P y → f x y ≠ NonFinite) →
  Forall (λ x, x ≠ NonFinite) xs → Forall P ys →
  match broadcast_into f xs ys with
  | Ok zs => Forall (λ x, x ≠ NonFinite) zs
  | Raise e => not_zde e
  end.
Proof.
  intros Hf Hxs Hys. unfold broadcast_into.
  assert (Hsingle : ∀ y, P y → Forall (λ x, x ≠ NonFinite) ((λ x, f x y) <$> xs)).
  { intros y Hy. apply Forall_fmap. eapply Forall_impl; [done|]. intros x ?. by apply Hf. }
  assert (Hzip : Forall (λ x, x ≠ NonFinite) (zip_with f xs ys)).
  { clear Hsingle. revert ys Hys.
    induction Hxs as [|x xs ?? IH]; intros ys [|y ys' ??]; simpl; try done.
    constructor; [by apply Hf|by apply IH]. }
  destruct ys as [|y [|y' ys] ]; [| apply Hsingle; by inversion Hys |];
    (destruct (length xs =? _); [apply Hzip|done]).
Qed.

Lemma fmap_res_outcome {A} (Q : list A → Prop) (g : list A → pyval) (r : res (list A)) :
  (∀ zs, Q zs → finite_val (g zs)) →
  match r with Ok zs => Q zs | Raise e => not_zde e end →
  match fmap_res g r with Ok v => finite_val v | Raise e => not_zde e end.
Proof. intros Hg. destruct r; simpl; auto. Qed.

Lemma broadcast_into_raises {A B} (f : A → B → A) xs ys :
  match broadcast_into f xs ys with Ok _ => True | Raise e => not_zde e end.
Proof.
  unfold broadcast_into. destruct ys as [|y [|y' ys] ]; [|done|];
    by destruct (length xs =? _).
Qed.

(** In-place addition never divides, and keeps finite values finite. *)
Lemma iadd_outcome a b :
  finite_val a → finite_val b →
  match iadd a b with Ok v => finite_val v | Raise e => not_zde e end.
Proof.
  intros Ha Hb.
  assert (Hmap : ∀ (g : npfloat → npfloat) xs,
             (∀ x, x ≠ NonFinite → g x ≠ NonFinite) →
             Forall (λ x, x ≠ NonFinite) xs → Forall (λ x, x ≠ NonFinite) (g <$> xs)).
  { intros g xs Hg Hxs. apply Forall_fmap. eapply Forall_impl; [done|]. auto. }
  assert (Hmapz : ∀ (g : Z → npfloat) (zs : list Z),
             (∀ z, g z ≠ NonFinite) → Forall (λ x, x ≠ NonFinite) (g <$> zs)).
  { intros g zs Hg. apply Forall_fmap, Forall_forall. auto. }
  destruct a as [x|x|xs|xs], b as [y|y|ys|ys]; unfold iadd; unfold finite_val in *.
  - done.
  - by apply np_add_finite.
  - done.
  - apply Hmap; [|done]. intros; by apply np_add_finite.
  - by apply np_add_finite.
  - by apply np_add_finite.
  - apply Hmapz. intros; by apply np_add_finite.
  - apply Hmap; [|done]. intros; by apply np_add_finite.
  - done.
  - done.
  - apply (fmap_res_outcome (λ _, True)); [done|apply broadcast_into_raises].
  - done.
  - apply Hmap; [|done]. intros; by apply np_add_finite.
  - apply Hmap; [|done]. intros; by apply np_add_finite.
  - apply (fmap_res_outcome (Forall (λ x, x ≠ NonFinite))); [done|].
    apply (broadcast_into_finite (λ _, True)); [|done|by apply Forall_forall].
    intros; by apply np_add_finite.
  - apply (fmap_res_outcome (Forall (λ x, x ≠ NonFinite))); [done|].
    apply (broadcast_into_finite (λ y, y ≠ NonFinite)); [|done|done].
    intros; by apply np_add_finite.
Qed.

(** Division by a non-zero integer is defined, and finite on finite
    values. *)
Lemma truediv_outcome a n :
  n ≠ 0%Z → finite_val a →
  match truediv a n with Ok v => finite_val v | Raise e => not_zde e end.
Proof.
  intros Hn Ha. unfold truediv. rewrite (proj2 (Z.eqb_neq n 0) Hn).
  destruct a as [x|x|xs|xs]; unfold finite_val in *.
  - done.
  - by apply np_div_finite.
  - apply Forall_fmap, Forall_forall. intros ??. by apply np_div_finite.
  - apply Forall_fmap. eapply Forall_impl; [done|]. intros ??. by apply np_div_finite.
Qed.

Lemma prf_divide_finite num den : prf_divide num den ≠ NonFinite.
Proof. unfold prf_divide. by destruct (Qeq_bool _ _). Qed.

Lemma support_array_finite y_true y_pred : finite_val (support_array y_true y_pred).
Proof.
  unfold support_array. destruct (any_correct _ _); simpl; [done|].
  apply Forall_fmap, Forall_forall. by intros ??.
Qed.

Lemma prfs_finite y_true y_pred p r f s :
  precision_recall_fscore_support y_true y_pred = Ok (p, r, f, s) →
  all_finite (metrics_of p r f s).
Proof.
  unfold precision_recall_fscore_support. destruct (negb _); [done|].
  destruct (_ =? 0); [done|].
  intros [= <- <- <- <-]. unfold all_finite, metrics_of.
  repeat constructor; simpl;
    try (apply Forall_fmap, Forall_forall; intros ??; apply prf_divide_finite).
  apply support_array_finite.
Qed.
End Finiteness.

Section MonteCarloOutcome.
Import Py Hoare NaiveBayes Metrics Arith MonteCarlo.
Local Open Scope py_scope.
Variable rng_permutation : nat → nat → list nat.
Variable posterior_argmax : list (gmap string nat * bool) → gmap string nat → bool.
Variable render_ok : list (list nat) → list string → bool.

Lemma naive_bayes_outcome featuresets printMetrics showConfusionMatrix :
  outcome (λ cm, all_finite cm.2) not_zde
          (naive_bayes rng_permutation posterior_argmax render_ok
                       featuresets printMetrics showConfusionMatrix).
Proof.
  intros w _.
  pose proof (naive_bayes_no_zero_division rng_permutation posterior_argmax render_ok
                featuresets printMetrics showConfusionMatrix w I) as Hnz.
  destruct (run _ w) as [[[c m]|e] w'] eqn:Hrun; simpl in *; [|done].
  apply naive_bayes_returns in Hrun as (testY & predictY & p & r & f & s & w1 & Hprfs & _ & -> & _).
  by eapply prfs_finite.
Qed.

(** With a repetition count other than zero, the validator never divides
    by zero, and the averages it returns hold no [inf] or [nan]. *)
Lemma MonteCarlo_outcome featuresets n :
  n ≠ 0%Z →
  outcome all_finite not_zde
          (MonteCarloCrossValidation rng_permutation posterior_argmax render_ok
                                     featuresets n).
Proof.
  intros Hn. unfold MonteCarloCrossValidation.
  apply (outcome_bind _ (λ st : metrics_dict * option metrics_dict, all_finite st.1)).
  { apply outcome_for_fold; [by repeat constructor|].
    intros [avgs old] _ Havgs.
    apply (outcome_bind _ (λ cm : NaiveBayesClassifier * metrics_dict, all_finite cm.2));
      [apply naive_bayes_outcome|].
    intros [c m] Hm. simpl in *.
    apply (outcome_bind _ all_finite); [|intros; by apply outcome_ret].
    apply outcome_for_fold; [done|]. intros acc metric Hacc.
    apply (outcome_bind _ finite_val); [by apply md_getitem_outcome|]. intros a Ha.
    apply (outcome_bind _ finite_val); [by apply md_getitem_outcome|]. intros b Hb.
    apply (outcome_bind _ finite_val); [by apply outcome_lift, iadd_outcome|]. intros v Hv.
    apply outcome_ret. by apply md_setitem_finite. }
  intros [avgs metrics] Havgs. simpl in *.
  apply (outcome_bind _ all_finite).
  { apply outcome_for_fold; [done|]. intros acc metric Hacc.
    apply (outcome_bind _ finite_val); [by apply md_getitem_outcome|]. intros a Ha.
    apply (outcome_bind _ finite_val); [by apply outcome_lift, truediv_outcome|]. intros v Hv.
    apply outcome_ret. by apply md_setitem_finite. }
  intros avgs' Havgs'.
  apply (outcome_bind _ any).
  { destruct metrics; [by apply outcome_ret|by apply outcome_raise]. }
  intros metrics' _.
  apply (outcome_bind _ any); [|intros; by apply outcome_ret].
  apply outcome_for_each. intros metric.
  apply (outcome_bind _ finite_val); [by apply md_getitem_outcome|].
  intros v _. by intros ??.
Qed.
End MonteCarloOutcome.

Section MetricsFacts.
Import Py Metrics Arith.

Lemma prf_divide_unit (num den : Q) :
  (0 <= num)%Q → (num <= den)%Q → unit_interval (prf_divide num den).
Proof.
  intros H0 Hle. unfold prf_divide. destruct (Qeq_bool den 0) eqn:E.
  - exists 0%Q. done.
  - apply Qeq_bool_neq in E.
    exists (fdiv num den). split; [done|]. apply fdiv_unit; [done..|].
    apply Qle_lteq in H0 as [H0|H0]; [lra|].
    apply Qle_lteq in Hle as [Hle|Hle]; [lra|]. rewrite <- H0 in Hle. by destruct E.
Qed.

Lemma prf_divide_float num den : is_float64 (prf_divide num den).
Proof.
  unfold prf_divide. destruct (Qeq_bool den 0); [reflexivity|].
  apply round64_idempotent.
Qed.

Lemma prf_divide_same (q : Q) : (0 < q)%Q → prf_divide q q = Finite 1.
Proof.
  intros Hq. unfold prf_divide. destruct (Qeq_bool q 0) eqn:E.
  - apply Qeq_bool_iff in E. lra.
  - f_equal. apply fdiv_same. lra.
Qed.

Lemma count_if_cons {A} (p : A → bool) x l :
  count_if p (x :: l) = (if p x then 1 else 0) + count_if p l.
Proof. unfold count_if. simpl. by destruct (p x). Qed.

Lemma tp_le_pred y_true y_pred l : tp_sum y_true y_pred l ≤ pred_sum y_pred l.
Proof.
  unfold tp_sum, pred_sum. revert y_pred.
  induction y_true as [|t y_true IH]; intros [|p y_pred]; simpl; try done.
  - unfold count_if. simpl. lia.
  - rewrite !count_if_cons. specialize (IH y_pred).
    destruct t, p, l; simpl; lia.
Qed.

Lemma tp_le_true y_true y_pred l : tp_sum y_true y_pred l ≤ true_sum y_true l.
Proof.
  unfold tp_sum, true_sum. revert y_pred.
  induction y_true as [|t y_true IH]; intros [|p y_pred]; simpl; try done.
  - unfold count_if. simpl. lia.
  - rewrite !count_if_cons. specialize (IH y_pred).
    destruct t, p, l; simpl; lia.
Qed.

Lemma true_sum_total y_true :
  true_sum y_true false + true_sum y_true true = length y_true.
Proof.
  unfold true_sum. induction y_true as [|t y IH]; [done|].
  rewrite !count_if_cons. simpl. destruct t; simpl; lia.
Qed.

Lemma true_sum_absent y_true l :
  existsb (Bool.eqb l) y_true = false → true_sum y_true l = 0.
Proof.
  unfold true_sum. induction y_true as [|t y IH]; [done|]. simpl.
  intros [Ht Hy]%orb_false_iff. rewrite count_if_cons, Ht. by rewrite IH.
Qed.

(** The supports of the present labels add up to the number of samples. *)
Lemma support_total y_true y_pred :
  sum_Z ((λ l, Z.of_nat (true_sum y_true l)) <$> unique_labels y_true y_pred)
  = Z.of_nat (length y_true).
Proof.
  rewrite <- (true_sum_total y_true). unfold unique_labels. simpl.
  rewrite !existsb_app.
  destruct (existsb (Bool.eqb false) y_true) eqn:Ef,
           (existsb (Bool.eqb true) y_true) eqn:Et; simpl;
    repeat (destruct (existsb _ y_pred); simpl);
    try rewrite (true_sum_absent _ _ Ef); try rewrite (true_sum_absent _ _ Et); lia.
Qed.

Lemma prfs_Ok y_true y_pred :
  length y_true = length y_pred → y_true ≠ [] →
  ∃ p r f s, precision_recall_fscore_support y_true y_pred = Ok (p, r, f, s).
Proof.
  intros Hlen Hne. unfold precision_recall_fscore_support.
  rewrite (proj2 (Nat.eqb_eq _ _) Hlen). simpl.
  destruct y_true; [done|]. simpl. eauto.
Qed.

(** What a call that returns has returned. *)
Lemma prfs_inv y_true y_pred p r f s :
  precision_recall_fscore_support y_true y_pred = Ok (p, r, f, s) →
  length y_true = length y_pred ∧ y_true ≠ []
  ∧ p = (λ l, prf_divide (of_Z (Z.of_nat (tp_sum y_true y_pred l)))
                         (of_Z (Z.of_nat (pred_sum y_pred l))))
          <$> unique_labels y_true y_pred
  ∧ r = (λ l, prf_divide (of_Z (Z.of_nat (tp_sum y_true y_pred l)))
                         (of_Z (Z.of_nat (true_sum y_true l))))
          <$> unique_labels y_true y_pred
  ∧ f = (λ l, prf_divide (fmul 2 (of_Z (Z.of_nat (tp_sum y_true y_pred l))))
                         (fadd (fmul 1 (of_Z (Z.of_nat (true_sum y_true l))))
                               (of_Z (Z.of_nat (pred_sum y_pred l)))))
          <$> unique_labels y_true y_pred
  ∧ s = support_array y_true y_pred.
Proof.
  unfold precision_recall_fscore_support.
  destruct (Nat.eqb_spec (length y_true) (length y_pred)) as [Hlen|]; [|done].
  simpl. destruct y_true as [|t y_true]; [done|]. simpl.
  by intros [= <- <- <- <-].
Qed.

Lemma support_array_cases y_true y_pred :
  support_array y_true y_pred = NdInt (support_counts y_true y_pred)
  ∨ support_array y_true y_pred = NdFloat (of_int <$> support_counts y_true y_pred).
Proof. unfold support_array. destruct (any_correct _ _); auto. Qed.

Lemma support_array_float y_true y_pred : float_entries (support_array y_true y_pred).
Proof.
  unfold support_array. destruct (any_correct _ _); simpl; [done|].
  apply Forall_fmap, Forall_forall. intros z _. apply is_float64_of_int.
Qed.

(** The four arrays: ratios in [0, 1], and supports that are counts adding
    up to the number of samples. *)
Lemma prfs_range y_true y_pred p r f s :
  precision_recall_fscore_support y_true y_pred = Ok (p, r, f, s) →
  let counts := support_counts y_true y_pred in
  Forall unit_interval p ∧ Forall unit_interval r ∧ Forall unit_interval f
  ∧ s = support_array y_true y_pred
  ∧ Forall (λ z, (0 ≤ z)%Z) counts ∧ sum_Z counts = Z.of_nat (length y_true)
  ∧ length p = length counts ∧ length r = length counts ∧ length f = length counts.
Proof.
  intros (_ & _ & -> & -> & -> & ->)%prfs_inv counts.
  pose proof (tp_le_pred y_true y_pred) as Hp.
  pose proof (tp_le_true y_true y_pred) as Hr.
  unfold counts, support_counts.
  repeat split; try by rewrite !length_fmap.
  - apply Forall_fmap, Forall_forall. intros l _.
    apply prf_divide_unit; [apply of_Z_nonneg; lia|apply of_Z_monotone].
    specialize (Hp l). lia.
  - apply Forall_fmap, Forall_forall. intros l _.
    apply prf_divide_unit; [apply of_Z_nonneg; lia|apply of_Z_monotone].
    specialize (Hr l). lia.
  - apply Forall_fmap, Forall_forall. intros l _.
    specialize (Hp l). specialize (Hr l). unfold compose.
    rewrite fmul_1_l by apply of_Z_float.
    apply prf_divide_unit; [apply round64_nonneg|apply round64_monotone].
    + pose proof (of_Z_nonneg (Z.of_nat (tp_sum y_true y_pred l)) ltac:(lia)). lra.
    + pose proof (of_Z_monotone (Z.of_nat (tp_sum y_true y_pred l))
                    (Z.of_nat (pred_sum y_pred l)) ltac:(lia)).
      pose proof (of_Z_monotone (Z.of_nat (tp_sum y_true y_pred l))
                    (Z.of_nat (true_sum y_true l)) ltac:(lia)).
      lra.
  - apply Forall_fmap, Forall_forall. intros l _. simpl. lia.
  - apply support_total.
Qed.

(** The float arrays hold float64 values. *)
Lemma prfs_floats y_true y_pred p r f s :
  precision_recall_fscore_support y_true y_pred = Ok (p, r, f, s) →
  Forall is_float64 p ∧ Forall is_float64 r ∧ Forall is_float64 f ∧ float_entries s.
Proof.
  intros (_ & _ & -> & -> & -> & ->)%prfs_inv.
  repeat split; try (apply Forall_fmap, Forall_forall; intros l _; apply prf_divide_float).
  apply support_array_float.
Qed.
End MetricsFacts.

Section NaiveBayesTotal.
Import Py Hoare NaiveBayes Metrics Featuresets.
Local Open Scope py_scope.
Variable rng_permutation : nat → nat → list nat.
Variable posterior_argmax : list (gmap string nat * bool) → gmap string nat → bool.
Variable render_ok : list (list nat) → list string → bool.

Lemma run_comprehension_index {A} (array : list A) inds w :
  Forall (λ i, i < length array) inds →
  ∃ xs, run (comprehension (index array) inds) w = (Ok xs, w)
        ∧ length xs = length inds ∧ Forall (λ x, x ∈ array) xs.
Proof.
  induction 1 as [|i inds Hi _ (xs & Hrun & Hlen & Hin)]; simpl.
  - by exists [].
  - apply lookup_lt_is_Some in Hi as [x Hx].
    exists (x :: xs). erewrite run_bind_Ok by by apply run_index.
    rewrite run_bind, Hrun. simpl. split; [done|]. split; [by rewrite Hlen|].
    constructor; [|done]. by eapply list_elem_of_lookup_2.
Qed.

Lemma test_size_bounds n : 2 ≤ n → 1 ≤ (n + 3) / 4 ∧ (n + 3) / 4 < n.
Proof.
  intros Hn. split.
  - apply Nat.div_le_lower_bound; lia.
  - apply Nat.Div0.div_lt_upper_bound; lia.
Qed.

(** The default split of at least two samples returns, with a test subset
    of [ceil(n/4)] samples; both subsets are drawn from the input. *)
Lemma train_test_split_total featuresets pairs w :
  heap w !! featuresets = Some (OList pairs) → 2 ≤ length pairs →
  rng_permutation (rng_calls w) (length pairs) ≡ₚ seq 0 (length pairs) →
  ∃ trainSet testSet w1,
    run (train_test_split rng_permutation featuresets) w = (Ok (trainSet, testSet), w1)
    ∧ heap w1 = heap w
    ∧ length testSet = (length pairs + 3) / 4
    ∧ Forall (λ x, x ∈ pairs) trainSet ∧ Forall (λ x, x ∈ pairs) testSet.
Proof.
  intros HL Hn Hperm. unfold train_test_split.
  erewrite run_bind_Ok by by apply run_list_read.
  destruct (test_size_bounds _ Hn) as [Hlo Hhi].
  destruct (Nat.eqb_spec (length pairs - (length pairs + 3) / 4) 0) as [|_]; [lia|].
  set (w1 := {| heap := heap w; rng_calls := S (rng_calls w); stdout := stdout w |}).
  set (perm := rng_permutation (rng_calls w) (length pairs)) in *.
  rewrite (run_bind_Ok _ _ w perm w1) by done.
  assert (Hlt : Forall (λ i, i < length pairs) perm).
  { rewrite Hperm. apply Forall_forall. intros i Hi%elem_of_seq. lia. }
  assert (Hlen : length perm = length pairs) by by rewrite Hperm, length_seq.
  destruct (run_comprehension_index pairs
              (take (length pairs - (length pairs + 3) / 4)
                    (drop ((length pairs + 3) / 4) perm)) w1)
    as (trainSet & Htr & _ & Htrain).
  { by apply Forall_take, Forall_drop. }
  destruct (run_comprehension_index pairs (take ((length pairs + 3) / 4) perm) w1)
    as (testSet & Hte & Htelen & Htest).
  { by apply Forall_take. }
  exists trainSet, testSet, w1. rewrite run_bind, Htr, run_bind, Hte.
  split; [done|]. split; [done|]. split; [|done].
  rewrite Htelen, length_take. lia.
Qed.

Lemma train_total trainSet w :
  Forall (λ pair, is_Some (deref (heap w) pair)) trainSet →
  ∃ classifier, run (train trainSet) w = (Ok classifier, w).
Proof.
  intros Hall. unfold train.
  cut (∃ sample, run (comprehension
                        (λ '(featureset, label),
                           let* m := dict_read featureset in ret (m, label))
                        trainSet) w = (Ok sample, w)).
  { intros [sample Hs]. eexists. by rewrite run_bind, Hs. }
  induction Hall as [|[d label] trainSet [x (m & Hm & _)%deref_Some] _ [sample IH] ]; simpl.
  - by exists [].
  - exists ((m, label) :: sample).
    rewrite run_bind. erewrite (run_bind_Ok (dict_read d)) by by apply run_dict_read.
    simpl. by rewrite run_bind, IH.
Qed.

(** [classify] returns on every dictionary; the deletions it makes in its
    copy always find their key. *)
Lemma classify_total classifier features m w :
  heap w !! features = Some (ODict m) →
  ∃ label w', run (classify posterior_argmax classifier features) w = (Ok label, w')
              ∧ heap w ⊆ heap w'.
Proof.
  intros Hm.
  cut (∃ label w', run (classify posterior_argmax classifier features) w = (Ok label, w')).
  { intros (label & w' & Hrun). exists label, w'. split; [done|].
    pose proof (classify_frames (heap w) posterior_argmax classifier features w) as H.
    rewrite Hrun in H. by apply H. }
  unfold classify, dict_copy.
  erewrite (run_bind_Ok (let* m := dict_read features in alloc (ODict m)));
    [|by erewrite run_bind_Ok by by apply run_dict_read].
  set (copy := fresh (dom (heap w))).
  set (w1 := set_heap _ w).
  erewrite run_bind_Ok; cycle 1.
  { apply (run_dict_keys _ m). simpl. by rewrite lookup_insert_eq. }
  edestruct (run_for_each
    (λ done w', ∃ acc, heap w' !! copy = Some (ODict acc)
                ∧ ∀ k, k ∉ done → acc !! k = m !! k)
    (map_to_list m).*1
    (λ fname, if known_fname classifier fname then ret tt
              else dict_delitem copy fname) w1) as (w2 & Hrun & acc & Hacc & _).
  - exists m. simpl. by rewrite lookup_insert_eq.
  - intros done fname rest w' Hxs (acc & Hacc & Hagree).
    destruct (known_fname classifier fname).
    + eexists. split; [done|]. exists acc. split; [done|].
      intros k Hk. apply Hagree. set_solver.
    + assert (fname ∉ done) as Hfresh.
      { pose proof (NoDup_fst_map_to_list m) as Hnd. rewrite Hxs in Hnd.
        apply NoDup_app in Hnd as (_ & Hnd & _). intros Hin.
        apply (Hnd _ Hin). set_solver. }
      assert (is_Some (m !! fname)) as [v Hv].
      { apply elem_of_keys. rewrite Hxs. set_solver. }
      erewrite run_dict_delitem; [|done|by rewrite Hagree].
      eexists. split; [done|]. exists (delete fname acc). simpl.
      rewrite lookup_insert_eq. split; [done|].
      intros k Hk. rewrite lookup_delete_ne by set_solver. apply Hagree. set_solver.
  - rewrite run_bind, Hrun.
    erewrite run_bind_Ok by by apply run_dict_read. eauto.
Qed.

Lemma classify_all_total classifier test_features w :
  Forall (λ d, ∃ m, heap w !! d = Some (ODict m)) test_features →
  ∃ predictY w',
    run (comprehension (classify posterior_argmax classifier) test_features) w
    = (Ok predictY, w')
    ∧ length predictY = length test_features.
Proof.
  revert w. induction test_features as [|d ds IH]; intros w Hall; simpl.
  - by exists [], w.
  - inversion_clear Hall as [|?? [m Hm] Hds].
    destruct (classify_total classifier d m w Hm) as (label & w1 & Hrun & Hsub).
    destruct (IH w1) as (labels & w2 & Hrun2 & Hlen).
    { eapply Forall_impl; [exact Hds|]. intros d' [m' Hm']. exists m'.
      by eapply lookup_weaken. }
    exists (label :: labels), w2. rewrite run_bind, Hrun, run_bind, Hrun2.
    split; [done|]. simpl. by rewrite Hlen.
Qed.

Lemma run_print_metrics (metrics : metrics_dict) w :
  ∃ w', run (for_each (md_keys metrics) (λ metric,
               let* v := md_getitem metrics metric in print metric v)) w
        = (Ok tt, w').
Proof.
  cut (∀ keys, Forall (λ k, is_Some (md_lookup metrics k)) keys →
         ∀ w, ∃ w', run (for_each keys (λ metric,
                let* v := md_getitem metrics metric in print metric v)) w = (Ok tt, w')).
  { intros H. apply H. apply Forall_forall. intros k Hk.
    unfold md_keys in Hk. apply list_elem_of_fmap in Hk as ([k' v] & -> & Hin).
    clear H. induction metrics as [|[k1 v1] d IH]; [by apply elem_of_nil in Hin|].
    simpl. case_bool_decide; [by eauto|]. apply IH.
    apply elem_of_cons in Hin as [[= -> ->]|]; done. }
  clear w. induction 1 as [|k keys [v Hv] _ IH]; intros w; simpl.
  - by eauto.
  - rewrite run_bind. unfold md_getitem at 1. rewrite Hv.
    rewrite run_bind. simpl. apply IH.
Qed.

(** On a well-formed list of at least two featuresets, with a generator
    that returns permutations, [naive_bayes] without the plot returns. *)
Lemma naive_bayes_total featuresets printMetrics w fs :
  contents (heap w) featuresets = Some fs → 2 ≤ length fs →
  rng_permutation (rng_calls w) (length fs) ≡ₚ seq 0 (length fs) →
  ∃ classifier testY predictY p r f s w',
    run (naive_bayes rng_permutation posterior_argmax render_ok
                     featuresets printMetrics false) w
    = (Ok (classifier, metrics_of p r f s), w')
    ∧ precision_recall_fscore_support testY predictY = Ok (p, r, f, s)
    ∧ length testY = (length fs + 3) / 4.
Proof.
  unfold contents. intros Hfs Hn Hperm.
  destruct (heap w !! featuresets) as [[?|pairs]|] eqn:HL; try done.
  apply mapM_Some in Hfs.
  rewrite <- (Forall2_length _ _ _ Hfs) in *.
  assert (Hderef : Forall (λ pair, is_Some (deref (heap w) pair)) pairs).
  { eapply Forall2_Forall_l; [exact Hfs|]. apply Forall_forall. by eauto. }
  destruct (train_test_split_total featuresets pairs w HL Hn Hperm)
    as (trainSet & testSet & w1 & Hsplit & Hw1 & Hlen & Htrain & Htest).
  rewrite Forall_forall in Hderef.
  destruct (train_total trainSet w1) as [classifier Hcl].
  { rewrite Hw1. eapply Forall_impl; [exact Htrain|]. auto. }
  assert (testSet ≠ []) as Hne.
  { intros ->. destruct (test_size_bounds _ Hn) as [H1 _].
    rewrite <- Hlen in H1. simpl in H1. lia. }
  destruct (classify_all_total classifier testSet.*1 w1) as (predictY & w2 & Hpred & Hplen).
  { apply Forall_fmap. eapply Forall_impl; [exact Htest|]. intros pair Hin. simpl.
    rewrite Hw1. destruct (Hderef _ Hin) as [x (m & Hm & _)%deref_Some]. eauto. }
  destruct (prfs_Ok testSet.*2 predictY) as (p & r & f & s & Hprfs).
  { by rewrite Hplen, !length_fmap. }
  { by destruct testSet. }
  destruct (run_print_metrics (metrics_of p r f s) w2) as [w3 Hprint].
  exists classifier, testSet.*2, predictY, p, r, f, s.
  exists (if printMetrics then w3 else w2).
  split; [|split; [done|by rewrite length_fmap] ].
  unfold naive_bayes.
  rewrite (run_bind_Ok _ _ _ _ _ Hsplit). cbv beta iota.
  rewrite (run_bind_Ok _ _ _ _ _ Hcl).
  destruct testSet as [|pair testSet']; [done|].
  rewrite (run_bind_Ok _ _ w1 (snd <$> pair :: testSet') w1) by done.
  rewrite (run_bind_Ok _ _ w1 (fst <$> pair :: testSet') w1) by done.
  rewrite (run_bind_Ok _ _ _ _ _ Hpred).
  rewrite Hprfs. rewrite (run_bind_Ok _ _ w2 (p, r, f, s) w2) by done.
  cbv beta iota.
  destruct printMetrics.
  - rewrite (run_bind_Ok _ _ w2 tt w3) by exact Hprint. reflexivity.
  - reflexivity.
Qed.
End NaiveBayesTotal.

Section CharacterFacts.
Import Text.

Lemma lower_char_idempotent c : lower_char (lower_char c) = lower_char c.
Proof. by destruct c as [[] [] [] [] [] [] [] []]. Qed.

Lemma lower_idempotent s : lower (lower s) = lower s.
Proof. induction s as [|c s IH]; simpl; [done|]. by rewrite lower_char_idempotent, IH. Qed.

Lemma is_sp_lower_char c : is_sp (lower_char c) = is_sp c.
Proof. by destruct c as [[] [] [] [] [] [] [] []]. Qed.

Lemma has_space_lower s : has_space s = false → has_space (lower s) = false.
Proof.
  induction s as [|c s IH]; simpl; [done|].
  intros [Hc Hs]%orb_false_iff. by rewrite is_sp_lower_char, Hc, IH.
Qed.
End CharacterFacts.

Section ExampleFacts.
Import Py Featuresets Examples.

Lemma Some_default {A} (o : option A) (d : A) :
  bool_decide (is_Some o) = true → o = Some (default d o).
Proof. intros [x ->]%bool_decide_eq_true. done. Qed.

Lemma demo_call_returns : bool_decide (is_Some (res_value demo_call.1)) = true.
Proof. vm_compute. reflexivity. Qed.

Lemma demo_call_eq : demo_call = (Ok (demo_classifier, demo_metrics), demo_after).
Proof.
  pose proof demo_call_returns as H. apply bool_decide_eq_true in H.
  unfold demo_classifier, demo_metrics, demo_after.
  destruct demo_call as [[[c m]|e] w']; [reflexivity|by destruct H].
Qed.

Lemma demo_contents_eq :
  contents (heap demo_world) demo_featuresets = Some demo_contents.
Proof. apply Some_default. vm_compute. reflexivity. Qed.
End ExampleFacts.

Section ArrayEquality.
Import Py Arith.

Lemma Forall2_np_eq_refl xs : Forall (λ x, x ≠ NonFinite) xs → Forall2 np_eq xs xs.
Proof.
  induction 1 as [|x xs Hx _ IH]; constructor; [|done].
  destruct x; [apply Qeq_refl|done].
Qed.
End ArrayEquality.

Section NaiveBayesPlot.
Import Py Hoare NaiveBayes Metrics.
Local Open Scope py_scope.
Variable rng_permutation : nat → nat → list nat.
Variable posterior_argmax : list (gmap string nat * bool) → gmap string nat → bool.
Variable render_ok : list (list nat) → list string → bool.

(** With fewer than two samples the training subset would be empty. *)
Lemma naive_bayes_too_small featuresets printMetrics showConfusionMatrix w fs :
  Featuresets.contents (heap w) featuresets = Some fs → length fs < 2 →
  run (naive_bayes rng_permutation posterior_argmax render_ok
                   featuresets printMetrics showConfusionMatrix) w
  = (Raise (ValueError EmptyTrainSet), w).
Proof.
  unfold Featuresets.contents. intros Hfs Hn.
  destruct (heap w !! featuresets) as [[?|pairs]|] eqn:HL; try done.
  apply mapM_Some, Forall2_length in Hfs. rewrite <- Hfs in Hn.
  unfold naive_bayes, train_test_split. rewrite !run_bind.
  rewrite (run_list_read _ _ _ HL).
  by destruct pairs as [|pair1 [|pair2 pairs] ]; [..|simpl in Hn; lia].
Qed.

(** Asking for the plot changes the outcome only if the plot fails. *)
Lemma naive_bayes_plot featuresets printMetrics w c m w' :
  run (naive_bayes rng_permutation posterior_argmax render_ok
                   featuresets printMetrics false) w = (Ok (c, m), w') →
  (∃ w'', run (naive_bayes rng_permutation posterior_argmax render_ok
                           featuresets printMetrics true) w = (Ok (c, m), w''))
  ∨ run (naive_bayes rng_permutation posterior_argmax render_ok
                     featuresets printMetrics true) w = (Raise RenderError, w').
Proof.
  intros H. unfold naive_bayes in *.
  stage H. destruct a as [trainSet testSet].
  stage H. stage H. stage H. stage H.
  rewrite run_bind in H |- *.
  destruct (precision_recall_fscore_support a0 a2)
    as [[[[p r] f] s]|e] eqn:Hprfs; [|discriminate H].
  simpl in H |- *.
  stage H. rewrite run_bind in H |- *. simpl in H.
  injection H as <- <- <-.
  destruct (render_ok _ _).
  - left. eexists. reflexivity.
  - right. reflexivity.
Qed.
End NaiveBayesPlot.

Section NormalizerMore.
Import Text Normalizer.
Variable stem : string → string.

Lemma fmap_fixed {A} (f : A → A) (l : list A) :
  Forall (λ x, f x = x) l → f <$> l = l.
Proof. induction 1 as [|x l Hx _ IH]; [done|]. csimpl. by rewrite Hx, IH. Qed.

Lemma stem_lyric_fixed stop_words raw :
  Forall (λ word, stem word = word ∧ lower word ∉ stop_words) (split_space raw) →
  stem_lyric stem stop_words raw = raw.
Proof.
  intros Hall. unfold stem_lyric.
  rewrite filter_all by (eapply Forall_impl; [exact Hall|]; by intros ? [_ ?]).
  rewrite fmap_fixed by (eapply Forall_impl; [exact Hall|]; by intros ? [? _]).
  apply join_split_space.
Qed.

Lemma stem_lyric_stop_words_ext stop_words1 stop_words2 raw :
  (∀ s, lower s = s → (s ∈ stop_words1 ↔ s ∈ stop_words2)) →
  stem_lyric stem stop_words1 raw = stem_lyric stem stop_words2 raw.
Proof.
  intros Hsame. unfold stem_lyric. do 2 f_equal.
  apply list_filter_iff. intros word.
  by rewrite (Hsame (lower word) (lower_idempotent word)).
Qed.

Lemma stem_lyric_resplit stop_words raw :
  (∀ word, has_space word = false → has_space (stem word) = false) →
  split_space (stem_lyric stem stop_words raw)
  = match filter (λ word, lower word ∉ stop_words) (split_space raw) with
    | [] => [""]
    | kept => stem <$> kept
    end.
Proof.
  intros Hfree. unfold stem_lyric.
  pose proof (split_space_no_space raw) as Hpieces.
  assert (Forall (λ t, has_space t = false)
                 (filter (λ word, lower word ∉ stop_words) (split_space raw))) as Hkept.
  { apply Forall_forall. intros word [_ Hin]%list_elem_of_filter.
    rewrite Forall_forall in Hpieces. by apply Hpieces. }
  destruct (filter _ (split_space raw)) as [|word kept]; [done|].
  apply split_space_join; [done|].
  apply Forall_fmap. eapply Forall_impl; [exact Hkept|]. intros t. apply Hfree.
Qed.

End NormalizerMore.

Section VectorizerMore.
Import Text Vectorizer.

Lemma build_analyzer_lower doc : build_analyzer (lower doc) = build_analyzer doc.
Proof. unfold build_analyzer. by rewrite lower_idempotent. Qed.

Lemma fit_vocabulary_Permutation docs docs' :
  docs ≡ₚ docs' → fit_vocabulary docs = fit_vocabulary docs'.
Proof.
  intros Hperm. unfold fit_vocabulary.
  apply (StronglySorted_unique String.le);
    [apply StronglySorted_merge_sort; apply _..|].
  rewrite !merge_sort_Permutation.
  apply NoDup_Permutation; [apply NoDup_remove_dups..|].
  intros term. rewrite !elem_of_remove_dups. by rewrite Hperm.
Qed.

Lemma zip_fmap_self {A B} (f : A → B) (l : list A) :
  zip l (f <$> l) = (λ x, (x, f x)) <$> l.
Proof. induction l as [|x l IH]; [done|]. csimpl. by rewrite IH. Qed.

Lemma transform_row_lookup v doc j word :
  vocabulary_ v !! j = Some word →
  transform_row v doc !! j = Some (count_of word (build_analyzer doc)).
Proof. intros Hj. unfold transform_row. by rewrite list_lookup_fmap, Hj. Qed.

Lemma count_of_pos term tokens : term ∈ tokens → 0 < count_of term tokens.
Proof.
  induction tokens as [|t tokens IH]; [by intros ?%elem_of_nil|].
  rewrite count_of_cons. intros [->|Hin]%elem_of_cons.
  - rewrite decide_True by done. lia.
  - apply IH in Hin. lia.
Qed.

Lemma count_of_zero term tokens : term ∉ tokens → count_of term tokens = 0.
Proof.
  induction tokens as [|t tokens IH]; [done|].
  rewrite count_of_cons. intros Hout.
  rewrite decide_False by set_solver. rewrite IH by set_solver. done.
Qed.

End VectorizerMore.

Section SilentRules.
Import Py Effects.
Local Open Scope py_scope.

Lemma silent_ret {A} (a : A) : silent (ret a).
Proof. by intros w. Qed.

Lemma silent_raise {A} e : silent (raise (A := A) e).
Proof. by intros w. Qed.

Lemma silent_bind {A B} (m : M A) (k : A → M B) :
  silent m → (∀ a, silent (k a)) → silent (bind m k).
Proof.
  intros Hm Hk w. rewrite run_bind. specialize (Hm w).
  destruct (run m w) as [[a|e] w1]; simpl in *; [|done].
  destruct (Hk a w1) as [-> ->]. done.
Qed.

Lemma silent_lift {A} (r : res A) : silent (lift r).
Proof. by destruct r. Qed.

Lemma silent_index {A} (xs : list A) i : silent (index xs i).
Proof. intros w. unfold index. by destruct (xs !! i). Qed.

Lemma silent_for_each {A} (xs : list A) (body : A → M unit) :
  (∀ x, silent (body x)) → silent (for_each xs body).
Proof.
  intros Hbody. induction xs as [|x xs IH]; simpl; [apply silent_ret|].
  apply silent_bind; [apply Hbody|done].
Qed.

Lemma silent_comprehension {A B} (f : A → M B) (xs : list A) :
  (∀ x, silent (f x)) → silent (comprehension f xs).
Proof.
  intros Hf. induction xs as [|x xs IH]; simpl; [apply silent_ret|].
  apply silent_bind; [apply Hf|]. intros b.
  apply silent_bind; [done|]. intros bs. apply silent_ret.
Qed.

Lemma silent_for_fold {A S} (xs : list A) (s : S) (body : S → A → M S) :
  (∀ s x, silent (body s x)) → silent (for_fold xs s body).
Proof.
  intros Hbody. revert s. induction xs as [|x xs IH]; intros s; simpl;
    [apply silent_ret|].
  apply silent_bind; [apply Hbody|]. intros s'. apply IH.
Qed.

Lemma silent_alloc o : silent (alloc o).
Proof. by intros w. Qed.

Lemma silent_dict_read d : silent (dict_read d).
Proof. intros w. unfold run, dict_read. by destruct (heap w !! d) as [[]|]. Qed.

Lemma silent_list_read l : silent (list_read l).
Proof. intros w. unfold run, list_read. by destruct (heap w !! l) as [[]|]. Qed.

Lemma silent_store l o : silent (store l o).
Proof. by intros w. Qed.

Lemma silent_dict_setitem d k v : silent (dict_setitem d k v).
Proof. apply silent_bind; [apply silent_dict_read|]. intros m. apply silent_store. Qed.

Lemma silent_dict_getitem d k : silent (dict_getitem d k).
Proof.
  apply silent_bind; [apply silent_dict_read|]. intros m.
  destruct (m !! k); [apply silent_ret|apply silent_raise].
Qed.

Lemma silent_dict_delitem d k : silent (dict_delitem d k).
Proof.
  apply silent_bind; [apply silent_dict_read|]. intros m.
  destruct (m !! k); [apply silent_store|apply silent_raise].
Qed.

Lemma silent_dict_keys d : silent (dict_keys d).
Proof. apply silent_bind; [apply silent_dict_read|]. intros m. apply silent_ret. Qed.

Lemma silent_dict_copy d : silent (dict_copy d).
Proof. apply silent_bind; [apply silent_dict_read|]. intros m. apply silent_alloc. Qed.

Lemma silent_list_append l x : silent (list_append l x).
Proof. apply silent_bind; [apply silent_list_read|]. intros xs. apply silent_store. Qed.

Lemma silent_md_getitem d k : silent (md_getitem d k).
Proof. unfold md_getitem. destruct (md_lookup d k); [apply silent_ret|apply silent_raise]. Qed.

Lemma silent_select_informative names featuresets :
  silent (Featuresets.select_informative names featuresets).
Proof.
  apply silent_bind; [apply silent_alloc|]. intros out.
  apply silent_bind; [apply silent_list_read|]. intros pairs.
  apply silent_bind; [|intros; apply silent_ret].
  apply silent_for_each. intros [d label].
  apply silent_bind; [apply silent_alloc|]. intros new.
  apply silent_bind; [apply silent_dict_keys|]. intros keys.
  apply silent_bind; [|intros; apply silent_list_append].
  apply silent_for_each. intros word. case_bool_decide; [|apply silent_ret].
  apply silent_bind; [apply silent_dict_getitem|]. intros c. apply silent_dict_setitem.
Qed.

Lemma silent_build_featuresets words vectorized_lyrics y :
  silent (Featuresets.build_featuresets words vectorized_lyrics y).
Proof.
  apply silent_bind; [apply silent_alloc|]. intros out.
  apply silent_bind; [|intros; apply silent_ret].
  apply silent_for_each. intros i.
  apply silent_bind; [apply silent_alloc|]. intros new.
  apply silent_bind.
  - apply silent_for_each. intros j.
    apply silent_bind; [apply silent_index|]. intros row.
    apply silent_bind; [apply silent_index|]. intros c.
    apply silent_bind; [apply silent_index|]. intros word.
    apply silent_dict_setitem.
  - intros _. apply silent_bind; [apply silent_index|]. intros label.
    apply silent_list_append.
Qed.

End SilentRules.

Section FreshObjects.
Import Py Hoare Featuresets Effects.
Local Open Scope py_scope.

Lemma restrict_restrict names1 names2 (m : gmap string nat) :
  restrict names2 (restrict names1 m) = restrict (filter (.∈ names2) names1) m.
Proof.
  apply map_eq. intros k. rewrite !restrict_lookup.
  destruct (decide (k ∈ names2)) as [H2|H2], (decide (k ∈ names1)) as [H1|H1].
  - rewrite decide_True; [done|]. by apply list_elem_of_filter.
  - rewrite decide_False; [done|]. by intros [_ ?]%list_elem_of_filter.
  - rewrite decide_False; [done|]. by intros [? _]%list_elem_of_filter.
  - rewrite decide_False; [done|]. by intros [? _]%list_elem_of_filter.
Qed.

Lemma restrict_ext names1 names2 (m : gmap string nat) :
  (∀ k, is_Some (m !! k) → (k ∈ names1 ↔ k ∈ names2)) →
  restrict names1 m = restrict names2 m.
Proof.
  intros Hsame. apply map_eq. intros k. rewrite !restrict_lookup.
  destruct (m !! k) as [c|] eqn:E; [|by do 2 case_decide].
  apply decide_ext, Hsame. by rewrite E.
Qed.

Lemma restrict_all names (m : gmap string nat) :
  (∀ k, is_Some (m !! k) → k ∈ names) → restrict names m = m.
Proof.
  intros Hall. apply map_eq. intros k. rewrite restrict_lookup.
  destruct (m !! k) as [c|] eqn:E; [|by case_decide].
  rewrite decide_True; [done|]. apply Hall. by rewrite E.
Qed.

Lemma created_init (h0 : gmap loc obj) :
  created h0 (<[fresh (dom h0) := OList []]> h0) (fresh (dom h0)) [].
Proof.
  pose proof (fresh_lookup_None h0) as Hout.
  split; [by apply insert_subseteq|]. rewrite lookup_insert_eq.
  split; [done|]. split; [done|]. split; [constructor|]. split; [constructor|].
  rewrite dom_insert_L. set_solver.
Qed.

Lemma created_step h0 h out outs (o : obj) (label : bool) :
  created h0 h out outs →
  let new := fresh (dom h) in
  created h0 (<[out := OList (outs ++ [(new, label)])]> (<[new := o]> h))
          out (outs ++ [(new, label)])
  ∧ new ≠ out ∧ h !! new = None
  ∧ ∀ q x, deref h q = Some x →
           deref (<[out := OList (outs ++ [(new, label)])]> (<[new := o]> h)) q = Some x.
Proof.
  intros (Hsub & Hout & Hout0 & Hnd & Hnew & Hdom) new.
  assert (Hfresh : h !! new = None) by apply fresh_lookup_None.
  assert (Hne : new ≠ out) by congruence.
  assert (Hnotin : new ∉ outs.*1).
  { intros Hin. apply not_elem_of_dom in Hfresh. apply Hfresh. rewrite Hdom.
    apply elem_of_union_r. by apply elem_of_list_to_set. }
  assert (Hnew0 : h0 !! new = None).
  { destruct (h0 !! new) eqn:E; [|done].
    eapply lookup_weaken in E; [|exact Hsub]. congruence. }
  split; [|split; [done|split; [done|] ] ].
  - split; [by do 2 (apply insert_subseteq_r; [done|])|].
    rewrite lookup_insert_eq. split; [done|]. split; [done|].
    rewrite fmap_app. simpl. split.
    { apply NoDup_app. split; [done|]. split; [|by apply NoDup_singleton].
      intros d Hd ->%list_elem_of_singleton. done. }
    split.
    { apply Forall_app. split; [done|]. by constructor; [|constructor]. }
    rewrite !dom_insert_L, Hdom, list_to_set_app_L. simpl. set_solver.
  - intros q x Hderef.
    pose proof Hderef as (m & Hm & _)%deref_Some.
    apply deref_insert_ne; [|congruence]. apply deref_insert_ne; [done|congruence].
Qed.

Lemma run_select_informative_created names featuresets w fs :
  contents (heap w) featuresets = Some fs →
  ∃ out w' outs,
    run (select_informative names featuresets) w = (Ok out, w')
    ∧ created (heap w) (heap w') out outs
    ∧ Forall2 (λ q x, q.2 = x.2 ∧ heap w' !! q.1 = Some (ODict (restrict names x.1)))
              outs fs.
Proof.
  unfold contents. intros Hfs.
  destruct (heap w !! featuresets) as [[?|pairs]|] eqn:HL; try done.
  apply mapM_Some in Hfs.
  unfold select_informative. rewrite run_bind. simpl.
  set (out := fresh (dom (heap w))).
  assert (Hout : heap w !! out = None) by apply fresh_lookup_None.
  set (w1 := set_heap _ w).
  erewrite run_bind_Ok; cycle 1.
  { apply (run_list_read _ pairs). simpl. rewrite lookup_insert_ne; [done|]. congruence. }
  edestruct (run_for_each
    (λ done w', ∃ outs,
       created (heap w) (heap w') out outs
       ∧ Forall2 (λ q x, q.2 = x.2 ∧ heap w' !! q.1 = Some (ODict (restrict names x.1)))
                 outs (take (length done) fs)) pairs) as (w' & Hrun & outs & Hcr & Hall);
    [| |rewrite run_bind, Hrun; exists out, w', outs; split; [done|split; [done|] ] ].
  - exists []. split; [apply created_init|]. rewrite take_0. constructor.
  - intros done [d label] rest w2 Hxs (outs & Hcr & Hall).
    assert (pairs !! length done = Some (d, label)) as Hd.
    { rewrite Hxs. by apply list_lookup_middle. }
    destruct (Forall2_lookup_l _ _ _ _ _ Hfs Hd) as (x & Hx & Hderef).
    apply deref_Some in Hderef as (m & Hm & ->). simpl in *.
    destruct (created_step _ _ _ _ (ODict (restrict names m)) label Hcr)
      as (Hcr' & Hne & Hnew & Hkeep).
    pose proof Hcr as (Hsub & Ho & _).
    rewrite run_bind. simpl.
    set (new := fresh (dom (heap w2))) in *.
    assert (Hm2 : heap w2 !! d = Some (ODict m)) by (by eapply lookup_weaken).
    assert (d ≠ new) by congruence.
    erewrite run_bind_Ok; cycle 1.
    { apply (run_dict_keys _ m). simpl. by rewrite lookup_insert_ne. }
    destruct (run_select_inner names d new m (heap w2) (set_heap (<[new:=ODict ∅]> (heap w2)) w2))
      as (w3 & Hrun3 & Hw3); [done..|].
    rewrite run_bind, Hrun3.
    erewrite run_list_append; cycle 1.
    { rewrite Hw3, lookup_insert_ne by done. exact Ho. }
    eexists. split; [done|]. simpl. rewrite Hw3.
    exists (outs ++ [(new, label)]). split; [done|].
    rewrite length_app. simpl. rewrite Nat.add_1_r.
    rewrite (take_S_r _ _ _ Hx). apply Forall2_app.
    + eapply Forall2_impl; [exact Hall|]. intros q x [Hq2 Hq1]. split; [done|].
      rewrite !lookup_insert_ne; [done|congruence..].
    + constructor; [|constructor]. simpl. split; [done|].
      by rewrite lookup_insert_ne, lookup_insert_eq.
  - rewrite take_ge in Hall; [done|].
    by rewrite (Forall2_length _ _ _ Hfs).
Qed.

Lemma run_build_featuresets_created words vectorized_lyrics y w :
  NoDup words →
  Forall (λ row, length words ≤ length row) vectorized_lyrics →
  length y ≤ length vectorized_lyrics →
  ∃ out w' outs,
    run (build_featuresets words vectorized_lyrics y) w = (Ok out, w')
    ∧ created (heap w) (heap w') out outs
    ∧ Forall2 (λ q x, q.2 = x.2 ∧ heap w' !! q.1 = Some (ODict x.1)) outs
        (zip_with (λ row label, (feature_map words row, label)) vectorized_lyrics y).
Proof.
  intros Hnd Hrows Hlen.
  set (target := zip_with (λ row label, (feature_map words row, label))
                          vectorized_lyrics y).
  unfold build_featuresets. rewrite run_bind. simpl.
  set (out := fresh (dom (heap w))).
  assert (Hout : heap w !! out = None) by apply fresh_lookup_None.
  edestruct (run_for_each
    (λ (done : list nat) w', ∃ outs,
       created (heap w) (heap w') out outs
       ∧ Forall2 (λ q x, q.2 = x.2 ∧ heap w' !! q.1 = Some (ODict x.1))
                 outs (take (length done) target)) (seq 0 (length y)))
    as (w' & Hrun & outs & Hcr & Hall);
    [| |rewrite run_bind, Hrun; exists out, w', outs; split; [done|split; [done|] ] ].
  - exists []. split; [apply created_init|]. rewrite take_0. constructor.
  - intros done i rest w2 Hxs (outs & Hcr & Hall).
    apply seq_middle in Hxs as [-> Hi].
    assert (is_Some (y !! length done)) as [label Hlabel] by by apply lookup_lt_is_Some.
    assert (is_Some (vectorized_lyrics !! length done)) as [row Hrow]
      by (apply lookup_lt_is_Some; lia).
    assert (length words ≤ length row) as Hlenrow.
    { rewrite Forall_forall in Hrows. apply Hrows. by eapply list_elem_of_lookup_2. }
    destruct (created_step _ _ _ _ (ODict (feature_map words row)) label Hcr)
      as (Hcr' & Hne & Hnew & Hkeep).
    pose proof Hcr as (Hsub & Ho & _).
    rewrite run_bind. simpl.
    set (new := fresh (dom (heap w2))) in *.
    destruct (run_build_inner words vectorized_lyrics (length done) row new (heap w2)
                (set_heap (<[new:=ODict ∅]> (heap w2)) w2))
      as (w3 & Hrun3 & Hw3); [done..|].
    rewrite run_bind, Hrun3.
    erewrite run_bind_Ok by by apply run_index.
    erewrite run_list_append; cycle 1.
    { rewrite Hw3, lookup_insert_ne by done. exact Ho. }
    eexists. split; [done|]. simpl. rewrite Hw3.
    exists (outs ++ [(new, label)]). split; [done|].
    rewrite length_app. simpl. rewrite Nat.add_1_r.
    assert (target !! length done = Some (feature_map words row, label)) as Ht.
    { unfold target. rewrite lookup_zip_with, Hrow. simpl. by rewrite Hlabel. }
    rewrite (take_S_r _ _ _ Ht). apply Forall2_app.
    + eapply Forall2_impl; [exact Hall|]. intros q x [Hq2 Hq1]. split; [done|].
      rewrite !lookup_insert_ne; [done|congruence..].
    + constructor; [|constructor]. simpl. split; [done|].
      by rewrite lookup_insert_ne, lookup_insert_eq.
  - rewrite take_ge in Hall; [done|].
    unfold target. rewrite length_zip_with, length_seq. lia.
Qed.

End FreshObjects.

Section TrainRun.
Import Py Hoare Effects NaiveBayes Metrics Featuresets.
Local Open Scope py_scope.

Lemma silent_train trainSet : silent (train trainSet).
Proof.
  apply silent_bind; [|intros; apply silent_ret].
  apply silent_comprehension. intros [d label].
  apply silent_bind; [apply silent_dict_read|]. intros m. apply silent_ret.
Qed.

(** The subsets of the split, by the positions the permutation gives. *)
Lemma run_comprehension_lookup {A} (array : list A) inds w :
  Forall (λ i, i < length array) inds →
  ∃ xs, run (comprehension (index array) inds) w = (Ok xs, w)
        ∧ Forall2 (λ i x, array !! i = Some x) inds xs.
Proof.
  induction 1 as [|i inds Hi _ (xs & Hrun & Hall)]; simpl.
  - by exists [].
  - apply lookup_lt_is_Some in Hi as [x Hx].
    exists (x :: xs). erewrite run_bind_Ok by by apply run_index.
    rewrite run_bind, Hrun. simpl. split; [done|]. by constructor.
Qed.

Lemma train_run trainSet sample w :
  Forall2 (λ pair x, deref (heap w) pair = Some x) trainSet sample →
  run (train trainSet) w = (Ok {| training := sample |}, w).
Proof.
  intros Hall. unfold train.
  cut (run (comprehension
              (λ '(featureset, label),
                 let* m := dict_read featureset in ret (m, label))
              trainSet) w = (Ok sample, w)).
  { intros Hs. by rewrite run_bind, Hs. }
  induction Hall as [|[d label] x trainSet sample (m & Hm & ->)%deref_Some _ IH]; simpl;
    [done|].
  rewrite run_bind. erewrite (run_bind_Ok (dict_read d)) by by apply run_dict_read.
  simpl. by rewrite run_bind, IH.
Qed.

Lemma Forall2_lookup_compose {A B} (P : A → B → Prop) (l : list A) (k : list B)
    (inds : list nat) (xs : list A) :
  Forall2 P l k → Forall2 (λ i x, l !! i = Some x) inds xs →
  ∃ ys, Forall2 (λ i y, k !! i = Some y) inds ys ∧ Forall2 P xs ys.
Proof.
  intros Hlk Hall. induction Hall as [|i x inds xs Hi _ (ys & Hys & HP)].
  - by exists [].
  - destruct (Forall2_lookup_l _ _ _ _ _ Hlk Hi) as (y & Hy & Hxy).
    exists (y :: ys). split; by constructor.
Qed.

End TrainRun.

Section ClassifyRun.
Import Py Hoare Effects NaiveBayes Metrics Featuresets.
Local Open Scope py_scope.
Variable posterior_argmax : list (gmap string nat * bool) → gmap string nat → bool.

Lemma silent_classify classifier features :
  silent (classify posterior_argmax classifier features).
Proof.
  apply silent_bind; [apply silent_dict_copy|]. intros copy.
  apply silent_bind; [apply silent_dict_keys|]. intros fnames.
  apply silent_bind.
  - apply silent_for_each. intros fname.
    destruct (known_fname classifier fname); [apply silent_ret|apply silent_dict_delitem].
  - intros _. apply silent_bind; [apply silent_dict_read|]. intros m. apply silent_ret.
Qed.

(** [classify] decides on the entries whose name the classifier knows:
    the others are deleted from the copy before the decision. *)
Lemma classify_run classifier features m w :
  heap w !! features = Some (ODict m) →
  ∃ w', run (classify posterior_argmax classifier features) w
        = (Ok (posterior_argmax (training classifier)
                 (filter (λ kv, known_fname classifier kv.1 = true) m)), w')
        ∧ heap w ⊆ heap w'
        ∧ rng_calls w' = rng_calls w ∧ stdout w' = stdout w.
Proof.
  intros Hm.
  cut (∃ w', run (classify posterior_argmax classifier features) w
             = (Ok (posterior_argmax (training classifier)
                      (filter (λ kv, known_fname classifier kv.1 = true) m)), w')).
  { intros (w' & Hrun). exists w'. split; [done|].
    pose proof (classify_frames (heap w) posterior_argmax classifier features w) as H.
    pose proof (silent_classify classifier features w) as Hs.
    rewrite Hrun in H, Hs. split; [by apply H|done]. }
  unfold classify, dict_copy.
  erewrite (run_bind_Ok (let* m := dict_read features in alloc (ODict m)));
    [|by erewrite run_bind_Ok by by apply run_dict_read].
  set (copy := fresh (dom (heap w))).
  set (w1 := set_heap _ w).
  erewrite run_bind_Ok; cycle 1.
  { apply (run_dict_keys _ m). simpl. by rewrite lookup_insert_eq. }
  edestruct (run_for_each
    (λ done w', ∃ acc, heap w' !! copy = Some (ODict acc)
                ∧ ∀ k, acc !! k = if decide (k ∈ done ∧ known_fname classifier k = false)
                                  then None else m !! k)
    (map_to_list m).*1
    (λ fname, if known_fname classifier fname then ret tt
              else dict_delitem copy fname) w1) as (w2 & Hrun & acc & Hacc & Hagree).
  - exists m. split; [simpl; by rewrite lookup_insert_eq|]. intros k.
    rewrite decide_False; [done|]. by intros [?%elem_of_nil _].
  - intros done fname rest w' Hxs (acc & Hacc & Hagree).
    destruct (known_fname classifier fname) eqn:Hknown.
    + eexists. split; [done|]. exists acc. split; [done|].
      intros k. rewrite Hagree. apply decide_ext.
      rewrite elem_of_app, list_elem_of_singleton. split; [tauto|].
      intros [[?| ->] ?]; [done|congruence].
    + assert (fname ∉ done) as Hfresh.
      { pose proof (NoDup_fst_map_to_list m) as Hnd. rewrite Hxs in Hnd.
        apply NoDup_app in Hnd as (_ & Hnd & _). intros Hin.
        apply (Hnd _ Hin). set_solver. }
      assert (is_Some (m !! fname)) as [v Hv].
      { apply elem_of_keys. rewrite Hxs. set_solver. }
      erewrite run_dict_delitem; [|done|]; cycle 1.
      { rewrite Hagree, decide_False; [done|]. by intros [? _]. }
      eexists. split; [done|]. exists (delete fname acc). simpl.
      rewrite lookup_insert_eq. split; [done|].
      intros k. destruct (decide (k = fname)) as [->|Hk].
      * rewrite lookup_delete_eq, decide_True; [done|]. set_solver.
      * rewrite lookup_delete_ne, Hagree by done. apply decide_ext. set_solver.
  - assert (acc = filter (λ kv, known_fname classifier kv.1 = true) m) as ->; cycle 1.
    { rewrite run_bind, Hrun.
      erewrite run_bind_Ok by by apply run_dict_read. by eexists. }
    apply map_eq. intros k. rewrite Hagree.
    destruct (m !! k) as [v|] eqn:Hk.
    + destruct (known_fname classifier k) eqn:Hknown.
      * rewrite decide_False by (by intros [_ ?]). symmetry.
        by apply map_lookup_filter_Some.
      * rewrite decide_True; cycle 1.
        { split; [|done]. apply elem_of_keys. by rewrite Hk. }
        symmetry. apply map_lookup_filter_None. right. intros v' _. simpl. congruence.
    + transitivity (@None nat); [by case_decide|]. symmetry.
      apply map_lookup_filter_None. by left.
Qed.

Lemma classify_all_run classifier test_features test w :
  Forall2 (λ d m, heap w !! d = Some (ODict m)) test_features test →
  ∃ w', run (comprehension (classify posterior_argmax classifier) test_features) w
        = (Ok ((λ m, posterior_argmax (training classifier)
                       (filter (λ kv, known_fname classifier kv.1 = true) m)) <$> test), w')
        ∧ heap w ⊆ heap w'
        ∧ rng_calls w' = rng_calls w ∧ stdout w' = stdout w.
Proof.
  revert test w.
  induction test_features as [|d ds IH]; intros test w Hall.
  - apply Forall2_nil_inv_l in Hall as ->. by exists w.
  - apply Forall2_cons_inv_l in Hall as (m & ms & Hm & Hms & ->).
    destruct (classify_run classifier d m w Hm) as (w1 & Hrun & Hsub & Hrng & Hout).
    destruct (IH ms w1) as (w2 & Hrun2 & Hsub2 & Hrng2 & Hout2).
    { eapply Forall2_impl; [exact Hms|]. intros d' m' Hm'. simpl.
      eapply lookup_weaken; [exact Hm'|exact Hsub]. }
    exists w2. simpl. rewrite run_bind, Hrun, run_bind, Hrun2.
    split; [done|]. split; [by etransitivity|]. split; congruence.
Qed.

End ClassifyRun.

Section NaiveBayesRun.
Import Py Hoare Effects NaiveBayes Metrics Featuresets.
Local Open Scope py_scope.
Variable rng_permutation : nat → nat → list nat.
Variable posterior_argmax : list (gmap string nat * bool) → gmap string nat → bool.
Variable render_ok : list (list nat) → list string → bool.

Lemma train_test_split_run featuresets pairs w :
  heap w !! featuresets = Some (OList pairs) → 2 ≤ length pairs →
  Forall (λ i, i < length pairs) (rng_permutation (rng_calls w) (length pairs)) →
  let n_test := (length pairs + 3) / 4 in
  let permutation := rng_permutation (rng_calls w) (length pairs) in
  ∃ trainSet testSet,
    run (train_test_split rng_permutation featuresets) w
    = (Ok (trainSet, testSet),
       {| heap := heap w; rng_calls := S (rng_calls w); stdout := stdout w |})
    ∧ Forall2 (λ i x, pairs !! i = Some x)
              (take (length pairs - n_test) (drop n_test permutation)) trainSet
    ∧ Forall2 (λ i x, pairs !! i = Some x) (take n_test permutation) testSet.
Proof.
  intros HL Hn Hlt n_test perm. unfold train_test_split.
  erewrite run_bind_Ok by by apply run_list_read.
  destruct (test_size_bounds _ Hn) as [Hlo Hhi].
  destruct (Nat.eqb_spec (length pairs - (length pairs + 3) / 4) 0) as [|_]; [lia|].
  set (w1 := {| heap := heap w; rng_calls := S (rng_calls w); stdout := stdout w |}).
  rewrite (run_bind_Ok _ _ w perm w1) by done.
  destruct (run_comprehension_lookup pairs
              (take (length pairs - n_test) (drop n_test perm)) w1)
    as (trainSet & Htr & Htrain).
  { by apply Forall_take, Forall_drop. }
  destruct (run_comprehension_lookup pairs (take n_test perm) w1)
    as (testSet & Hte & Htest).
  { by apply Forall_take. }
  exists trainSet, testSet. fold n_test. rewrite run_bind, Htr, run_bind, Hte. done.
Qed.

(** What one evaluation run does, on a well-formed list of at least two
    featuresets and a draw whose entries are positions of the list. *)
Lemma naive_bayes_run featuresets printMetrics showConfusionMatrix w fs :
  contents (heap w) featuresets = Some fs → 2 ≤ length fs →
  rng_permutation (rng_calls w) (length fs) ≡ₚ seq 0 (length fs) →
  let n_test := (length fs + 3) / 4 in
  let permutation := rng_permutation (rng_calls w) (length fs) in
  ∃ sample test p r f s w',
    Forall2 (λ i x, fs !! i = Some x)
            (take (length fs - n_test) (drop n_test permutation)) sample
    ∧ Forall2 (λ i x, fs !! i = Some x) (take n_test permutation) test
    ∧ let classifier := {| training := sample |} in
      let predictY :=
        (λ x, posterior_argmax sample
                (filter (λ kv, known_fname classifier kv.1 = true) x.1)) <$> test in
      let confusionMatrix := confusion_matrix test.*2 predictY in
      let labels := ["Not Explicit"; "Explicit"] in
      precision_recall_fscore_support test.*2 predictY = Ok (p, r, f, s)
      ∧ run (naive_bayes rng_permutation posterior_argmax render_ok
                         featuresets printMetrics showConfusionMatrix) w
        = (if showConfusionMatrix && negb (render_ok confusionMatrix labels)
           then Raise RenderError else Ok (classifier, metrics_of p r f s), w')
      ∧ heap w ⊆ heap w'
      ∧ rng_calls w' = S (rng_calls w)
      ∧ stdout w'
        = stdout w
          ++ (if printMetrics
              then [Printed "precision" (NdFloat p); Printed "recall" (NdFloat r);
                    Printed "f-score" (NdFloat f); Printed "support" s]
              else [])
          ++ (if showConfusionMatrix && render_ok confusionMatrix labels
              then [Plotted confusionMatrix labels] else []).
Proof.
  unfold contents. intros Hfs Hn Hperm.
  destruct (heap w !! featuresets) as [[?|pairs]|] eqn:HL; try done.
  apply mapM_Some in Hfs.
  pose proof (Forall2_length _ _ _ Hfs) as Hlen.
  rewrite <- Hlen in *.
  assert (Hlt : Forall (λ i, i < length pairs)
                       (rng_permutation (rng_calls w) (length pairs))).
  { rewrite Hperm. apply Forall_forall. intros i Hi%elem_of_seq. lia. }
  assert (Hplen : length (rng_permutation (rng_calls w) (length pairs)) = length pairs)
    by by rewrite Hperm, length_seq.
  destruct (train_test_split_run featuresets pairs w HL Hn Hlt)
    as (trainSet & testSet & Hsplit & Htrain & Htest).
  set (w1 := {| heap := heap w; rng_calls := S (rng_calls w); stdout := stdout w |}) in *.
  destruct (Forall2_lookup_compose _ _ _ _ _ Hfs Htrain) as (sample & Hsample & Htr).
  destruct (Forall2_lookup_compose _ _ _ _ _ Hfs Htest) as (test & Htestfs & Hte).
  pose proof (train_run trainSet sample w1 Htr) as Hcl.
  set (classifier := {| training := sample |}) in *.
  assert (testSet ≠ []) as Hne.
  { intros ->. apply Forall2_length in Htest.
    destruct (test_size_bounds _ Hn) as [H1 _].
    rewrite length_take, Hplen in Htest. change (length []) with 0 in Htest. lia. }
  destruct (classify_all_run posterior_argmax classifier testSet.*1 test.*1 w1)
    as (w2 & Hpred & Hsub2 & Hrng2 & Hout2).
  { apply Forall2_fmap. eapply Forall2_impl; [exact Hte|].
    intros pair x (m & Hm & ->)%deref_Some. done. }
  assert (testSet.*2 = test.*2) as Hlabels.
  { clear -Hte. induction Hte as [|pair x ?? (m & _ & ->)%deref_Some _ IH]; [done|].
    csimpl. by rewrite IH. }
  rewrite <- list_fmap_compose in Hpred.
  set (predictY :=
         (λ x : gmap string nat * bool,
            posterior_argmax sample
              (filter (λ kv : string * nat, known_fname classifier kv.1 = true) x.1))
           <$> test).
  change (_ <$> test) with predictY in Hpred.
  destruct (prfs_Ok test.*2 predictY) as (p & r & f & s & Hprfs).
  { unfold predictY. by rewrite !length_fmap. }
  { rewrite <- Hlabels. by destruct testSet. }
  set (printed := if printMetrics
                  then [Printed "precision" (NdFloat p); Printed "recall" (NdFloat r);
                        Printed "f-score" (NdFloat f); Printed "support" s]
                  else []).
  set (w3 := {| heap := heap w2; rng_calls := rng_calls w2;
                stdout := stdout w2 ++ printed |}).
  set (cm := confusion_matrix test.*2 predictY).
  set (labels := ["Not Explicit"; "Explicit"]).
  set (w4 := {| heap := heap w3; rng_calls := rng_calls w3;
                stdout := stdout w3 ++ if showConfusionMatrix && render_ok cm labels
                                       then [Plotted cm labels] else [] |}).
  exists sample, test, p, r, f, s, w4.
  split; [done|]. split; [done|]. split; [done|]. split; cycle 1.
  { simpl. split; [done|]. split; [done|]. by rewrite Hout2, <- app_assoc. }
  unfold naive_bayes.
  rewrite (run_bind_Ok _ _ _ _ _ Hsplit). cbv beta iota.
  rewrite (run_bind_Ok _ _ _ _ _ Hcl).
  destruct testSet as [|pair testSet']; [done|].
  rewrite (run_bind_Ok _ _ w1 (snd <$> pair :: testSet') w1) by done.
  rewrite (run_bind_Ok _ _ w1 (fst <$> pair :: testSet') w1) by done.
  rewrite (run_bind_Ok _ _ _ _ _ Hpred).
  rewrite Hlabels, Hprfs. rewrite (run_bind_Ok _ _ w2 (p, r, f, s) w2) by done.
  cbv beta iota.
  rewrite (run_bind_Ok _ _ w2 tt w3); cycle 1.
  { unfold w3, printed. destruct printMetrics.
    - cbv -[app]. by rewrite <- !app_assoc.
    - destruct w2. simpl. by rewrite app_nil_r. }
  rewrite run_bind. unfold w4, w3. clear Hcl Hpred. subst cm labels predictY classifier.
  destruct showConfusionMatrix; simpl.
  - destruct (render_ok _ _); simpl; [reflexivity|]. by rewrite app_nil_r.
  - by rewrite app_nil_r.
Qed.

End NaiveBayesRun.

Section SplitFacts.

Lemma Forall2_lookup_seq {A} (l k : list A) :
  Forall2 (λ i x, l !! i = Some x) (seq 0 (length l)) k → k = l.
Proof.
  intros Hall. apply list_eq. intros i.
  destruct (decide (i < length l)) as [Hi|Hi].
  - assert (seq 0 (length l) !! i = Some i) as Hseq by by apply lookup_seq.
    destruct (Forall2_lookup_l _ _ _ _ _ Hall Hseq) as (x & -> & Hx). done.
  - rewrite (lookup_ge_None_2 l) by lia. apply lookup_ge_None_2.
    rewrite <- (Forall2_length _ _ _ Hall), length_seq. lia.
Qed.

(** The items at the positions of a permutation, cut in two, are the
    items of the list, each exactly once. *)
Lemma split_Permutation {A} (l : list A) (permutation : list nat) n_test test rest :
  permutation ≡ₚ seq 0 (length l) →
  Forall2 (λ i x, l !! i = Some x) (take n_test permutation) test →
  Forall2 (λ i x, l !! i = Some x)
          (take (length l - n_test) (drop n_test permutation)) rest →
  rest ++ test ≡ₚ l.
Proof.
  intros Hperm Htest Hrest.
  rewrite take_ge in Hrest; cycle 1.
  { rewrite length_drop, Hperm, length_seq. lia. }
  pose proof (Forall2_app Htest Hrest) as Hall.
  rewrite take_drop in Hall.
  destruct (Permutation_Forall2 Hperm Hall) as (k & Hk & Hseq).
  apply Forall2_lookup_seq in Hseq as ->.
  by rewrite <- Hk, Permutation_app_comm.
Qed.

End SplitFacts.

Section DrawRules.
Import Py Hoare Effects.
Local Open Scope py_scope.

Lemma draws_ret {A} (Q : A → Prop) a : Q a → draws 0 Q (ret a).
Proof. intros HQ w. simpl. split; [done|]. split; [done|lia]. Qed.

Lemma draws_raise {A} (Q : A → Prop) k e : draws k Q (raise e).
Proof. intros w. simpl. split; [done|lia]. Qed.

Lemma draws_bind {A B} j k (Q1 : A → Prop) (Q : B → Prop) (m : M A) (f : A → M B) :
  draws j Q1 m → (∀ a, Q1 a → draws k Q (f a)) → draws (j + k) Q (bind m f).
Proof.
  intros Hm Hf w. rewrite run_bind. specialize (Hm w).
  destruct (run m w) as [[a|e] w1]; simpl in *.
  - destruct Hm as (Hout & Ha & Hrng). specialize (Hf a Ha w1).
    destruct (run (f a) w1) as [[b|e] w2]; simpl in *.
    + destruct Hf as (Hout2 & Hb & Hrng2). split; [congruence|]. split; [done|lia].
    + destruct Hf as (Hout2 & Hrng2). split; [congruence|lia].
  - destruct Hm as (Hout & Hrng). split; [done|lia].
Qed.

Lemma draws_bind_l {A B} k (Q1 : A → Prop) (Q : B → Prop) (m : M A) (f : A → M B) :
  draws 0 Q1 m → (∀ a, Q1 a → draws k Q (f a)) → draws k Q (bind m f).
Proof. intros Hm Hf. by apply (draws_bind 0 k Q1). Qed.

Lemma draws_bind_r {A B} k (Q1 : A → Prop) (Q : B → Prop) (m : M A) (f : A → M B) :
  draws k Q1 m → (∀ a, Q1 a → draws 0 Q (f a)) → draws k Q (bind m f).
Proof.
  intros Hm Hf. replace k with (k + 0) by lia. by apply (draws_bind k 0 Q1).
Qed.

Lemma draws_silent {A} (m : M A) : silent m → draws 0 any m.
Proof.
  intros Hm w. destruct (Hm w) as [Hrng Hout]. split; [done|].
  destruct (run m w).1; [split; [done|lia]|lia].
Qed.

Lemma draws_strengthen {A} k (Q Q' : A → Prop) (m : M A) :
  draws k Q m → (∀ w a, (run m w).1 = Ok a → Q a → Q' a) → draws k Q' m.
Proof.
  intros Hm HQ w. specialize (Hm w). specialize (HQ w).
  destruct (run m w).1; [|done]. destruct Hm as (? & ? & ?). by auto.
Qed.

Lemma draws_for_fold {A S} k (I : S → Prop) (xs : list A) (s : S) (body : S → A → M S) :
  I s → (∀ s x, I s → draws k I (body s x)) →
  draws (length xs * k) I (for_fold xs s body).
Proof.
  intros Hs Hbody. revert s Hs. induction xs as [|x xs IH]; intros s Hs; simpl.
  - by apply draws_ret.
  - apply (draws_bind k (length xs * k) I); [by apply Hbody|]. intros s'. apply IH.
Qed.

Lemma draws_md_getitem d k : draws 0 (λ v, md_lookup d k = Some v) (md_getitem d k).
Proof.
  unfold md_getitem. destruct (md_lookup d k); [by apply draws_ret|apply draws_raise].
Qed.

Lemma md_setitem_keys d k v v' :
  md_lookup d k = Some v → md_keys (md_setitem d k v') = md_keys d.
Proof.
  unfold md_keys. induction d as [|[k1 v1] d IH]; simpl; [done|].
  case_bool_decide; [done|]. intros Hv. csimpl. by rewrite IH.
Qed.

Lemma md_keys_four (d : metrics_dict) :
  md_keys d = metric_names →
  ∃ vp vr vf vs, d = [("precision", vp); ("recall", vr); ("f-score", vf); ("support", vs)].
Proof.
  unfold md_keys, metric_names.
  destruct d as [|[k1 v1] [|[k2 v2] [|[k3 v3] [|[k4 v4] [|? ?] ] ] ] ]; try done.
  intros [= -> -> -> ->]. eauto.
Qed.

End DrawRules.

Section HeapRules.
Import Py Hoare.
Local Open Scope py_scope.
Variable h0 : gmap loc obj.

Lemma frames_for_fold {A S} (xs : list A) (s : S) (body : S → A → M S) :
  (∀ s x, frames h0 (body s x) any) → frames h0 (for_fold xs s body) any.
Proof.
  intros Hbody. revert s. induction xs as [|x xs IH]; intros s; simpl.
  - by apply frames_ret.
  - eapply frames_bind; [apply Hbody|]. intros s' _. apply IH.
Qed.

Lemma frames_md_getitem d k : frames h0 (md_getitem d k) any.
Proof.
  unfold md_getitem. destruct (md_lookup d k); [by apply frames_ret|apply frames_raise].
Qed.

End HeapRules.

Section MonteCarloRun.
Import Py Hoare Effects NaiveBayes Metrics Arith MonteCarlo.
Local Open Scope py_scope.
Variable rng_permutation : nat → nat → list nat.
Variable posterior_argmax : list (gmap string nat * bool) → gmap string nat → bool.
Variable render_ok : list (list nat) → list string → bool.

Lemma draws_train_test_split featuresets :
  draws 1 any (train_test_split rng_permutation featuresets).
Proof.
  apply (draws_bind_l 1 any); [apply draws_silent, silent_list_read|].
  intros array _. cbv zeta.
  match goal with |- context [if ?b then _ else _] => destruct b end;
    [apply draws_raise|].
  apply (draws_bind_r 1 any).
  { intros w. simpl. split; [done|]. split; [done|lia]. }
  intros perm _.
  apply (draws_bind_l 0 any).
  { apply draws_silent, silent_comprehension. intros i. apply silent_index. }
  intros train _.
  apply (draws_bind_l 0 any).
  { apply draws_silent, silent_comprehension. intros i. apply silent_index. }
  intros test _. by apply draws_ret.
Qed.

Lemma silent_column {A} testSet (proj : loc * bool → A) : silent (column testSet proj).
Proof. destruct testSet; [apply silent_raise|apply silent_ret]. Qed.

(** A run without output draws one permutation and returns a dictionary
    with the four metric names. *)
Lemma draws_naive_bayes featuresets :
  draws 1 (λ cm, md_keys cm.2 = metric_names)
        (naive_bayes rng_permutation posterior_argmax render_ok featuresets false false).
Proof.
  apply (draws_strengthen 1 any); cycle 1.
  { intros w [c m] Hrun _.
    destruct (run _ w) as [r w'] eqn:E. simpl in Hrun. subst r.
    by apply naive_bayes_returns in E as (? & ? & ? & ? & ? & ? & ? & _ & _ & -> & _). }
  apply (draws_bind_r 1 any); [apply draws_train_test_split|].
  intros [trainSet testSet] _.
  apply (draws_bind_l 0 any); [apply draws_silent, silent_train|]. intros c _.
  apply (draws_bind_l 0 any); [apply draws_silent, silent_column|]. intros testY _.
  apply (draws_bind_l 0 any); [apply draws_silent, silent_column|]. intros test_features _.
  apply (draws_bind_l 0 any).
  { apply draws_silent, silent_comprehension. intros d. apply silent_classify. }
  intros predictY _.
  apply (draws_bind_l 0 any); [apply draws_silent, silent_lift|].
  intros [[[p r] f] s] _.
  apply (draws_bind_l 0 any); [by apply draws_ret|]. intros _ _.
  apply (draws_bind_l 0 any); [by apply draws_ret|]. intros _ _.
  by apply draws_ret.
Qed.

(** The first loop of the validator: the accumulators keep their four
    keys, and [metrics], when bound, has them too. *)
Lemma draws_MonteCarlo_runs featuresets (n : nat) start :
  md_keys start = metric_names →
  draws n (λ st, md_keys st.1 = metric_names
                 ∧ match st.2 with
                   | Some metrics => md_keys metrics = metric_names
                   | None => True
                   end)
    (for_fold (seq 0 n) (start, None)
       (λ '(metrics_averages, _) _,
          let* (_, metrics) :=
            naive_bayes rng_permutation posterior_argmax render_ok
                        featuresets false false in
          let* metrics_averages :=
            for_fold (md_keys metrics) metrics_averages
              (λ metrics_averages metric,
                 let* a := md_getitem metrics_averages metric in
                 let* b := md_getitem metrics metric in
                 let* sum := lift (iadd a b) in
                 ret (md_setitem metrics_averages metric sum)) in
          ret (metrics_averages, Some metrics))).
Proof.
  intros Hstart.
  replace n with (length (seq 0 n) * 1) at 1 by (rewrite length_seq; lia).
  apply draws_for_fold; [done|].
  intros [avgs last] _ [Havgs _]. simpl in Havgs.
  apply (draws_bind_r 1 (λ cm, md_keys cm.2 = metric_names));
    [apply draws_naive_bayes|].
  intros [c m] Hm. simpl in Hm.
  apply (draws_bind_l 0 (λ acc, md_keys acc = metric_names)); cycle 1.
  { intros acc Hacc. by apply draws_ret. }
  replace 0 with (length (md_keys m) * 0) by lia.
  apply draws_for_fold; [done|]. intros acc metric Hacc.
  apply (draws_bind_l 0 (λ a, md_lookup acc metric = Some a));
    [apply draws_md_getitem|]. intros a Ha.
  apply (draws_bind_l 0 any); [apply draws_silent, silent_md_getitem|]. intros b _.
  apply (draws_bind_l 0 any); [apply draws_silent, silent_lift|]. intros sum _.
  apply draws_ret. by rewrite (md_setitem_keys _ _ a).
Qed.

(** The second loop of the validator. *)
Lemma draws_MonteCarlo_divide (metrics_averages : metrics_dict) (n : Z) :
  md_keys metrics_averages = metric_names →
  draws 0 (λ acc, md_keys acc = metric_names)
    (for_fold (md_keys metrics_averages) metrics_averages
       (λ acc metric,
          let* a := md_getitem acc metric in
          let* q := lift (truediv a n) in
          ret (md_setitem acc metric q))).
Proof.
  intros Hkeys.
  replace 0 with (length (md_keys metrics_averages) * 0) by lia.
  apply draws_for_fold; [done|]. intros acc metric Hacc.
  apply (draws_bind_l 0 (λ a, md_lookup acc metric = Some a));
    [apply draws_md_getitem|]. intros a Ha.
  apply (draws_bind_l 0 any); [apply draws_silent, silent_lift|]. intros q _.
  apply draws_ret. by rewrite (md_setitem_keys _ _ a).
Qed.

Lemma MonteCarlo_frames h0 featuresets n :
  frames h0 (MonteCarloCrossValidation rng_permutation posterior_argmax render_ok
                                       featuresets n) any.
Proof.
  unfold MonteCarloCrossValidation.
  eapply frames_bind.
  { apply frames_for_fold. intros [avgs last] _.
    eapply frames_bind; [apply naive_bayes_frames|]. intros [c m] _.
    eapply frames_bind; [|intros; by apply frames_ret].
    apply frames_for_fold. intros acc metric.
    eapply frames_bind; [apply frames_md_getitem|]. intros a _.
    eapply frames_bind; [apply frames_md_getitem|]. intros b _.
    eapply frames_bind; [apply frames_lift|]. intros sum _. by apply frames_ret. }
  intros [avgs metrics] _.
  eapply frames_bind.
  { apply frames_for_fold. intros acc metric.
    eapply frames_bind; [apply frames_md_getitem|]. intros a _.
    eapply frames_bind; [apply frames_lift|]. intros q _. by apply frames_ret. }
  intros avgs' _.
  eapply frames_bind.
  { instantiate (1 := any). destruct metrics; [by apply frames_ret|apply frames_raise]. }
  intros metrics' _.
  eapply frames_bind; [|intros; by apply frames_ret].
  apply frames_for_each. intros metric.
  eapply frames_bind; [apply frames_md_getitem|]. intros v _. apply frames_print.
Qed.

(** The validator as a whole: the draws it makes and the lines it
    prints. *)
Lemma MonteCarlo_run_effects featuresets (n : Z) w :
  let outcome := run (MonteCarloCrossValidation rng_permutation posterior_argmax
                                                render_ok featuresets n) w in
  match outcome.1 with
  | Ok metrics_averages =>
      ∃ vp vr vf vs,
        metrics_averages
        = [("precision", vp); ("recall", vr); ("f-score", vf); ("support", vs)]
        ∧ stdout outcome.2
          = stdout w ++ [Printed "average precision" vp; Printed "average recall" vr;
                         Printed "average f-score" vf; Printed "average support" vs]
        ∧ rng_calls outcome.2 = rng_calls w + Z.to_nat n
  | Raise _ =>
      stdout outcome.2 = stdout w
      ∧ rng_calls w ≤ rng_calls outcome.2 ≤ rng_calls w + Z.to_nat n
  end.
Proof.
  intros outcome. unfold outcome, MonteCarloCrossValidation.
  rewrite run_bind.
  pose proof (draws_MonteCarlo_runs featuresets (Z.to_nat n)
                [("precision", PyInt 0); ("recall", PyInt 0);
                 ("f-score", PyInt 0); ("support", PyInt 0)] eq_refl w) as H1.
  destruct (run (for_fold _ _ _) w) as [[[avgs last]|e] w1]; simpl in H1; [|done].
  destruct H1 as (Hout1 & (Havgs & Hlast) & Hrng1). simpl in Havgs, Hlast.
  rewrite run_bind.
  pose proof (draws_MonteCarlo_divide avgs n Havgs w1) as H2.
  destruct (run (for_fold _ _ _) w1) as [[avgs'|e] w2]; simpl in H2;
    [|destruct H2 as [Hout2 Hrng2]; simpl; split; [congruence|lia] ].
  destruct H2 as (Hout2 & Havgs' & Hrng2).
  rewrite run_bind. destruct last as [metrics|]; simpl;
    [|split; [congruence|lia] ].
  apply md_keys_four in Havgs' as (vp & vr & vf & vs & ->).
  rewrite run_bind, Hlast. cbv -[app Nat.add Z.to_nat stdout rng_calls heap].
  cbn [stdout rng_calls heap].
  exists vp, vr, vf, vs. split; [done|].
  split; [|lia]. rewrite <- !app_assoc. simpl. congruence.
Qed.

End MonteCarloRun.

Section AccumulatorFacts.
Import Py Hoare Effects NaiveBayes Metrics Arith MonteCarlo Averages.
Local Open Scope py_scope.

Lemma broadcast_into_same_length {A B} (f : A → B → A) xs ys :
  length xs = length ys → broadcast_into f xs ys = Ok (zip_with f xs ys).
Proof.
  intros Hlen. unfold broadcast_into.
  destruct ys as [|y [|y' ys] ].
  - by rewrite Hlen.
  - by destruct xs as [|x [|??] ].
  - by rewrite Hlen, Nat.eqb_refl.
Qed.

(** The inner loop of the validator after the first run. *)
Lemma run_accumulate_first (t : run_arrays) w :
  run (for_fold (md_keys (dict_of t))
         [("precision", PyInt 0); ("recall", PyInt 0);
          ("f-score", PyInt 0); ("support", PyInt 0)]
         (λ metrics_averages metric,
            let* a := md_getitem metrics_averages metric in
            let* b := md_getitem (dict_of t) metric in
            let* sum := lift (iadd a b) in
            ret (md_setitem metrics_averages metric sum))) w
  = (Ok (dict_of (first_run t)), w).
Proof. by destruct t as [[[p r] f] s]. Qed.

Lemma run_accumulate_first_array (p r f : list npfloat) (s : pyval) w :
  is_array s →
  run (for_fold (md_keys (metrics_of p r f s))
         [("precision", PyInt 0); ("recall", PyInt 0);
          ("f-score", PyInt 0); ("support", PyInt 0)]
         (λ metrics_averages metric,
            let* a := md_getitem metrics_averages metric in
            let* b := md_getitem (metrics_of p r f s) metric in
            let* sum := lift (iadd a b) in
            ret (md_setitem metrics_averages metric sum))) w
  = (Ok (metrics_of (np_add (of_int 0) <$> p) (np_add (of_int 0) <$> r)
                    (np_add (of_int 0) <$> f) (first_array s)), w).
Proof. by destruct s. Qed.

(** The inner loop of the validator when a run brings a float64 support
    array to an int64 accumulator: the in-place addition cannot cast its
    float64 result to int64. *)
Lemma run_accumulate_type_error (P R F p r f : list npfloat) (T : list Z)
    (s : list npfloat) L w :
  length P = L → length R = L → length F = L →
  length p = L → length r = L → length f = L →
  run (for_fold (md_keys (metrics_of p r f (NdFloat s))) (metrics_of P R F (NdInt T))
         (λ metrics_averages metric,
            let* a := md_getitem metrics_averages metric in
            let* b := md_getitem (metrics_of p r f (NdFloat s)) metric in
            let* sum := lift (iadd a b) in
            ret (md_setitem metrics_averages metric sum))) w
  = (Raise TypeError, w).
Proof.
  intros HP HR HF Hp Hr Hf.
  assert (iadd (NdFloat P) (NdFloat p) = Ok (NdFloat (zip_with np_add P p))) as H1.
  { simpl. rewrite broadcast_into_same_length; [done|congruence]. }
  assert (iadd (NdFloat R) (NdFloat r) = Ok (NdFloat (zip_with np_add R r))) as H2.
  { simpl. rewrite broadcast_into_same_length; [done|congruence]. }
  assert (iadd (NdFloat F) (NdFloat f) = Ok (NdFloat (zip_with np_add F f))) as H3.
  { simpl. rewrite broadcast_into_same_length; [done|congruence]. }
  cbv -[iadd zip_with np_add Z.add]. rewrite H1.
  cbv -[iadd zip_with np_add Z.add]. rewrite H2.
  cbv -[iadd zip_with np_add Z.add]. rewrite H3.
  reflexivity.
Qed.

(** The inner loop of the validator after a later run of the same shape. *)
Lemma run_accumulate (acc t : run_arrays) L w :
  same_shape L acc → same_shape L t →
  run (for_fold (md_keys (dict_of t)) (dict_of acc)
         (λ metrics_averages metric,
            let* a := md_getitem metrics_averages metric in
            let* b := md_getitem (dict_of t) metric in
            let* sum := lift (iadd a b) in
            ret (md_setitem metrics_averages metric sum))) w
  = (Ok (dict_of (add_run acc t)), w).
Proof.
  destruct acc as [[[P R] F] T], t as [[[p r] f] s].
  intros (HP & HR & HF & HT) (Hp & Hr & Hf & Hs).
  assert (iadd (NdFloat P) (NdFloat p) = Ok (NdFloat (zip_with np_add P p))) as H1.
  { simpl. rewrite broadcast_into_same_length; [done|congruence]. }
  assert (iadd (NdFloat R) (NdFloat r) = Ok (NdFloat (zip_with np_add R r))) as H2.
  { simpl. rewrite broadcast_into_same_length; [done|congruence]. }
  assert (iadd (NdFloat F) (NdFloat f) = Ok (NdFloat (zip_with np_add F f))) as H3.
  { simpl. rewrite broadcast_into_same_length; [done|congruence]. }
  assert (iadd (NdInt T) (NdInt s) = Ok (NdInt (zip_with Z.add T s))) as H4.
  { simpl. rewrite broadcast_into_same_length; [done|congruence]. }
  cbv -[iadd zip_with np_add Z.add]. rewrite H1.
  cbv -[iadd zip_with np_add Z.add]. rewrite H2.
  cbv -[iadd zip_with np_add Z.add]. rewrite H3.
  cbv -[iadd zip_with np_add Z.add]. rewrite H4.
  reflexivity.
Qed.

(** The second loop of the validator. *)
Lemma run_divide (acc : run_arrays) (n : Z) w :
  run (for_fold (md_keys (dict_of acc)) (dict_of acc)
         (λ acc metric,
            let* a := md_getitem acc metric in
            let* q := lift (truediv a n) in
            ret (md_setitem acc metric q))) w
  = (Ok (divided n acc), w).
Proof. by destruct acc as [[[P R] F] T]. Qed.

End AccumulatorFacts.

Section ArrayArithmetic.
Import Py Arith Averages.

Lemma np_eq_refl x : x ≠ NonFinite → np_eq x x.
Proof. destruct x; [intros _; apply Qeq_refl|done]. Qed.

Lemma np_add_zero x : is_float64 x → np_add (of_int 0) x = x.
Proof.
  destruct x as [q|]; [|done]. intros Hq. unfold of_int, np_add.
  by rewrite of_Z_0, fadd_0_l.
Qed.

Lemma np_add_float x y : is_float64 (np_add x y).
Proof. destruct x, y; try done. apply round64_idempotent. Qed.

Lemma add_zero_floats (xs : list npfloat) :
  Forall is_float64 xs → np_add (of_int 0) <$> xs = xs.
Proof.
  intros Hxs. rewrite <- (list_fmap_id xs) at 2.
  apply Forall_fmap_ext_1. eapply Forall_impl; [exact Hxs|]. apply np_add_zero.
Qed.

Lemma add_zero_ints (s : list Z) : Z.add 0 <$> s = s.
Proof. rewrite <- (list_fmap_id s) at 2. by apply list_fmap_ext. Qed.

End ArrayArithmetic.

Section MonteCarloMean.
Import Py Hoare Effects NaiveBayes Metrics Arith MonteCarlo Averages.
Local Open Scope py_scope.
Variable rng_permutation : nat → nat → list nat.
Variable posterior_argmax : list (gmap string nat * bool) → gmap string nat → bool.
Variable render_ok : list (list nat) → list string → bool.

(** A run that returns gives four arrays of one length: three float64
    arrays and the support array, int64 or float64. *)
Lemma naive_bayes_shape featuresets w c m w' :
  run (naive_bayes rng_permutation posterior_argmax render_ok featuresets false false) w
  = (Ok (c, m), w') →
  ∃ testY predictY p r f,
    let counts := support_counts testY predictY in
    m = metrics_of p r f (support_array testY predictY)
    ∧ testY ≠ [] ∧ length testY = length predictY
    ∧ length p = length counts ∧ length r = length counts ∧ length f = length counts
    ∧ Forall is_float64 p ∧ Forall is_float64 r ∧ Forall is_float64 f.
Proof.
  intros (testY & predictY & p & r & f & s & w1 & Hprfs & Hne & -> & _)%naive_bayes_returns.
  exists testY, predictY, p, r, f.
  destruct (prfs_range _ _ _ _ _ _ Hprfs) as (_ & _ & _ & -> & _ & _ & Hp & Hr & Hf).
  destruct (prfs_floats _ _ _ _ _ _ Hprfs) as (Hfp & Hfr & Hff & _).
  pose proof (prfs_inv _ _ _ _ _ _ Hprfs) as (Hlen & _).
  done.
Qed.

(** A run whose support array is int64. *)
Lemma naive_bayes_arrays featuresets w c m w' L :
  run (naive_bayes rng_permutation posterior_argmax render_ok featuresets false false) w
  = (Ok (c, m), w') →
  length <$> int_array_of "support" m = Some L →
  ∃ t, m = dict_of t ∧ same_shape L t ∧ float_arrays t.
Proof.
  intros (testY & predictY & p & r & f & -> & _ & _ & Hp & Hr & Hf & Hfp & Hfr & Hff)
         %naive_bayes_shape.
  unfold int_array_of. cbn [md_lookup metrics_of bool_decide decide_rel].
  destruct (support_array_cases testY predictY) as [->| ->]; [|done].
  intros [= <-]. exists (p, r, f, support_counts testY predictY).
  split; [done|]. split; [|done]. by repeat split.
Qed.

(** The first loop of the validator, from accumulators that hold arrays:
    it makes the runs of [repeat_runs] and adds their arrays up. *)
Lemma run_MonteCarlo_loop featuresets (n : nat) :
  ∀ (xs : list nat) w ms w1 (acc : run_arrays) (previous : option metrics_dict) L,
    length xs = n →
    run (repeat_runs rng_permutation posterior_argmax render_ok featuresets n) w
    = (Ok ms, w1) →
    same_shape L acc →
    Forall (λ m, length <$> int_array_of "support" m = Some L) ms →
    ∃ ts final,
      ms = dict_of <$> ts
      ∧ Forall (same_shape L) ts
      ∧ Forall float_arrays ts
      ∧ (final = previous ∨ ∃ t, final = Some (dict_of t))
      ∧ run (for_fold xs (dict_of acc, previous)
               (λ '(metrics_averages, _) _,
                  let* (_, metrics) :=
                    naive_bayes rng_permutation posterior_argmax render_ok
                                featuresets false false in
                  let* metrics_averages :=
                    for_fold (md_keys metrics) metrics_averages
                      (λ metrics_averages metric,
                         let* a := md_getitem metrics_averages metric in
                         let* b := md_getitem metrics metric in
                         let* sum := lift (iadd a b) in
                         ret (md_setitem metrics_averages metric sum)) in
                  ret (metrics_averages, Some metrics))) w
        = (Ok (dict_of (foldl add_run acc ts), final), w1).
Proof.
  induction n as [|n IH]; intros xs w ms w1 acc previous L Hxs Hruns Hacc Hshape.
  - destruct xs; [|done]. injection Hruns as <- <-.
    exists [], previous. repeat split; try done; by left.
  - destruct xs as [|x xs]; [done|]. injection Hxs as Hxs.
    simpl in Hruns. stage_hyp Hruns. destruct a as [c m].
    stage_hyp Hruns. rename a into ms'. injection Hruns as <- <-.
    apply Forall_cons_1 in Hshape as [Hm Hshape].
    destruct (naive_bayes_arrays _ _ _ _ _ _ Hstage Hm) as (t & -> & Ht & Hfl).
    destruct (IH xs w0 ms' w2 (add_run acc t) (Some (dict_of t)) L Hxs Hstage0)
      as (ts & final & -> & Hts & Hfls & Hfinal & Hloop); [|done|].
    { destruct acc as [[[P R] F] T], t as [[[p r] f] s].
      destruct Hacc as (? & ? & ? & ?), Ht as (? & ? & ? & ?). simpl.
      rewrite !length_zip_with. repeat split; lia. }
    exists (t :: ts), final.
    split; [done|]. split; [by constructor|]. split; [by constructor|]. split.
    { destruct Hfinal as [->|?]; [right; by eexists|by right]. }
    simpl for_fold. rewrite run_bind, run_bind, Hstage. cbv beta iota.
    rewrite run_bind, (run_accumulate acc t L) by done. exact Hloop.
Qed.

(** The validator, for runs that return arrays of one length with int64
    supports: the accumulators, divided by the repetition count. *)
Lemma MonteCarlo_closed_form featuresets (n : nat) w ms w1 L :
  run (repeat_runs rng_permutation posterior_argmax render_ok featuresets (S n)) w
  = (Ok ms, w1) →
  Forall (λ m, length <$> int_array_of "support" m = Some L) ms →
  ∃ t ts w2,
    ms = dict_of <$> t :: ts
    ∧ Forall float_arrays (t :: ts)
    ∧ run (MonteCarloCrossValidation rng_permutation posterior_argmax render_ok
                                     featuresets (Z.of_nat (S n))) w
      = (Ok (divided (Z.of_nat (S n)) (foldl add_run (first_run t) ts)), w2).
Proof.
  intros Hruns Hshape.
  simpl in Hruns. stage_hyp Hruns. destruct a as [c m].
  stage_hyp Hruns. rename a into ms'. injection Hruns as <- <-.
  apply Forall_cons_1 in Hshape as [Hm Hshape].
  destruct (naive_bayes_arrays _ _ _ _ _ _ Hstage Hm) as (t & -> & Ht & Hfl).
  destruct (run_MonteCarlo_loop featuresets n (seq 1 n) w0 ms' w2 (first_run t)
              (Some (dict_of t)) L)
    as (ts & final & -> & Hts & Hfls & Hfinal & Hloop); [by rewrite length_seq|done| |done|].
  { destruct t as [[[p r] f] s]. destruct Ht as (? & ? & ? & ?). simpl.
    by rewrite !length_fmap. }
  cut (∃ w3, run (MonteCarloCrossValidation rng_permutation posterior_argmax render_ok
                                          featuresets (Z.of_nat (S n))) w
             = (Ok (divided (Z.of_nat (S n)) (foldl add_run (first_run t) ts)), w3)).
  { intros [w3 Hw3]. exists t, ts, w3. split; [done|]. split; [by constructor|done]. }
  unfold MonteCarloCrossValidation. rewrite Nat2Z.id.
  change (seq 0 (S n)) with (0 :: seq 1 n). simpl for_fold.
  rewrite !run_bind, Hstage. cbv beta iota.
  rewrite run_bind, run_accumulate_first. cbv beta iota.
  change (run (ret ?a) ?w) with (Ok a, w). cbv beta iota.
  rewrite Hloop.
  assert (md_keys (dict_of (foldl add_run (first_run t) ts)) = md_keys (dict_of t)) as Hkeys.
  { by destruct (foldl add_run (first_run t) ts) as [[[??]?]?], t as [[[??]?]?]. }
  rewrite run_bind, run_divide.
  assert (∃ t', final = Some (dict_of t')) as [t' ->].
  { destruct Hfinal as [->|?]; [by eexists|done]. }
  rewrite run_bind. change (run (ret ?a) ?w) with (Ok a, w). cbv beta iota.
  rewrite run_bind.
  destruct t' as [[[p' r'] f'] s'].
  destruct (foldl add_run (first_run t) ts) as [[[P R] F] T].
  eexists. reflexivity.
Qed.

Lemma foldl_add_run (acc : run_arrays) (ts : list run_arrays) :
  foldl add_run acc ts
  = (foldl (zip_with np_add) acc.1.1.1 ((λ t, t.1.1.1) <$> ts),
     foldl (zip_with np_add) acc.1.1.2 ((λ t, t.1.1.2) <$> ts),
     foldl (zip_with np_add) acc.1.2 ((λ t, t.1.2) <$> ts),
     foldl (zip_with Z.add) acc.2 ((λ t, t.2) <$> ts)).
Proof.
  revert acc. induction ts as [|t ts IH]; intros [[[P R] F] T]; [done|].
  destruct t as [[[p r] f] s]. simpl. by rewrite IH.
Qed.

Lemma mapM_dict_of {A} (get : metrics_dict → option A) (proj : run_arrays → A)
    (ts : list run_arrays) :
  (∀ t, get (dict_of t) = Some (proj t)) →
  mapM get (dict_of <$> ts) = Some (proj <$> ts).
Proof.
  intros Hkey. apply mapM_Some, Forall2_fmap, Forall_Forall2_diag, Forall_forall.
  intros t _. apply Hkey.
Qed.

Lemma md_lookup_support p r f s : md_lookup (metrics_of p r f s) "support" = Some s.
Proof. reflexivity. Qed.

Lemma support_classes p r f y_true y_pred L :
  length <$> array_of "support" (metrics_of p r f (support_array y_true y_pred)) = Some L →
  length (support_counts y_true y_pred) = L.
Proof.
  unfold array_of. rewrite md_lookup_support.
  destruct (support_array_cases y_true y_pred) as [->| ->]; simpl;
    intros [= <-]; by rewrite length_fmap.
Qed.

(** A run that reports one class has predicted every test item
    correctly. *)
Lemma one_class_any_correct (y_true y_pred : list bool) :
  y_true ≠ [] → length y_true = length y_pred →
  length (unique_labels y_true y_pred) = 1 → any_correct y_true y_pred = true.
Proof.
  destruct y_true as [|t y_true]; [done|]. destruct y_pred as [|q y_pred]; [done|].
  intros _ _. unfold unique_labels, any_correct.
  cbn [zip zip_with existsb List.filter app].
  destruct t, q; cbn [Bool.eqb orb]; try done;
    rewrite !existsb_app; cbn [existsb Bool.eqb orb];
    rewrite ?orb_true_r; cbn [length]; discriminate.
Qed.

End MonteCarloMean.

Section MoreExampleFacts.
Import Py Examples MoreExamples.

Lemma demo_runs_return : bool_decide (is_Some (res_value demo_runs.1)) = true.
Proof. vm_compute. reflexivity. Qed.

Lemma demo_runs_eq : demo_runs = (Ok demo_run_metrics, demo_runs_after).
Proof.
  pose proof demo_runs_return as H. apply bool_decide_eq_true in H.
  unfold demo_run_metrics, demo_runs_after.
  destruct demo_runs as [[ms|e] w']; [reflexivity|by destruct H].
Qed.

Lemma demo_plot_call_returns :
  bool_decide (is_Some (res_value demo_plot_call.1)) = true.
Proof. vm_compute. reflexivity. Qed.

Lemma demo_plot_call_eq :
  demo_plot_call = (Ok (demo_plot_result.1, demo_plot_result.2), demo_plot_call.2).
Proof.
  pose proof demo_plot_call_returns as H. apply bool_decide_eq_true in H.
  unfold demo_plot_result.
  destruct demo_plot_call as [[[c m]|e] w']; [reflexivity|by destruct H].
Qed.

End MoreExampleFacts.

Section ConfusionMatrixFacts.
Import Py Metrics.

Lemma unique_labels_NoDup y_true y_pred : NoDup (unique_labels y_true y_pred).
Proof.
  unfold unique_labels. simpl.
  repeat match goal with |- context [if ?b then _ else _] => destruct b end.
  - apply NoDup_cons. split; [|apply NoDup_singleton]. by intros ?%list_elem_of_singleton.
  - apply NoDup_singleton.
  - apply NoDup_singleton.
  - apply NoDup_nil_2.
Qed.

Lemma elem_of_unique_labels y_true y_pred l :
  l ∈ y_true ++ y_pred → l ∈ unique_labels y_true y_pred.
Proof.
  intros Hl. unfold unique_labels.
  assert (existsb (Bool.eqb l) (y_true ++ y_pred) = true) as Hpresent.
  { apply existsb_exists. exists l. split; [by apply list_elem_of_In|by destruct l]. }
  simpl. destruct l; rewrite Hpresent;
    repeat match goal with |- context [if ?b then _ else _] => destruct b end;
    set_solver.
Qed.

Lemma sum_list_zero {A} (l : list A) : sum_list ((λ _, 0) <$> l) = 0.
Proof. induction l; [done|]. by csimpl. Qed.

Lemma indicator_sum_absent (labels : list bool) (l : bool) :
  l ∉ labels → sum_list ((λ p, if Bool.eqb l p then 1 else 0) <$> labels) = 0.
Proof.
  induction labels as [|q labels IH]; [done|]. csimpl. intros Hl.
  destruct (Bool.eqb_spec l q) as [->|_]; [set_solver|]. apply IH. set_solver.
Qed.

Lemma indicator_sum (labels : list bool) (l : bool) :
  NoDup labels → l ∈ labels →
  sum_list ((λ p, if Bool.eqb l p then 1 else 0) <$> labels) = 1.
Proof.
  induction 1 as [|p labels Hp Hnd IH]; [by intros ?%elem_of_nil|].
  csimpl. intros [->|Hin]%elem_of_cons.
  - by rewrite Bool.eqb_reflx, indicator_sum_absent.
  - destruct (Bool.eqb_spec l p) as [->|_]; [done|]. by apply IH.
Qed.

(** A row of the confusion matrix adds up to the number of test items of
    the row's class. *)
Lemma confusion_matrix_row (labels : list bool) (pairs : list (bool * bool)) (t : bool) :
  NoDup labels → Forall (λ tp, tp.2 ∈ labels) pairs →
  sum_list ((λ p, count_if (λ '(t', p'), Bool.eqb t' t && Bool.eqb p' p) pairs)
              <$> labels)
  = count_if (λ tp, Bool.eqb t tp.1) pairs.
Proof.
  intros Hnd. induction 1 as [|[t' p'] pairs Hp _ IH].
  - apply sum_list_zero.
  - rewrite count_if_cons. simpl in Hp |- *.
    rewrite <- IH.
    assert ((λ p, count_if (λ '(t'0, p'0), Bool.eqb t'0 t && Bool.eqb p'0 p)
                           ((t', p') :: pairs)) <$> labels
            = (λ p, (if Bool.eqb t' t && Bool.eqb p' p then 1 else 0)
                    + count_if (λ '(t'0, p'0), Bool.eqb t'0 t && Bool.eqb p'0 p) pairs)
                <$> labels) as ->.
    { apply list_fmap_ext. intros _ p _. by rewrite count_if_cons. }
    rewrite (sum_list_fmap_add (λ p, if Bool.eqb t' t && Bool.eqb p' p then 1 else 0)).
    f_equal. destruct (Bool.eqb_spec t' t) as [->|Hne].
    + rewrite Bool.eqb_reflx. simpl. by apply indicator_sum.
    + assert (Bool.eqb t t' = false) as -> by (by destruct t, t').
      simpl. apply sum_list_zero.
Qed.

Lemma count_zip_true (y_true y_pred : list bool) (t : bool) :
  length y_true = length y_pred →
  count_if (λ tp, Bool.eqb t tp.1) (zip y_true y_pred) = true_sum y_true t.
Proof.
  unfold true_sum. revert y_pred.
  induction y_true as [|x y_true IH]; intros [|y y_pred] Hlen; try done.
  simpl zip. rewrite !count_if_cons. simpl. f_equal. apply IH. by injection Hlen.
Qed.

Lemma confusion_matrix_row_sums y_true y_pred :
  length y_true = length y_pred →
  (λ row, Z.of_nat (sum_list row)) <$> confusion_matrix y_true y_pred
  = support_counts y_true y_pred
  ∧ Forall (λ row, length row = length (confusion_matrix y_true y_pred))
           (confusion_matrix y_true y_pred).
Proof.
  unfold support_counts, confusion_matrix. intros Hlen. split.
  - rewrite <- list_fmap_compose. apply list_fmap_ext. intros _ t _. simpl. f_equal.
    rewrite confusion_matrix_row; [by apply count_zip_true|apply unique_labels_NoDup|].
    apply Forall_forall. intros [t' p'] Hin. simpl.
    apply elem_of_unique_labels, elem_of_app. right. by eapply elem_of_zip_r.
  - apply Forall_fmap, Forall_forall. intros t _. simpl. by rewrite !length_fmap.
Qed.

End ConfusionMatrixFacts.

Section TracksFacts.
Import Tracks.
Context {Row : Type} `{EqDecision Row}.

Lemma elem_of_drop_duplicates_seen (seen : list Row) (tracks : DataFrame Row) row :
  row ∈ (drop_duplicates_seen seen tracks).*2 ↔ row ∈ tracks.*2 ∧ row ∉ seen.
Proof.
  revert seen. induction tracks as [|[label r] tracks IH]; intros seen; simpl.
  - set_solver.
  - case_decide as Hr; csimpl; rewrite ?elem_of_cons, IH; [set_solver|].
    rewrite elem_of_cons. destruct (decide (row = r)) as [->|Hne]; [tauto|].
    split; [intros [?|[? ?] ]; [done|tauto]|intros [[?|?] ?]; [done|right; split; tauto] ].
Qed.

Lemma drop_duplicates_seen_NoDup (seen : list Row) (tracks : DataFrame Row) :
  NoDup (drop_duplicates_seen seen tracks).*2.
Proof.
  revert seen. induction tracks as [|[label r] tracks IH]; intros seen; simpl.
  - constructor.
  - case_decide as Hr; [apply IH|]. csimpl. constructor; [|apply IH].
    rewrite elem_of_drop_duplicates_seen. set_solver.
Qed.

Lemma drop_duplicates_seen_sublist (seen : list Row) (tracks : DataFrame Row) :
  drop_duplicates_seen seen tracks `sublist_of` tracks.
Proof.
  revert seen. induction tracks as [|[label r] tracks IH]; intros seen; simpl; [done|].
  case_decide; [by apply sublist_cons|by apply sublist_skip].
Qed.

Lemma del_reset_index {A} (tracks : list (Z * A)) :
  (del_index (reset_index tracks)).*2 = tracks.*2
  ∧ (del_index (reset_index tracks)).*1 = Z.of_nat <$> seq 0 (length tracks).
Proof.
  unfold del_index, reset_index. split; apply list_eq; intros i;
    rewrite !list_lookup_fmap, list_lookup_imap.
  - by destruct (tracks !! i) as [ [label a]|].
  - destruct (tracks !! i) as [r|] eqn:Hr; simpl.
    + apply lookup_lt_Some in Hr. by rewrite lookup_seq_lt.
    + apply lookup_ge_None in Hr. by rewrite lookup_seq_ge.
Qed.

End TracksFacts.

Section PerfectPredictions.
Import Py Metrics Arith.

Lemma tp_sum_same (y : list bool) l : tp_sum y y l = true_sum y l.
Proof.
  unfold tp_sum, true_sum. induction y as [|x y IH]; [done|].
  simpl zip. rewrite !count_if_cons, IH. f_equal.
  by destruct x, l.
Qed.

Lemma true_sum_pos y l : l ∈ y → 0 < true_sum y l.
Proof.
  unfold true_sum. induction y as [|x y IH]; [by intros ?%elem_of_nil|].
  rewrite count_if_cons. intros [->|Hin]%elem_of_cons.
  - rewrite Bool.eqb_reflx. lia.
  - apply IH in Hin. lia.
Qed.

Lemma elem_of_unique_labels_inv y_true y_pred l :
  l ∈ unique_labels y_true y_pred → l ∈ y_true ++ y_pred.
Proof.
  unfold unique_labels. intros Hl%list_elem_of_In%filter_In.
  destruct Hl as [_ Hpresent]. apply existsb_exists in Hpresent as (x & Hx & Heq).
  apply Bool.eqb_prop in Heq as ->. by apply list_elem_of_In.
Qed.

End PerfectPredictions.

Section Claims.
Import Text Normalizer Vectorizer Py Featuresets Metrics Arith NaiveBayes MonteCarlo.
Import MonteCarloOnce Hoare Examples.

(** C1, as stated, fails: the default analyser of [CountVectorizer] drops
    one-character tokens, so the counts of the normalized string "love u"
    add up to 1 while the string has 2 whitespace-delimited tokens. *)
Lemma count_vector_sum_differs :
  stemLyrics id ["love u"] [] = ["love u"]
  ∧ fit_transform ["love u"] = Ok ({| vocabulary_ := ["love"] |}, [[1]])
  ∧ sum_list [1] = 1
  ∧ length (split_whitespace "love u") = 2.
Proof. split; [|split; [|split] ]; reflexivity. Qed.

(** C1, amended: whenever the Vectorizer returns, it returns one count-vector
    per string, in order, as long as the vocabulary, and the entries of each
    vector add up to the number of tokens the Vectorizer's analyser extracts
    from that string: the maximal runs of two or more word characters of the
    lower-cased string. *)
Theorem count_vector_sum_is_token_count
    (raw_documents : list string) (v : CountVectorizer) (vec : list (list nat)) :
  fit_transform raw_documents = Ok (v, vec) →
  Forall2 (λ doc row, length row = length (get_feature_names_out v)
                      ∧ sum_list row = length (build_analyzer doc))
          raw_documents vec.
Proof.
  intros Hfit. pose proof Hfit as (_ & _ & ->)%fit_transform_Ok.
  apply Forall2_fmap_r, Forall_Forall2_diag, Forall_forall. intros doc Hdoc. split.
  - unfold transform_row, get_feature_names_out. by rewrite length_fmap.
  - by eapply transform_row_sum.
Qed.

Lemma count_vector_sum_is_token_count_witness :
  Forall2 (λ doc row, length row = 5 ∧ sum_list row = length (build_analyzer doc))
          ["rock'n'roll baby"; "Baby don't go_go x"]
          [[1; 0; 0; 1; 1]; [1; 1; 1; 0; 0]].
Proof.
  apply (count_vector_sum_is_token_count
           ["rock'n'roll baby"; "Baby don't go_go x"]
           {| vocabulary_ := ["baby"; "don"; "go_go"; "rock"; "roll"] |}).
  reflexivity.
Defined.

(** C2, as stated, fails: [stemLyrics] cuts at the space character only.  A
    line feed does not separate tokens, so a two-line lyric stays one token,
    where splitting on whitespace gives two words. *)
Lemma stemLyrics_keeps_line_feed :
  stemLyrics id [two_line_lyric] [] = [two_line_lyric]
  ∧ spec_normalize id [] two_line_lyric = "hello world"
  ∧ stemLyrics id [two_line_lyric] [] ≠ [spec_normalize id [] two_line_lyric].
Proof. split; [|split]; [reflexivity|reflexivity|discriminate]. Qed.

(** C2, amended: for every column of raw lyric strings, [stemLyrics] returns,
    in order, one string per lyric: the lyric cut at every single space
    character (the pieces are the one non-empty list of space-free strings
    whose join with single spaces is the lyric, so two adjacent spaces
    enclose an empty token and other whitespace separates nothing), without
    the tokens whose lower-cased form is in the stop-word list, each
    remaining token stemmed, joined with single spaces; when every token is
    filtered the string is empty. *)
Theorem stemLyrics_splits_at_spaces
    (stem : string → string) (lyrics_column stop_words : list string) :
  stemLyrics stem lyrics_column stop_words
  = (λ raw, join (stem <$> filter (λ word, lower word ∉ stop_words) (split_space raw)))
      <$> lyrics_column
  ∧ (∀ raw, join (split_space raw) = raw
            ∧ Forall (λ token, has_space token = false) (split_space raw)
            ∧ ∀ tokens, tokens ≠ [] →
                        Forall (λ token, has_space token = false) tokens →
                        join tokens = raw → tokens = split_space raw)
  ∧ (∀ raw, Forall (λ word, lower word ∈ stop_words) (split_space raw) →
            stemLyrics stem [raw] stop_words = [""]).
Proof.
  split; [apply stemLyrics_fmap|]. split.
  - intros raw. split; [apply join_split_space|].
    split; [apply split_space_no_space|].
    intros tokens Hne Hfree Hjoin. apply join_inj_no_space; try done.
    + unfold split_space. by destruct (split_on_cons_inv is_sp raw) as (t & ts & ->).
    + apply split_space_no_space.
    + by rewrite join_split_space.
  - intros raw Hall. rewrite stemLyrics_fmap. simpl.
    by rewrite stem_lyric_all_filtered.
Qed.

Lemma stemLyrics_splits_at_spaces_witness :
  stemLyrics lower ["The  Cat"; "the A"] ["the"; "a"] = [" cat"; ""]
  ∧ stemLyrics lower ["the A"] ["the"; "a"] = [""].
Proof.
  destruct (stemLyrics_splits_at_spaces lower ["The  Cat"; "the A"] ["the"; "a"])
    as (Hfmap & _ & Hempty).
  split; [rewrite Hfmap; reflexivity|].
  apply Hempty. apply Forall_forall. intros word Hword.
  apply (bool_decide_unpack _).
  revert word Hword. apply Forall_forall. by repeat constructor.
Defined.

(** C3: for every track table, either the Vectorizer raises and nothing is
    built, or the Featureset Builder returns a list with one (feature-map,
    label) pair per track, in the order of the tracks, where each pair
    carries its track's label and a feature-map with exactly one entry per
    vocabulary token -- [size m = |vocabulary|], the keys are the vocabulary
    -- whose value is the count at the token's position in the track's
    count-vector, zero counts included. *)
Theorem featuresets_are_dense
    (stem : string → string) (tracks : list (string * bool))
    (stopWords : list string) (w : World) :
  match fit_transform (stemLyrics stem tracks.*1 stopWords) with
  | Raise e => run (data_preparation stem tracks stopWords) w = (Raise e, w)
  | Ok (v, vec) =>
      let words := get_feature_names_out v in
      ∃ featuresets w' fs,
        run (data_preparation stem tracks stopWords) w = (Ok featuresets, w')
        ∧ contents (heap w') featuresets = Some fs
        ∧ Forall2 (λ track pair, pair.2 = track.2
                                 ∧ size pair.1 = length words
                                 ∧ dom pair.1 = list_to_set words) tracks fs
        ∧ Forall2 (λ row pair, ∀ j word, words !! j = Some word →
                                         pair.1 !! word = row !! j) vec fs
  end.
Proof.
  destruct (fit_transform _) as [[v vec]|e] eqn:Hfit; cycle 1.
  { unfold data_preparation. by rewrite Hfit. }
  pose proof Hfit as (Hv & _ & Hvec)%fit_transform_Ok.
  assert (Hnd : NoDup (vocabulary_ v)) by (rewrite Hv; apply fit_vocabulary_NoDup).
  assert (Hrows : Forall (λ row, length row = length (vocabulary_ v)) vec).
  { rewrite Hvec. apply Forall_fmap, Forall_forall. intros doc _.
    unfold transform_row. simpl. by rewrite length_fmap. }
  assert (Hlen : length vec = length tracks).
  { by rewrite Hvec, stemLyrics_fmap, !length_fmap. }
  assert (Hrows' : Forall (λ row, length (vocabulary_ v) ≤ length row) vec).
  { eapply Forall_impl; [exact Hrows|]. intros; simpl in *; lia. }
  assert (Hlen' : length tracks.*2 ≤ length vec) by by rewrite length_fmap, Hlen.
  destruct (run_build_featuresets _ _ _ w Hnd Hrows' Hlen')
    as (out & w' & Hrun & _ & Hcontents).
  exists out, w', (zip_with (λ row label, (feature_map (vocabulary_ v) row, label))
                            vec tracks.*2).
  split; [unfold data_preparation; by rewrite Hfit|]. split; [done|]. split.
  - apply Forall2_same_length_lookup. split.
    { rewrite length_zip_with, length_fmap. lia. }
    intros i track pair Htrack Hpair.
    apply lookup_zip_with_Some in Hpair as (row & label & -> & Hrow & Hlabel).
    rewrite list_lookup_fmap, Htrack in Hlabel. injection Hlabel as <-.
    assert (length row = length (vocabulary_ v)) as Hrowlen.
    { rewrite Forall_forall in Hrows. apply Hrows. by eapply list_elem_of_lookup_2. }
    simpl. split; [done|]. unfold get_feature_names_out.
    split; [apply feature_map_size|apply feature_map_dom]; (done || lia).
  - apply Forall2_same_length_lookup. split.
    { rewrite length_zip_with, length_fmap. lia. }
    intros i row pair Hrow Hpair.
    apply lookup_zip_with_Some in Hpair as (row' & label & -> & Hrow' & Hlabel).
    assert (row' = row) as -> by congruence.
    intros j word Hword. simpl. apply feature_map_lookup; [done| |done].
    rewrite Forall_forall in Hrows.
    rewrite (Hrows row); [done|]. by eapply list_elem_of_lookup_2.
Qed.

(** C4: for every well-formed list of featuresets, every classifier and every
    K, the Feature Selector (cell 13, with the names of the K best-ranked
    features) returns a new list of the same length and order in which each
    pair keeps its label, and each feature-map holds at most K entries: the
    entries of the original map whose key is a listed name, with their
    counts, and no entry at all for any other key. *)
Theorem feature_selection_spec
    (informativeness_ranking : NaiveBayesClassifier → list (string * option nat))
    (classifier : NaiveBayesClassifier) (K : nat) (featuresets : loc) (w : World)
    (fs : list (gmap string nat * bool)) :
  contents (heap w) featuresets = Some fs →
  let names := (most_informative_features informativeness_ranking classifier K).*1 in
  ∃ reduced w' fs',
    run (feature_selection informativeness_ranking classifier K featuresets) w
    = (Ok reduced, w')
    ∧ contents (heap w') reduced = Some fs'
    ∧ Forall2 (λ old new, new.2 = old.2
                          ∧ size new.1 ≤ K
                          ∧ (∀ k, k ∈ names → new.1 !! k = old.1 !! k)
                          ∧ (∀ k, k ∉ names → new.1 !! k = None)) fs fs'.
Proof.
  intros Hfs names.
  destruct (run_select_informative names featuresets w fs Hfs)
    as (out & w' & Hrun & _ & Hcontents).
  exists out, w', ((λ x, (restrict names x.1, x.2)) <$> fs).
  split; [done|]. split; [done|].
  apply Forall2_fmap_r, Forall_Forall2_diag, Forall_forall. intros [m label] _. simpl.
  split; [done|]. split; [|split].
  - etransitivity; [apply restrict_size|].
    unfold names, most_informative_features. rewrite length_fmap, length_take. lia.
  - intros k Hk. by rewrite restrict_lookup, decide_True.
  - intros k Hk. by rewrite restrict_lookup, decide_False.
Qed.

Lemma feature_selection_spec_witness :
  ∃ reduced w' fs',
    run (feature_selection demo_ranking {| training := [] |} 3 demo_featuresets)
        demo_world = (Ok reduced, w')
    ∧ contents (heap w') reduced = Some fs'
    ∧ Forall2 (λ old new, new.2 = old.2
                          ∧ size new.1 ≤ 3
                          ∧ (∀ k, k ∈ ["damn"; "damn"; "hell"] → new.1 !! k = old.1 !! k)
                          ∧ (∀ k, k ∉ ["damn"; "damn"; "hell"] → new.1 !! k = None))
              demo_contents fs'.
Proof.
  apply (feature_selection_spec demo_ranking {| training := [] |} 3
           demo_featuresets demo_world demo_contents).
  apply demo_contents_eq.
Defined.

(** C5, as stated, fails: the direct call on the demo tracks returns an
    int64 support array, and the validator with n = 1, from the same world
    and so with the same random draw, returns the same counts in a float64
    array, which its division by [n] has made.  The two records differ. *)
Lemma single_run_changes_support_dtype :
  ∃ metrics_averages w2,
    run (naive_bayes demo_rng demo_argmax demo_render demo_featuresets true false)
        demo_world
    = (Ok (demo_classifier, demo_metrics), demo_after)
    ∧ run (MonteCarloCrossValidation demo_rng demo_argmax demo_render
                                     demo_featuresets 1) demo_world
      = (Ok metrics_averages, w2)
    ∧ md_lookup demo_metrics "support" = Some (NdInt [1; 1]%Z)
    ∧ md_lookup metrics_averages "support" = Some (NdFloat [Finite 1; Finite 1])
    ∧ metrics_averages ≠ demo_metrics.
Proof.
  pose proof demo_call_eq as Hcall. unfold demo_call in Hcall.
  pose proof Hcall
    as (testY & predictY & p & r & f & s & w1 & Hprfs & _ & Hm & Hrun)%naive_bayes_returns.
  assert (md_lookup demo_metrics "support" = Some (NdInt [1; 1]%Z)) as Hs
    by (vm_compute; reflexivity).
  assert (s = NdInt [1; 1]%Z) as -> by (rewrite Hm in Hs; by injection Hs).
  destruct (prfs_floats _ _ _ _ _ _ Hprfs) as (Hp & Hr & Hf & Hfs).
  rewrite Hm in Hrun. apply MonteCarlo_one_run in Hrun; [|done].
  rewrite averaged_once_id in Hrun by done.
  eexists _, _. split; [exact Hcall|]. split; [exact Hrun|].
  split; [exact Hs|]. split; [reflexivity|].
  intros Heq. rewrite <- Heq in Hs. discriminate Hs.
Qed.

(** C5, amended: from any world (heap, generator state, output), if a
    direct call of [naive_bayes], with any flags, returns a metrics record,
    then [MonteCarloCrossValidation] with n = 1 from the same world -- the
    same random draw -- returns a record with the same four keys, in which
    the precision, recall and f-score arrays are the arrays of the direct
    call, entry for entry the same float64 values, and the support array
    holds the counts of the direct call as float64 values.  The direct call
    holds these counts in an int64 array, or, when no test item was
    predicted correctly, in a float64 array: only then is the support array
    the same; in every case the arrays are equal as [array_equal] compares
    them.  If the call the validator makes raises, the validator raises the
    same exception. *)
Theorem MonteCarlo_single_run
    (rng_permutation : nat → nat → list nat)
    (posterior_argmax : list (gmap string nat * bool) → gmap string nat → bool)
    (render_ok : list (list nat) → list string → bool)
    (featuresets : loc) (w : World) :
  (∀ printMetrics showConfusionMatrix classifier metrics w1,
     run (naive_bayes rng_permutation posterior_argmax render_ok featuresets
                      printMetrics showConfusionMatrix) w
     = (Ok (classifier, metrics), w1) →
     ∃ p r f support counts metrics_averages w2,
       metrics = [("precision", NdFloat p); ("recall", NdFloat r);
                  ("f-score", NdFloat f); ("support", support)]
       ∧ (support = NdInt counts ∨ support = NdFloat (of_int <$> counts))
       ∧ run (MonteCarloCrossValidation rng_permutation posterior_argmax render_ok
                                        featuresets 1) w
         = (Ok metrics_averages, w2)
       ∧ metrics_averages
         = [("precision", NdFloat p); ("recall", NdFloat r);
            ("f-score", NdFloat f); ("support", NdFloat (of_int <$> counts))]
       ∧ Forall2 (λ single averaged, averaged.1 = single.1
                                     ∧ array_equal averaged.2 single.2)
                 metrics metrics_averages)
  ∧ (∀ e w1,
       run (naive_bayes rng_permutation posterior_argmax render_ok featuresets
                        false false) w = (Raise e, w1) →
       run (MonteCarloCrossValidation rng_permutation posterior_argmax render_ok
                                      featuresets 1) w = (Raise e, w1)).
Proof.
  split.
  - intros printMetrics showConfusionMatrix classifier metrics w1 Hrun.
    apply naive_bayes_returns in Hrun
      as (testY & predictY & p & r & f & s & w1' & Hprfs & _ & -> & Hrun).
    destruct (prfs_floats _ _ _ _ _ _ Hprfs) as (Hp & Hr & Hf & Hfs).
    destruct (prfs_range _ _ _ _ _ _ Hprfs) as (_ & _ & _ & Hs & _).
    exists p, r, f, s, (support_counts testY predictY). eexists. eexists.
    split; [done|].
    assert (is_array s ∧ as_float64 s = NdFloat (of_int <$> support_counts testY predictY))
      as [Harr Hfloat].
    { rewrite Hs. by destruct (support_array_cases testY predictY) as [->| ->]. }
    split; [rewrite Hs; apply support_array_cases|].
    rewrite (MonteCarlo_one_run _ _ _ _ _ _ _ _ _ _ _ Harr Hrun).
    rewrite averaged_once_id, Hfloat by done. split; [done|]. split; [done|].
    apply prfs_finite in Hprfs. unfold all_finite, metrics_of in Hprfs.
    repeat (apply Forall_cons_1 in Hprfs as [? Hprfs]). simpl in *.
    repeat constructor; simpl; try by apply Forall2_np_eq_refl.
    assert (Forall2 np_eq (of_int <$> support_counts testY predictY)
                    (of_int <$> support_counts testY predictY)) as Heq.
    { apply Forall2_np_eq_refl, Forall_fmap, Forall_forall. by intros ??. }
    unfold array_equal.
    by destruct (support_array_cases testY predictY) as [Hc|Hc]; rewrite Hs, Hc.
  - intros e w1 Hrun. unfold MonteCarloCrossValidation.
    rewrite run_bind. change (Z.to_nat 1) with 1. simpl seq. simpl for_fold.
    rewrite !run_bind. by rewrite Hrun.
Qed.

Lemma MonteCarlo_single_run_witness :
  ∃ p r f support counts metrics_averages w2,
    demo_metrics = [("precision", NdFloat p); ("recall", NdFloat r);
                    ("f-score", NdFloat f); ("support", support)]
    ∧ (support = NdInt counts ∨ support = NdFloat (of_int <$> counts))
    ∧ run (MonteCarloCrossValidation demo_rng demo_argmax demo_render
                                     demo_featuresets 1) demo_world
      = (Ok metrics_averages, w2)
    ∧ metrics_averages
      = [("precision", NdFloat p); ("recall", NdFloat r);
         ("f-score", NdFloat f); ("support", NdFloat (of_int <$> counts))]
    ∧ Forall2 (λ single averaged, averaged.1 = single.1
                                  ∧ array_equal averaged.2 single.2)
              demo_metrics metrics_averages.
Proof.
  destruct (MonteCarlo_single_run demo_rng demo_argmax demo_render
              demo_featuresets demo_world) as [H _].
  apply (H true false demo_classifier demo_metrics demo_after).
  exact demo_call_eq.
Defined.

(** C6: on a well-formed list of featuresets, with a generator that returns
    permutations, every evaluation run that returns gives four arrays (one
    entry per class present) in which each precision, recall and f-score is
    a finite value in [0, 1], each support is a non-negative integer -- in
    an int64 array, or as float64 values when no test item was predicted
    correctly -- and the supports add up to the size of the test subset,
    which the default split makes [ceil(n / 4)] of the n featuresets.  With
    fewer than two featuresets the split raises; with two or more the run
    returns unless the plot was asked for and fails. *)
Theorem metrics_range
    (rng_permutation : nat → nat → list nat)
    (posterior_argmax : list (gmap string nat * bool) → gmap string nat → bool)
    (render_ok : list (list nat) → list string → bool)
    (featuresets : loc) (printMetrics showConfusionMatrix : bool) (w : World)
    (fs : list (gmap string nat * bool)) :
  (∀ k n, rng_permutation k n ≡ₚ seq 0 n) →
  contents (heap w) featuresets = Some fs →
  let outcome := run (naive_bayes rng_permutation posterior_argmax render_ok
                                  featuresets printMetrics showConfusionMatrix) w in
  (∀ classifier metrics, outcome.1 = Ok (classifier, metrics) →
     ∃ p r f support counts,
       metrics = [("precision", NdFloat p); ("recall", NdFloat r);
                  ("f-score", NdFloat f); ("support", support)]
       ∧ (support = NdInt counts ∨ support = NdFloat (of_int <$> counts))
       ∧ Forall unit_interval p ∧ Forall unit_interval r ∧ Forall unit_interval f
       ∧ Forall (λ z, (0 ≤ z)%Z) counts
       ∧ sum_Z counts = Z.of_nat ((length fs + 3) / 4)
       ∧ length p = length counts ∧ length r = length counts
       ∧ length f = length counts)
  ∧ (length fs < 2 → outcome.1 = Raise (ValueError EmptyTrainSet))
  ∧ (2 ≤ length fs → showConfusionMatrix = false →
     ∃ classifier metrics, outcome.1 = Ok (classifier, metrics))
  ∧ (2 ≤ length fs → ∀ e, outcome.1 = Raise e → e = RenderError).
Proof.
  intros Hrng Hfs outcome.
  destruct (decide (length fs < 2)) as [Hsmall|Hn].
  { assert (outcome.1 = Raise (ValueError EmptyTrainSet)) as Hraise.
    { unfold outcome.
      by rewrite (naive_bayes_too_small rng_permutation posterior_argmax render_ok
                    _ _ _ _ _ Hfs Hsmall). }
    rewrite Hraise. repeat split; try done; lia. }
  apply not_lt in Hn.
  destruct (naive_bayes_total rng_permutation posterior_argmax render_ok
              featuresets printMetrics w fs Hfs Hn (Hrng _ _))
    as (c1 & testY1 & predictY1 & p1 & r1 & f1 & s1 & w1 & Hrun1 & _ & _).
  destruct (naive_bayes_total rng_permutation posterior_argmax render_ok
              featuresets false w fs Hfs Hn (Hrng _ _))
    as (c0 & testY & predictY & p & r & f & s & w0 & Hrun0 & Hprfs & Hlen).
  split; [|split; [lia|split] ].
  - intros classifier metrics Hok. unfold outcome in Hok.
    destruct (run _ w) as [res w2] eqn:Hrun. simpl in Hok. subst res.
    apply naive_bayes_returns in Hrun as (? & ? & ? & ? & ? & ? & w3 & _ & _ & -> & Hrun).
    rewrite Hrun0 in Hrun. injection Hrun as <- <- <- <- <- _.
    exists p, r, f, s, (support_counts testY predictY). split; [done|].
    destruct (prfs_range _ _ _ _ _ _ Hprfs) as (Hp & Hr & Hf & -> & Hs & Hsum & Hlens).
    split; [apply support_array_cases|]. by rewrite Hlen in Hsum.
  - intros _ ->. unfold outcome. rewrite Hrun1. eauto.
  - intros _ e He. unfold outcome in He. destruct showConfusionMatrix.
    + destruct (naive_bayes_plot rng_permutation posterior_argmax render_ok
                  _ _ _ _ _ _ Hrun1) as [ [w2 H]|H]; rewrite H in He; simpl in He;
        congruence.
    + rewrite Hrun1 in He. discriminate.
Qed.

Lemma metrics_range_witness :
  ∃ p r f support counts,
    demo_metrics = [("precision", NdFloat p); ("recall", NdFloat r);
                    ("f-score", NdFloat f); ("support", support)]
    ∧ (support = NdInt counts ∨ support = NdFloat (of_int <$> counts))
    ∧ Forall unit_interval p ∧ Forall unit_interval r ∧ Forall unit_interval f
    ∧ Forall (λ z, (0 ≤ z)%Z) counts
    ∧ sum_Z counts = 2%Z
    ∧ length p = length counts ∧ length r = length counts
    ∧ length f = length counts.
Proof.
  destruct (metrics_range demo_rng demo_argmax demo_render demo_featuresets true false
              demo_world demo_contents) as (H & _).
  - intros k n. apply reverse_Permutation.
  - apply demo_contents_eq.
  - apply (H demo_classifier). change (run _ demo_world) with demo_call.
    by rewrite demo_call_eq.
Defined.

(** C7, as stated, fails: an idempotent stemmer can turn a token that is not
    a stop word into one ("beings" into "be"), and the second pass drops
    what the first pass kept. *)
Lemma stemLyrics_not_idempotent :
  (∀ word, toy_stem (toy_stem word) = toy_stem word)
  ∧ stemLyrics toy_stem ["human beings"] ["be"] = ["human be"]
  ∧ stemLyrics toy_stem (stemLyrics toy_stem ["human beings"] ["be"]) ["be"]
    = ["human"].
Proof.
  split; [|split; reflexivity].
  intros word. unfold toy_stem.
  destruct (decide (word = "beings")) as [->|Hne]; [reflexivity|].
  by rewrite !(bool_decide_eq_false_2 _ Hne).
Qed.

(** C7, amended: applying [stemLyrics] twice with the same stop-word list
    gives the same strings as applying it once when the stemmer is
    idempotent, maps the empty token to itself, puts no space into a
    space-free token, and never produces a stem whose lower-cased form is a
    stop word from a token whose lower-cased form is not. *)
Theorem stemLyrics_idempotent
    (stem : string → string) (lyrics_column stop_words : list string) :
  (∀ word, stem (stem word) = stem word) →
  stem "" = "" →
  (∀ word, has_space word = false → has_space (stem word) = false) →
  (∀ word, lower word ∉ stop_words → lower (stem word) ∉ stop_words) →
  stemLyrics stem (stemLyrics stem lyrics_column stop_words) stop_words
  = stemLyrics stem lyrics_column stop_words.
Proof.
  intros Hidem Hempty Hfree Hclosed.
  rewrite !stemLyrics_fmap, <- list_fmap_compose.
  apply list_fmap_ext. intros _ raw _. simpl. unfold stem_lyric at 2 3.
  apply stem_lyric_join_stems; try done.
  apply Forall_forall. intros word [Hkept Hin]%list_elem_of_filter.
  split; [|done].
  pose proof (split_space_no_space raw) as Hpieces.
  rewrite Forall_forall in Hpieces. by apply Hpieces.
Qed.

Lemma stemLyrics_idempotent_witness :
  stemLyrics lower (stemLyrics lower ["The Cat  sat on a Mat"; "the A"] ["the"; "a"])
                   ["the"; "a"]
  = stemLyrics lower ["The Cat  sat on a Mat"; "the A"] ["the"; "a"].
Proof.
  apply stemLyrics_idempotent.
  - apply lower_idempotent.
  - reflexivity.
  - intros word. apply has_space_lower.
  - intros word. by rewrite lower_idempotent.
Defined.

(** C8, as stated, fails: on zero tracks, and on tracks whose normalized
    lyrics are all empty, the Vectorizer raises and no featureset is built. *)
Lemma empty_corpus_raises :
  run (data_preparation id [] []) empty_world
  = (Raise (ValueError EmptyVocabulary), empty_world)
  ∧ stemLyrics id [("", true); ("", false)].*1 [] = [""; ""]
  ∧ run (data_preparation id [("", true); ("", false)] []) empty_world
    = (Raise (ValueError EmptyVocabulary), empty_world).
Proof. split; [|split]; reflexivity. Qed.

(** C8, amended: for a degenerate corpus (zero tracks, or normalized lyric
    strings that all yield no token, as empty strings do) the Vectorizer
    raises the empty-vocabulary [ValueError], and the preparation stops there
    with the world as it was; the Featureset Builder itself, given an empty
    vocabulary and zero-length count-vectors, completes without raising and
    yields one zero-length feature map per track. *)
Theorem degenerate_corpus
    (stem : string → string) (tracks : list (string * bool))
    (stopWords : list string) (w : World) :
  (Forall (λ lyric, build_analyzer lyric = []) (stemLyrics stem tracks.*1 stopWords) →
   fit_transform (stemLyrics stem tracks.*1 stopWords) = Raise (ValueError EmptyVocabulary)
   ∧ run (data_preparation stem tracks stopWords) w
     = (Raise (ValueError EmptyVocabulary), w))
  ∧ build_analyzer "" = []
  ∧ ∃ featuresets w',
      run (build_featuresets [] ((λ _, []) <$> tracks) tracks.*2) w = (Ok featuresets, w')
      ∧ contents (heap w') featuresets = Some ((λ track, (∅, track.2)) <$> tracks).
Proof.
  split; [|split; [reflexivity|] ].
  - intros Hall. apply fit_transform_no_tokens in Hall. split; [done|].
    unfold data_preparation. by rewrite Hall.
  - assert (H1 : NoDup (@nil string)) by constructor.
    assert (H2 : Forall (λ row : list nat, length (@nil string) ≤ length row)
                        ((λ _, []) <$> tracks)).
    { apply Forall_fmap, Forall_forall. intros; simpl; lia. }
    assert (H3 : length tracks.*2 ≤ length ((λ _, @nil nat) <$> tracks))
      by by rewrite !length_fmap.
    destruct (run_build_featuresets _ _ _ w H1 H2 H3) as (out & w' & Hrun & _ & Hcontents).
    exists out, w'. split; [done|]. rewrite Hcontents. f_equal.
    clear. induction tracks as [|[lyric label] tracks IH]; [done|].
    csimpl. by rewrite IH.
Qed.

Lemma degenerate_corpus_witness :
  fit_transform (stemLyrics lower [("a", true); ("The", false)].*1 ["the"; "a"])
  = Raise (ValueError EmptyVocabulary)
  ∧ run (data_preparation lower [("a", true); ("The", false)] ["the"; "a"]) empty_world
    = (Raise (ValueError EmptyVocabulary), empty_world).
Proof.
  apply (degenerate_corpus lower [("a", true); ("The", false)] ["the"; "a"] empty_world).
  by repeat constructor.
Defined.

(** C9: neither [naive_bayes] nor the reduction loop of cell 13 changes an
    object that existed before the call, whether the call returns or raises:
    every address of the old heap holds the same object afterwards, so the
    original featuresets list still has its pairs, and each pair its keys,
    counts and label (the reduction writes to dictionaries it creates, and
    [classify] deletes from a copy). *)
Theorem featuresets_not_mutated
    (rng_permutation : nat → nat → list nat)
    (posterior_argmax : list (gmap string nat * bool) → gmap string nat → bool)
    (render_ok : list (list nat) → list string → bool)
    (names : list string) (featuresets : loc)
    (printMetrics showConfusionMatrix : bool) (w : World) :
  let after_naive_bayes :=
    (run (naive_bayes rng_permutation posterior_argmax render_ok featuresets
                      printMetrics showConfusionMatrix) w).2 in
  let after_selection := (run (select_informative names featuresets) w).2 in
  (∀ l o, heap w !! l = Some o → heap after_naive_bayes !! l = Some o)
  ∧ (∀ fs, contents (heap w) featuresets = Some fs →
           contents (heap after_naive_bayes) featuresets = Some fs)
  ∧ (∀ l o, heap w !! l = Some o → heap after_selection !! l = Some o)
  ∧ (∀ fs, contents (heap w) featuresets = Some fs →
           contents (heap after_selection) featuresets = Some fs).
Proof.
  intros w1 w2.
  assert (heap w ⊆ heap w1) as H1.
  { by apply (naive_bayes_frames (heap w) rng_permutation posterior_argmax render_ok
                featuresets printMetrics showConfusionMatrix w). }
  assert (heap w ⊆ heap w2) as H2.
  { by apply (select_informative_frames (heap w) names featuresets w). }
  repeat split.
  - intros l o Hl. by eapply lookup_weaken.
  - intros fs. by apply contents_weaken.
  - intros l o Hl. by eapply lookup_weaken.
  - intros fs. by apply contents_weaken.
Qed.

Lemma featuresets_not_mutated_witness :
  contents (heap (run (naive_bayes demo_rng demo_argmax demo_render demo_featuresets
                                   true true) demo_world).2) demo_featuresets
  = Some demo_contents
  ∧ contents (heap (run (select_informative ["damn"; "hell"] demo_featuresets)
                        demo_world).2) demo_featuresets
    = Some demo_contents.
Proof.
  destruct (featuresets_not_mutated demo_rng demo_argmax demo_render ["damn"; "hell"]
              demo_featuresets true true demo_world) as (_ & H1 & _ & H2).
  split; [apply H1|apply H2]; apply demo_contents_eq.
Defined.

(** C10: with n = 0 the validator raises [ZeroDivisionError] at its first
    division, with the world as it found it: nothing printed, nothing
    returned.  With n >= 1 it never raises [ZeroDivisionError], and the
    averages it returns are finite: every division it performs is defined. *)
Theorem MonteCarlo_division
    (rng_permutation : nat → nat → list nat)
    (posterior_argmax : list (gmap string nat * bool) → gmap string nat → bool)
    (render_ok : list (list nat) → list string → bool)
    (featuresets : loc) (w : World) :
  run (MonteCarloCrossValidation rng_permutation posterior_argmax render_ok
                                 featuresets 0) w
  = (Raise ZeroDivisionError, w)
  ∧ ∀ n, (1 ≤ n)%Z →
      match (run (MonteCarloCrossValidation rng_permutation posterior_argmax
                                            render_ok featuresets n) w).1 with
      | Ok metrics_averages => all_finite metrics_averages
      | Raise e => e ≠ ZeroDivisionError
      end.
Proof.
  split; [apply MonteCarlo_zero|].
  intros n Hn.
  apply (MonteCarlo_outcome rng_permutation posterior_argmax render_ok featuresets n);
    [lia|done].
Qed.

Lemma MonteCarlo_division_witness :
  match (run (MonteCarloCrossValidation demo_rng demo_argmax demo_render
                                        demo_featuresets 3) demo_world).1 with
  | Ok metrics_averages => all_finite metrics_averages
  | Raise e => e ≠ ZeroDivisionError
  end.
Proof.
  destruct (MonteCarlo_division demo_rng demo_argmax demo_render
              demo_featuresets demo_world) as [_ H].
  apply H. lia.
Defined.

End Claims.

Section ExtrasText.
Import Text Normalizer Vectorizer Py Featuresets Examples.

(** X1: when the stemmer leaves every space-delimited token of every lyric
    as it is and no token lower-cases to a stop word, [stemLyrics] returns
    the lyrics unchanged, character for character: cutting at the spaces and
    joining with spaces loses nothing, not even repeated spaces or line
    feeds. *)
Theorem stemLyrics_fixed_point
    (stem : string → string) (lyrics_column stop_words : list string) :
  Forall (λ raw, Forall (λ word, stem word = word ∧ lower word ∉ stop_words)
                        (split_space raw)) lyrics_column →
  stemLyrics stem lyrics_column stop_words = lyrics_column.
Proof.
  intros Hall. rewrite stemLyrics_fmap.
  induction Hall as [|raw lyrics Hraw _ IH]; [done|].
  csimpl. by rewrite IH, stem_lyric_fixed.
Qed.

Lemma stemLyrics_fixed_point_witness :
  stemLyrics toy_stem [" human  being "; two_line_lyric] ["the"; "a"]
  = [" human  being "; two_line_lyric].
Proof.
  apply stemLyrics_fixed_point.
  apply (bool_decide_unpack _). vm_compute. exact I.
Defined.

(** X2: the stop-word list matters only through the set of its entries that
    are their own lower-case form.  Order and repetitions are irrelevant,
    and an entry with an upper-case letter never filters anything, because
    the token is lower-cased before the comparison and the entry is not. *)
Theorem stemLyrics_stop_words_extensional
    (stem : string → string) (lyrics_column stop_words1 stop_words2 : list string) :
  (∀ s, lower s = s → (s ∈ stop_words1 ↔ s ∈ stop_words2)) →
  stemLyrics stem lyrics_column stop_words1 = stemLyrics stem lyrics_column stop_words2.
Proof.
  intros Hsame. rewrite !stemLyrics_fmap.
  apply list_fmap_ext. intros _ raw _. by apply stem_lyric_stop_words_ext.
Qed.

Lemma stemLyrics_stop_words_extensional_witness :
  stemLyrics toy_stem ["The cat and A dog"] ["the"; "a"]
  = stemLyrics toy_stem ["The cat and A dog"] ["A"; "a"; "the"; "The"; "a"].
Proof.
  apply stemLyrics_stop_words_extensional.
  intros s Hs. rewrite !elem_of_cons, !elem_of_nil. split.
  - intros [->|[->|[]]]; auto.
  - intros [->|[->|[->|[->|[->|[]]]]]]; auto; vm_compute in Hs; discriminate Hs.
Defined.

(** X3: when the stemmer puts no space into a space-free token, cutting a
    normalised string at its spaces gives back exactly the stems of the
    tokens that survived the stop-word filter, in order -- or one empty
    token when none survived -- so a normalised string never has more
    space-delimited tokens than its lyric. *)
Theorem stemLyrics_tokens
    (stem : string → string) (lyrics_column stop_words : list string) :
  (∀ word, has_space word = false → has_space (stem word) = false) →
  Forall2 (λ raw out,
             split_space out
             = match filter (λ word, lower word ∉ stop_words) (split_space raw) with
               | [] => [""]
               | kept => stem <$> kept
               end
             ∧ length (split_space out) ≤ length (split_space raw))
          lyrics_column (stemLyrics stem lyrics_column stop_words).
Proof.
  intros Hfree. rewrite stemLyrics_fmap.
  apply Forall2_fmap_r, Forall_Forall2_diag, Forall_forall. intros raw _.
  unfold compose. rewrite stem_lyric_resplit by done. split; [done|].
  pose proof (length_filter (λ word, lower word ∉ stop_words) (split_space raw)) as Hle.
  destruct (filter _ (split_space raw)) as [|word kept].
  - unfold split_space. destruct (split_on_cons_inv is_sp raw) as (t & ts & ->).
    simpl. lia.
  - by rewrite length_fmap.
Qed.

Lemma stemLyrics_tokens_witness :
  Forall2 (λ raw out,
             split_space out
             = match filter (λ word, lower word ∉ ["the"; "a"]) (split_space raw) with
               | [] => [""]
               | kept => lower <$> kept
               end
             ∧ length (split_space out) ≤ length (split_space raw))
          ["The  Cat"; "the A"] (stemLyrics lower ["The  Cat"; "the A"] ["the"; "a"]).
Proof.
  apply (stemLyrics_tokens lower ["The  Cat"; "the A"] ["the"; "a"]).
  intros word. apply has_space_lower.
Defined.

(** X4: the Vectorizer ignores letter case: lower-casing the normalised
    strings beforehand changes neither the vocabulary nor any count, and
    an empty vocabulary is rejected either way. *)
Theorem fit_transform_ignores_case (raw_documents : list string) :
  fit_transform (lower <$> raw_documents) = fit_transform raw_documents.
Proof.
  assert (fit_vocabulary (lower <$> raw_documents) = fit_vocabulary raw_documents) as Hv.
  { unfold fit_vocabulary. rewrite <- list_fmap_compose. do 3 f_equal.
    apply list_fmap_ext. intros _ doc _. apply build_analyzer_lower. }
  unfold fit_transform. rewrite Hv.
  destruct (fit_vocabulary raw_documents) as [|term vocabulary]; [done|].
  do 2 f_equal. rewrite <- list_fmap_compose.
  apply list_fmap_ext. intros _ doc _. simpl.
  unfold transform_row. by rewrite build_analyzer_lower.
Qed.

(** X5: the vocabulary and its column order do not depend on the order of
    the tracks: for a permutation of the same strings the Vectorizer fits
    the same vocabulary and gives every string the same count-vector, and
    it raises on one order exactly when it raises on the other. *)
Theorem fit_transform_track_order (raw_documents raw_documents' : list string) :
  raw_documents ≡ₚ raw_documents' →
  match fit_transform raw_documents, fit_transform raw_documents' with
  | Ok (v, vec), Ok (v', vec') =>
      v = v' ∧ zip raw_documents vec ≡ₚ zip raw_documents' vec'
  | Raise e, Raise e' => e = e'
  | _, _ => False
  end.
Proof.
  intros Hperm. unfold fit_transform.
  rewrite <- (fit_vocabulary_Permutation _ _ Hperm).
  destruct (fit_vocabulary raw_documents) as [|term vocabulary]; [done|].
  split; [done|].
  rewrite !zip_fmap_self. by apply fmap_Permutation.
Qed.

Lemma fit_transform_track_order_witness :
  match fit_transform ["damn hell"; "hello"; "Hell yeah"],
        fit_transform ["hello"; "damn hell"; "Hell yeah"] with
  | Ok (v, vec), Ok (v', vec') =>
      v = v' ∧ zip ["damn hell"; "hello"; "Hell yeah"] vec
               ≡ₚ zip ["hello"; "damn hell"; "Hell yeah"] vec'
  | Raise e, Raise e' => e = e'
  | _, _ => False
  end.
Proof.
  apply (fit_transform_track_order ["damn hell"; "hello"; "Hell yeah"]
                                   ["hello"; "damn hell"; "Hell yeah"]).
  apply perm_swap.
Defined.

(** X6: the data preparation as a whole (cells 5 and 7): whenever the
    Vectorizer returns, the feature dictionary of each track maps every
    vocabulary word to the number of times the word occurs among the
    Vectorizer's tokens of that track's normalised lyric, and holds no other
    key; and every vocabulary word has a positive count in the dictionary
    of at least one track. *)
Theorem featureset_entries
    (stem : string → string) (tracks : list (string * bool))
    (stopWords : list string) (w : World) (v : CountVectorizer)
    (vec : list (list nat)) :
  fit_transform (stemLyrics stem tracks.*1 stopWords) = Ok (v, vec) →
  ∃ featuresets w' fs,
    run (data_preparation stem tracks stopWords) w = (Ok featuresets, w')
    ∧ contents (heap w') featuresets = Some fs
    ∧ Forall2 (λ track pair, ∀ word,
                 pair.1 !! word
                 = if decide (word ∈ get_feature_names_out v)
                   then Some (count_of word
                                (build_analyzer (stem_lyric stem stopWords track.1)))
                   else None) tracks fs
    ∧ ∀ word, word ∈ get_feature_names_out v →
              Exists (λ pair, ∃ count, pair.1 !! word = Some count ∧ 0 < count) fs.
Proof.
  intros Hfit. pose proof Hfit as (Hv & _ & Hvec)%fit_transform_Ok.
  unfold get_feature_names_out.
  assert (Hnd : NoDup (vocabulary_ v)) by (rewrite Hv; apply fit_vocabulary_NoDup).
  assert (Hrow : ∀ doc, length (transform_row v doc) = length (vocabulary_ v)).
  { intros doc. unfold transform_row. by rewrite length_fmap. }
  assert (Hrows : Forall (λ row, length (vocabulary_ v) ≤ length row) vec).
  { rewrite Hvec. apply Forall_fmap, Forall_forall. intros doc _. simpl.
    by rewrite Hrow. }
  assert (Hlen : length tracks.*2 ≤ length vec).
  { by rewrite Hvec, stemLyrics_fmap, !length_fmap. }
  destruct (run_build_featuresets _ _ _ w Hnd Hrows Hlen)
    as (out & w' & Hrun & _ & Hcontents).
  assert (Hentry : ∀ doc word,
            feature_map (vocabulary_ v) (transform_row v doc) !! word
            = if decide (word ∈ vocabulary_ v)
              then Some (count_of word (build_analyzer doc)) else None).
  { intros doc word. case_decide as Hin.
    - apply list_elem_of_lookup in Hin as [j Hj].
      rewrite (feature_map_lookup _ _ j) by (done || by rewrite Hrow).
      by apply transform_row_lookup.
    - by apply feature_map_lookup_None. }
  assert (Hfs : zip_with (λ row label, (feature_map (vocabulary_ v) row, label))
                         vec tracks.*2
                = (λ track, (feature_map (vocabulary_ v)
                               (transform_row v (stem_lyric stem stopWords track.1)),
                             track.2)) <$> tracks).
  { rewrite Hvec, stemLyrics_fmap. clear.
    induction tracks as [|[lyric label] tracks IH]; [done|]. csimpl. by rewrite IH. }
  rewrite Hfs in Hcontents.
  eexists out, w', _. split; [unfold data_preparation; by rewrite Hfit|].
  split; [exact Hcontents|]. split.
  - apply Forall2_fmap_r, Forall_Forall2_diag, Forall_forall.
    intros track _ word. simpl. apply Hentry.
  - intros word Hword. pose proof Hword as Hword'.
    rewrite Hv in Hword'.
    apply elem_of_fit_vocabulary in Hword' as (doc & Hdoc & Htoken).
    rewrite stemLyrics_fmap in Hdoc.
    apply list_elem_of_fmap in Hdoc as (lyric & -> & Hlyric).
    apply list_elem_of_fmap in Hlyric as (track & -> & Htrack).
    apply Exists_exists. eexists. split.
    { apply list_elem_of_fmap. exists track. split; [reflexivity|done]. }
    simpl. eexists. rewrite Hentry, decide_True by done.
    split; [done|]. by apply count_of_pos.
Qed.

Lemma featureset_entries_witness :
  ∃ featuresets w' fs,
    run (data_preparation lower demo_tracks demo_stop_words) empty_world
    = (Ok featuresets, w')
    ∧ contents (heap w') featuresets = Some fs
    ∧ Forall2 (λ track pair, ∀ word,
                 pair.1 !! word
                 = if decide (word ∈ ["damn"; "day"; "hell"; "hello"; "right";
                                      "sunshine"; "sweet"; "world"; "yeah"])
                   then Some (count_of word
                                (build_analyzer (stem_lyric lower demo_stop_words track.1)))
                   else None) demo_tracks fs
    ∧ ∀ word, word ∈ ["damn"; "day"; "hell"; "hello"; "right";
                      "sunshine"; "sweet"; "world"; "yeah"] →
              Exists (λ pair, ∃ count, pair.1 !! word = Some count ∧ 0 < count) fs.
Proof.
  apply (featureset_entries lower demo_tracks demo_stop_words empty_world
           {| vocabulary_ := ["damn"; "day"; "hell"; "hello"; "right";
                              "sunshine"; "sweet"; "world"; "yeah"] |}
           (transform_row {| vocabulary_ := ["damn"; "day"; "hell"; "hello"; "right";
                                             "sunshine"; "sweet"; "world"; "yeah"] |}
              <$> stemLyrics lower demo_tracks.*1 demo_stop_words)).
  vm_compute. reflexivity.
Defined.

End ExtrasText.

Section ExtrasFeaturesets.
Import Text Normalizer Vectorizer Py Featuresets Effects NaiveBayes Examples.

(** X7: reductions compose.  Reducing the featuresets to the names
    [names1] and then reducing the result to the names [names2] gives
    featuresets with the same contents as one reduction to the names that
    are in both lists; in particular a second reduction to the same names
    changes nothing. *)
Theorem selection_composes
    (names1 names2 : list string) (featuresets : loc) (w : World)
    (fs : list (gmap string nat * bool)) :
  contents (heap w) featuresets = Some fs →
  ∃ reduced1 w1 reduced2 w2 direct w3 fs',
    run (select_informative names1 featuresets) w = (Ok reduced1, w1)
    ∧ run (select_informative names2 reduced1) w1 = (Ok reduced2, w2)
    ∧ run (select_informative (filter (.∈ names2) names1) featuresets) w
      = (Ok direct, w3)
    ∧ contents (heap w2) reduced2 = Some fs'
    ∧ contents (heap w3) direct = Some fs'.
Proof.
  intros Hfs.
  destruct (run_select_informative names1 featuresets w fs Hfs)
    as (reduced1 & w1 & Hrun1 & _ & Hfs1).
  destruct (run_select_informative names2 reduced1 w1 _ Hfs1)
    as (reduced2 & w2 & Hrun2 & _ & Hfs2).
  destruct (run_select_informative (filter (.∈ names2) names1) featuresets w fs Hfs)
    as (direct & w3 & Hrun3 & _ & Hfs3).
  exists reduced1, w1, reduced2, w2, direct, w3. eexists.
  split; [done|]. split; [done|]. split; [done|]. split; [|exact Hfs3].
  rewrite Hfs2. f_equal. rewrite <- list_fmap_compose.
  apply list_fmap_ext. intros _ [m label] _. simpl. by rewrite restrict_restrict.
Qed.

Lemma selection_composes_witness :
  ∃ reduced1 w1 reduced2 w2 direct w3 fs',
    run (select_informative ["damn"; "hell"; "yeah"] demo_featuresets) demo_world
    = (Ok reduced1, w1)
    ∧ run (select_informative ["yeah"; "damn"; "world"] reduced1) w1 = (Ok reduced2, w2)
    ∧ run (select_informative
             (filter (.∈ ["yeah"; "damn"; "world"]) ["damn"; "hell"; "yeah"])
             demo_featuresets) demo_world
      = (Ok direct, w3)
    ∧ contents (heap w2) reduced2 = Some fs'
    ∧ contents (heap w3) direct = Some fs'.
Proof.
  apply (selection_composes ["damn"; "hell"; "yeah"] ["yeah"; "damn"; "world"]
           demo_featuresets demo_world demo_contents).
  apply demo_contents_eq.
Defined.

(** X8: a reduction depends on the list of names only through which keys
    of the featuresets it lists: two lists that agree on every key that
    occurs in some feature dictionary -- whatever their order, their
    repetitions and their other entries -- give reduced featuresets with the
    same contents. *)
Theorem selection_names_as_set
    (names1 names2 : list string) (featuresets : loc) (w : World)
    (fs : list (gmap string nat * bool)) :
  contents (heap w) featuresets = Some fs →
  (∀ x k, x ∈ fs → is_Some (x.1 !! k) → (k ∈ names1 ↔ k ∈ names2)) →
  ∃ reduced1 w1 reduced2 w2 fs',
    run (select_informative names1 featuresets) w = (Ok reduced1, w1)
    ∧ run (select_informative names2 featuresets) w = (Ok reduced2, w2)
    ∧ contents (heap w1) reduced1 = Some fs'
    ∧ contents (heap w2) reduced2 = Some fs'.
Proof.
  intros Hfs Hsame.
  destruct (run_select_informative names1 featuresets w fs Hfs)
    as (reduced1 & w1 & Hrun1 & _ & Hfs1).
  destruct (run_select_informative names2 featuresets w fs Hfs)
    as (reduced2 & w2 & Hrun2 & _ & Hfs2).
  exists reduced1, w1, reduced2, w2. eexists.
  split; [done|]. split; [done|]. split; [exact Hfs1|].
  rewrite Hfs2. f_equal. apply list_fmap_ext. intros i [m label] Hi. simpl.
  f_equal. symmetry. apply restrict_ext. intros k Hk.
  apply (Hsame (m, label)); [|done]. by eapply list_elem_of_lookup_2.
Qed.

Lemma selection_names_as_set_witness :
  ∃ reduced1 w1 reduced2 w2 fs',
    run (select_informative ["damn"; "hell"] demo_featuresets) demo_world
    = (Ok reduced1, w1)
    ∧ run (select_informative ["hell"; "damn"; "hell"] demo_featuresets) demo_world
      = (Ok reduced2, w2)
    ∧ contents (heap w1) reduced1 = Some fs'
    ∧ contents (heap w2) reduced2 = Some fs'.
Proof.
  apply (selection_names_as_set ["damn"; "hell"] ["hell"; "damn"; "hell"]
           demo_featuresets demo_world demo_contents).
  - apply demo_contents_eq.
  - intros x k _ _. rewrite !elem_of_cons, !elem_of_nil. tauto.
Defined.

(** X9: when the list names every key of every feature dictionary, the
    reduction is a copy: the returned list is another object than the
    input, and its contents are those of the input. *)
Theorem selection_with_all_keys_copies
    (names : list string) (featuresets : loc) (w : World)
    (fs : list (gmap string nat * bool)) :
  contents (heap w) featuresets = Some fs →
  (∀ x k, x ∈ fs → is_Some (x.1 !! k) → k ∈ names) →
  ∃ reduced w',
    run (select_informative names featuresets) w = (Ok reduced, w')
    ∧ reduced ≠ featuresets
    ∧ contents (heap w') reduced = Some fs
    ∧ contents (heap w') featuresets = Some fs.
Proof.
  intros Hfs Hall.
  destruct (run_select_informative_created names featuresets w fs Hfs)
    as (reduced & w' & outs & Hrun & (Hsub & _ & Hnew & _) & _).
  destruct (run_select_informative names featuresets w fs Hfs)
    as (reduced' & w'' & Hrun' & _ & Hfs').
  rewrite Hrun in Hrun'. injection Hrun' as <- <-.
  exists reduced, w'. split; [done|]. split.
  { intros ->. unfold contents in Hfs. by rewrite Hnew in Hfs. }
  split; [|by eapply contents_weaken].
  rewrite Hfs'. f_equal. rewrite <- (list_fmap_id fs) at 2.
  apply list_fmap_ext. intros i [m label] Hi. simpl. f_equal.
  apply restrict_all. intros k Hk.
  apply (Hall (m, label)); [|done]. by eapply list_elem_of_lookup_2.
Qed.

Lemma selection_with_all_keys_copies_witness :
  ∃ reduced w',
    run (select_informative
           ["damn"; "day"; "hell"; "hello"; "right"; "sunshine"; "sweet"; "world"; "yeah"]
           demo_featuresets) demo_world = (Ok reduced, w')
    ∧ reduced ≠ demo_featuresets
    ∧ contents (heap w') reduced = Some demo_contents
    ∧ contents (heap w') demo_featuresets = Some demo_contents.
Proof.
  apply selection_with_all_keys_copies.
  - apply demo_contents_eq.
  - assert (Forall (λ x : gmap string nat * bool,
               Forall (.∈ ["damn"; "day"; "hell"; "hello"; "right"; "sunshine";
                           "sweet"; "world"; "yeah"]) (map_to_list x.1).*1)
                   demo_contents) as Hkeys.
    { apply (bool_decide_unpack _). vm_compute. exact I. }
    intros x k Hx Hk. rewrite Forall_forall in Hkeys.
    specialize (Hkeys x Hx). rewrite Forall_forall in Hkeys.
    by apply Hkeys, elem_of_keys.
Defined.

(** X10: the reduction of cell 13 only creates objects: it returns a new
    list whose pairs hold new dictionaries, one per input pair and no two
    the same, none of them an object that existed before; nothing else is
    added to the heap, nothing is drawn from the generator and nothing is
    printed.  So later changes to the reduced featuresets cannot reach the
    original ones. *)
Theorem selection_creates_new_objects
    (names : list string) (featuresets : loc) (w : World)
    (fs : list (gmap string nat * bool)) :
  contents (heap w) featuresets = Some fs →
  ∃ reduced w' pairs,
    run (select_informative names featuresets) w = (Ok reduced, w')
    ∧ heap w !! reduced = None
    ∧ heap w' !! reduced = Some (OList pairs)
    ∧ length pairs = length fs
    ∧ NoDup pairs.*1
    ∧ Forall (λ d, heap w !! d = None ∧ d ≠ reduced) pairs.*1
    ∧ dom (heap w') = dom (heap w) ∪ {[reduced]} ∪ list_to_set pairs.*1
    ∧ rng_calls w' = rng_calls w
    ∧ stdout w' = stdout w.
Proof.
  intros Hfs.
  destruct (run_select_informative_created names featuresets w fs Hfs)
    as (reduced & w' & pairs & Hrun & (_ & Hlist & Hnew & Hnd & Hfresh & Hdom) & Hall).
  exists reduced, w', pairs.
  pose proof (silent_select_informative names featuresets w) as Hsilent.
  rewrite Hrun in Hsilent. simpl in Hsilent.
  do 3 (split; [done|]). split; [by eapply Forall2_length|].
  do 3 (split; [done|]). done.
Qed.

Lemma selection_creates_new_objects_witness :
  ∃ reduced w' pairs,
    run (select_informative ["damn"; "hell"] demo_featuresets) demo_world
    = (Ok reduced, w')
    ∧ heap demo_world !! reduced = None
    ∧ heap w' !! reduced = Some (OList pairs)
    ∧ length pairs = length demo_contents
    ∧ NoDup pairs.*1
    ∧ Forall (λ d, heap demo_world !! d = None ∧ d ≠ reduced) pairs.*1
    ∧ dom (heap w') = dom (heap demo_world) ∪ {[reduced]} ∪ list_to_set pairs.*1
    ∧ rng_calls w' = rng_calls demo_world
    ∧ stdout w' = stdout demo_world.
Proof.
  apply selection_creates_new_objects. apply demo_contents_eq.
Defined.

(** X11: the Featureset Builder creates one new dictionary per track: after
    the data preparation the featuresets list is a new object, its pairs
    carry the tracks' labels in order and hold dictionaries that are new,
    pairwise different objects; nothing else is added to the heap, nothing
    is drawn from the generator and nothing is printed. *)
Theorem featuresets_are_new_objects
    (stem : string → string) (tracks : list (string * bool))
    (stopWords : list string) (w : World) (v : CountVectorizer)
    (vec : list (list nat)) :
  fit_transform (stemLyrics stem tracks.*1 stopWords) = Ok (v, vec) →
  ∃ featuresets w' pairs,
    run (data_preparation stem tracks stopWords) w = (Ok featuresets, w')
    ∧ heap w !! featuresets = None
    ∧ heap w' !! featuresets = Some (OList pairs)
    ∧ pairs.*2 = tracks.*2
    ∧ NoDup pairs.*1
    ∧ Forall (λ d, heap w !! d = None ∧ d ≠ featuresets) pairs.*1
    ∧ dom (heap w') = dom (heap w) ∪ {[featuresets]} ∪ list_to_set pairs.*1
    ∧ (∀ l o, heap w !! l = Some o → heap w' !! l = Some o)
    ∧ rng_calls w' = rng_calls w
    ∧ stdout w' = stdout w.
Proof.
  intros Hfit. pose proof Hfit as (Hv & _ & Hvec)%fit_transform_Ok.
  assert (Hnd : NoDup (vocabulary_ v)) by (rewrite Hv; apply fit_vocabulary_NoDup).
  assert (Hrows : Forall (λ row, length (vocabulary_ v) ≤ length row) vec).
  { rewrite Hvec. apply Forall_fmap, Forall_forall. intros doc _. simpl.
    unfold transform_row. by rewrite length_fmap. }
  assert (Hlen : length tracks.*2 = length vec).
  { by rewrite Hvec, stemLyrics_fmap, !length_fmap. }
  destruct (run_build_featuresets_created (vocabulary_ v) vec tracks.*2 w)
    as (featuresets & w' & pairs & Hrun & (Hsub & Hlist & Hnew & Hnd' & Hfresh & Hdom) & Hall);
    [done|done|lia|].
  pose proof (silent_build_featuresets (vocabulary_ v) vec tracks.*2 w) as Hsilent.
  rewrite Hrun in Hsilent. simpl in Hsilent.
  exists featuresets, w', pairs.
  split; [unfold data_preparation; by rewrite Hfit|].
  do 2 (split; [done|]). split.
  { apply list_eq_Forall2, Forall2_fmap.
    apply Forall2_same_length_lookup. split.
    { rewrite (Forall2_length _ _ _ Hall), length_zip_with.
      rewrite length_fmap in Hlen |- *. lia. }
    intros i pair track Hpair Htrack.
    destruct (Forall2_lookup_l _ _ _ _ _ Hall Hpair) as (x & Hx & Hlabel & _).
    apply lookup_zip_with_Some in Hx as (row & label & -> & _ & Hl).
    rewrite list_lookup_fmap, Htrack in Hl. injection Hl as <-. done. }
  do 3 (split; [done|]). split; [|done].
  intros l o Hl. by eapply lookup_weaken.
Qed.

Lemma featuresets_are_new_objects_witness :
  ∃ featuresets w' pairs,
    run (data_preparation lower demo_tracks demo_stop_words) empty_world
    = (Ok featuresets, w')
    ∧ heap empty_world !! featuresets = None
    ∧ heap w' !! featuresets = Some (OList pairs)
    ∧ pairs.*2 = demo_tracks.*2
    ∧ NoDup pairs.*1
    ∧ Forall (λ d, heap empty_world !! d = None ∧ d ≠ featuresets) pairs.*1
    ∧ dom (heap w') = dom (heap empty_world) ∪ {[featuresets]} ∪ list_to_set pairs.*1
    ∧ (∀ l o, heap empty_world !! l = Some o → heap w' !! l = Some o)
    ∧ rng_calls w' = rng_calls empty_world
    ∧ stdout w' = stdout empty_world.
Proof.
  apply (featuresets_are_new_objects lower demo_tracks demo_stop_words empty_world
           {| vocabulary_ := ["damn"; "day"; "hell"; "hello"; "right";
                              "sunshine"; "sweet"; "world"; "yeah"] |}
           (transform_row {| vocabulary_ := ["damn"; "day"; "hell"; "hello"; "right";
                                             "sunshine"; "sweet"; "world"; "yeah"] |}
              <$> stemLyrics lower demo_tracks.*1 demo_stop_words)).
  vm_compute. reflexivity.
Defined.

End ExtrasFeaturesets.

Section ExtrasNaiveBayes.
Import Text Py Featuresets Effects Metrics NaiveBayes Examples.

(** X12: one evaluation run partitions the featuresets.  When a call
    returns, the sample its classifier was trained on and the held-out test
    sample together are the featuresets, each exactly once; the test sample
    has [ceil(n/4)] items and the training sample the other [n - ceil(n/4)];
    and the four arrays of the metrics are those that
    [precision_recall_fscore_support] returns for the test sample's labels
    against the classifier's predictions for the test sample's feature
    maps. *)
Theorem naive_bayes_partitions_the_featuresets
    (rng_permutation : nat → nat → list nat)
    (posterior_argmax : list (gmap string nat * bool) → gmap string nat → bool)
    (render_ok : list (list nat) → list string → bool)
    (featuresets : loc) (printMetrics showConfusionMatrix : bool) (w w' : World)
    (fs : list (gmap string nat * bool))
    (classifier : NaiveBayesClassifier) (metrics : metrics_dict) :
  contents (heap w) featuresets = Some fs →
  2 ≤ length fs →
  rng_permutation (rng_calls w) (length fs) ≡ₚ seq 0 (length fs) →
  run (naive_bayes rng_permutation posterior_argmax render_ok featuresets
                   printMetrics showConfusionMatrix) w
  = (Ok (classifier, metrics), w') →
  ∃ test p r f s,
    training classifier ++ test ≡ₚ fs
    ∧ length test = (length fs + 3) / 4
    ∧ length (training classifier) = length fs - (length fs + 3) / 4
    ∧ precision_recall_fscore_support test.*2
        ((λ x, posterior_argmax (training classifier)
                 (filter (λ kv, known_fname classifier kv.1 = true) x.1)) <$> test)
      = Ok (p, r, f, s)
    ∧ metrics = [("precision", NdFloat p); ("recall", NdFloat r);
                 ("f-score", NdFloat f); ("support", s)].
Proof.
  intros Hfs Hn Hperm Hrun.
  destruct (naive_bayes_run rng_permutation posterior_argmax render_ok featuresets
              printMetrics showConfusionMatrix w fs Hfs Hn Hperm)
    as (sample & test & p & r & f & s & w1 & Hsample & Htest & Hprfs & Hrun' & _).
  rewrite Hrun in Hrun'.
  destruct (_ && _); [discriminate Hrun'|]. injection Hrun' as -> -> _.
  exists test, p, r, f, s. cbn [training].
  pose proof (split_Permutation _ _ _ _ _ Hperm Htest Hsample) as Hpart.
  assert (length test = (length fs + 3) / 4) as Hlen.
  { rewrite <- (Forall2_length _ _ _ Htest), length_take, Hperm, length_seq.
    apply Nat.min_l, Nat.lt_le_incl. by destruct (test_size_bounds _ Hn). }
  split; [done|]. split; [done|]. split; [|done].
  apply Permutation_length in Hpart. rewrite length_app in Hpart. lia.
Qed.

Lemma naive_bayes_partitions_the_featuresets_witness :
  ∃ test p r f s,
    training demo_classifier ++ test ≡ₚ demo_contents
    ∧ length test = (length demo_contents + 3) / 4
    ∧ length (training demo_classifier)
      = length demo_contents - (length demo_contents + 3) / 4
    ∧ precision_recall_fscore_support test.*2
        ((λ x, demo_argmax (training demo_classifier)
                 (filter (λ kv, known_fname demo_classifier kv.1 = true) x.1)) <$> test)
      = Ok (p, r, f, s)
    ∧ demo_metrics = [("precision", NdFloat p); ("recall", NdFloat r);
                      ("f-score", NdFloat f); ("support", s)].
Proof.
  apply (naive_bayes_partitions_the_featuresets demo_rng demo_argmax demo_render
           demo_featuresets true false demo_world demo_after).
  - apply demo_contents_eq.
  - vm_compute. lia.
  - apply reverse_Permutation.
  - exact demo_call_eq.
Defined.

(** X13: what one evaluation run does besides computing.  On a well-formed
    list of at least two featuresets it draws exactly one permutation from
    the generator, whatever its outcome.  It prints the four metrics, in
    the order precision, recall, f-score, support, exactly when
    [printMetrics] is set, and then plots one confusion matrix with the tick
    labels "Not Explicit" and "Explicit" exactly when
    [showConfusionMatrix] is set; it prints nothing else.  The only
    exception is the failure of the plot, which comes after the metrics
    were printed. *)
Theorem naive_bayes_effects
    (rng_permutation : nat → nat → list nat)
    (posterior_argmax : list (gmap string nat * bool) → gmap string nat → bool)
    (render_ok : list (list nat) → list string → bool)
    (featuresets : loc) (printMetrics showConfusionMatrix : bool) (w : World)
    (fs : list (gmap string nat * bool)) :
  contents (heap w) featuresets = Some fs →
  2 ≤ length fs →
  rng_permutation (rng_calls w) (length fs) ≡ₚ seq 0 (length fs) →
  let outcome := run (naive_bayes rng_permutation posterior_argmax render_ok
                                  featuresets printMetrics showConfusionMatrix) w in
  rng_calls outcome.2 = S (rng_calls w)
  ∧ ∃ p r f s confusionMatrix,
      let printed :=
        if printMetrics
        then [Printed "precision" (NdFloat p); Printed "recall" (NdFloat r);
              Printed "f-score" (NdFloat f); Printed "support" s]
        else [] in
      match outcome.1 with
      | Ok (_, metrics) =>
          metrics = [("precision", NdFloat p); ("recall", NdFloat r);
                     ("f-score", NdFloat f); ("support", s)]
          ∧ stdout outcome.2
            = stdout w ++ printed
                ++ (if showConfusionMatrix
                    then [Plotted confusionMatrix ["Not Explicit"; "Explicit"]]
                    else [])
      | Raise e =>
          e = RenderError ∧ showConfusionMatrix = true
          ∧ stdout outcome.2 = stdout w ++ printed
      end.
Proof.
  intros Hfs Hn Hperm outcome.
  destruct (naive_bayes_run rng_permutation posterior_argmax render_ok featuresets
              printMetrics showConfusionMatrix w fs Hfs Hn Hperm)
    as (sample & test & p & r & f & s & w1 & _ & _ & _ & Hrun & _ & Hrng & Hout).
  unfold outcome. rewrite Hrun. simpl. split; [done|].
  exists p, r, f, s. eexists.
  destruct showConfusionMatrix; simpl in *.
  - destruct (render_ok _ _); simpl in *; [by split|].
    rewrite app_nil_r in Hout. by split.
  - split; [done|]. exact Hout.
Qed.

Lemma naive_bayes_effects_witness :
  let outcome := run (naive_bayes demo_rng demo_argmax demo_render
                                  demo_featuresets true true) demo_world in
  rng_calls outcome.2 = S (rng_calls demo_world)
  ∧ ∃ p r f s confusionMatrix,
      let printed :=
        if true
        then [Printed "precision" (NdFloat p); Printed "recall" (NdFloat r);
              Printed "f-score" (NdFloat f); Printed "support" s]
        else [] in
      match outcome.1 with
      | Ok (_, metrics) =>
          metrics = [("precision", NdFloat p); ("recall", NdFloat r);
                     ("f-score", NdFloat f); ("support", s)]
          ∧ stdout outcome.2
            = stdout demo_world ++ printed
                ++ (if true
                    then [Plotted confusionMatrix ["Not Explicit"; "Explicit"]]
                    else [])
      | Raise e =>
          e = RenderError ∧ true = true
          ∧ stdout outcome.2 = stdout demo_world ++ printed
      end.
Proof.
  apply (naive_bayes_effects demo_rng demo_argmax demo_render demo_featuresets
           true true demo_world demo_contents).
  - apply demo_contents_eq.
  - vm_compute. lia.
  - apply reverse_Permutation.
Defined.

(** X14: a prediction depends only on the features the classifier has seen
    in training.  Two feature dictionaries that agree on every name that
    occurs in some training featureset get the same label, whatever other
    keys they hold: [classify] deletes the unknown names from its copy
    before it decides. *)
Theorem classify_ignores_unknown_features
    (posterior_argmax : list (gmap string nat * bool) → gmap string nat → bool)
    (classifier : NaiveBayesClassifier) (features1 features2 : loc)
    (m1 m2 : gmap string nat) (w : World) :
  heap w !! features1 = Some (ODict m1) →
  heap w !! features2 = Some (ODict m2) →
  (∀ fname, known_fname classifier fname = true → m1 !! fname = m2 !! fname) →
  ∃ label w1 w2,
    run (classify posterior_argmax classifier features1) w = (Ok label, w1)
    ∧ run (classify posterior_argmax classifier features2) w = (Ok label, w2).
Proof.
  intros H1 H2 Hagree.
  destruct (classify_run posterior_argmax classifier features1 m1 w H1)
    as (w1 & Hrun1 & _).
  destruct (classify_run posterior_argmax classifier features2 m2 w H2)
    as (w2 & Hrun2 & _).
  eexists _, w1, w2. split; [exact Hrun1|]. rewrite Hrun2. do 3 f_equal.
  apply map_filter_strong_ext_1. intros k v. simpl.
  split; intros [Hk Hv]; (split; [done|]); specialize (Hagree k Hk); congruence.
Qed.

Lemma classify_ignores_unknown_features_witness :
  ∃ label w1 w2,
    run (classify demo_argmax {| training := [(<["damn" := 1]> ∅, true)] |} 0)
        {| heap := <[1 := ODict (<["damn" := 1]> ∅)]>
                     (<[0 := ODict (<["damn" := 1]> (<["yeah" := 2]> ∅))]> ∅);
           rng_calls := 0; stdout := [] |}
    = (Ok label, w1)
    ∧ run (classify demo_argmax {| training := [(<["damn" := 1]> ∅, true)] |} 1)
          {| heap := <[1 := ODict (<["damn" := 1]> ∅)]>
                       (<[0 := ODict (<["damn" := 1]> (<["yeah" := 2]> ∅))]> ∅);
             rng_calls := 0; stdout := [] |}
      = (Ok label, w2).
Proof.
  apply (classify_ignores_unknown_features demo_argmax
           {| training := [(<["damn" := 1]> ∅, true)] |} 0 1
           (<["damn" := 1]> (<["yeah" := 2]> ∅)) (<["damn" := 1]> ∅)).
  - simpl. by rewrite lookup_insert_ne, lookup_insert_eq.
  - simpl. by rewrite lookup_insert_eq.
  - intros fname. unfold known_fname. simpl. rewrite orb_false_r.
    intros [<-|Hk]%bool_decide_eq_true%lookup_insert_is_Some'.
    + by rewrite !lookup_insert_eq.
    + rewrite lookup_empty in Hk. by destruct Hk.
Defined.

End ExtrasNaiveBayes.

Section ExtrasMonteCarlo.
Import Text Py Featuresets Effects Metrics Arith NaiveBayes MonteCarlo Averages.
Import Examples MoreExamples.

(** X15: with a negative repetition count the validator makes no run and
    its divisions succeed ([0 / n] for Python integers), but the loop that
    prints reads [metrics], which no run has bound: the call raises
    [UnboundLocalError] with the world as it found it -- nothing drawn,
    nothing printed, nothing returned. *)
Theorem MonteCarlo_negative_count
    (rng_permutation : nat → nat → list nat)
    (posterior_argmax : list (gmap string nat * bool) → gmap string nat → bool)
    (render_ok : list (list nat) → list string → bool)
    (featuresets : loc) (n : Z) (w : World) :
  (n < 0)%Z →
  run (MonteCarloCrossValidation rng_permutation posterior_argmax render_ok
                                 featuresets n) w
  = (Raise UnboundLocalError, w).
Proof. intros Hn. destruct n as [|n|n]; [lia|lia|reflexivity]. Qed.

Lemma MonteCarlo_negative_count_witness :
  run (MonteCarloCrossValidation demo_rng demo_argmax demo_render
                                 demo_featuresets (-3)) demo_world
  = (Raise UnboundLocalError, demo_world).
Proof. apply MonteCarlo_negative_count. lia. Defined.

(** X16: the effects of the validator, for every input.  It changes no
    object that existed before the call.  When it returns, it has drawn
    exactly [n] permutations, its result has the four keys precision,
    recall, f-score, support in this order, and it has printed exactly four
    lines, "average precision" to "average support", with the values it
    returns.  When it raises, it has printed nothing and drawn at most [n]
    permutations. *)
Theorem MonteCarlo_effects
    (rng_permutation : nat → nat → list nat)
    (posterior_argmax : list (gmap string nat * bool) → gmap string nat → bool)
    (render_ok : list (list nat) → list string → bool)
    (featuresets : loc) (n : Z) (w : World) :
  let outcome := run (MonteCarloCrossValidation rng_permutation posterior_argmax
                                                render_ok featuresets n) w in
  (∀ l o, heap w !! l = Some o → heap outcome.2 !! l = Some o)
  ∧ match outcome.1 with
    | Ok metrics_averages =>
        ∃ vp vr vf vs,
          metrics_averages
          = [("precision", vp); ("recall", vr); ("f-score", vf); ("support", vs)]
          ∧ stdout outcome.2
            = stdout w ++ [Printed "average precision" vp; Printed "average recall" vr;
                           Printed "average f-score" vf; Printed "average support" vs]
          ∧ rng_calls outcome.2 = rng_calls w + Z.to_nat n
    | Raise _ =>
        stdout outcome.2 = stdout w
        ∧ rng_calls w ≤ rng_calls outcome.2 ≤ rng_calls w + Z.to_nat n
    end.
Proof.
  intros outcome. split.
  - intros l o Hl.
    destruct (MonteCarlo_frames rng_permutation posterior_argmax render_ok (heap w)
                featuresets n w) as [Hsub _]; [done|].
    by eapply lookup_weaken.
  - apply MonteCarlo_run_effects.
Qed.

(** X17: the validator returns the element-wise mean of its runs.  When
    the [n >= 1] runs it makes all return arrays of one length, with int64
    support arrays (each run predicted some test item correctly), the
    validator returns: its precision, recall and f-score arrays are the
    float64 sums of the runs' arrays, added up entry by entry in the order
    of the runs, divided by [n]; its support array holds the integer sums
    of the runs' supports, converted to float64 and divided by [n]. *)
Theorem MonteCarlo_mean
    (rng_permutation : nat → nat → list nat)
    (posterior_argmax : list (gmap string nat * bool) → gmap string nat → bool)
    (render_ok : list (list nat) → list string → bool)
    (featuresets : loc) (n : nat) (w w1 : World) (ms : list metrics_dict) (L : nat) :
  0 < n →
  run (repeat_runs rng_permutation posterior_argmax render_ok featuresets n) w
  = (Ok ms, w1) →
  Forall (λ m, length <$> int_array_of "support" m = Some L) ms →
  ∃ metrics_averages w2,
    run (MonteCarloCrossValidation rng_permutation posterior_argmax render_ok
                                   featuresets (Z.of_nat n)) w
    = (Ok metrics_averages, w2)
    ∧ (∀ key, key ∈ ["precision"; "recall"; "f-score"] →
         ∃ arrays,
           mapM (float_array_of key) ms = Some arrays
           ∧ md_lookup metrics_averages key
             = Some (NdFloat (elementwise_mean (Z.of_nat n) arrays)))
    ∧ ∃ supports,
        mapM (int_array_of "support") ms = Some supports
        ∧ md_lookup metrics_averages "support"
          = Some (NdFloat ((λ z, np_div (of_int z) (Z.of_nat n))
                             <$> elementwise_int_sum supports)).
Proof.
  intros Hn Hruns Hshape. destruct n as [|n]; [lia|].
  destruct (MonteCarlo_closed_form rng_permutation posterior_argmax render_ok
              featuresets n w ms w1 L Hruns Hshape)
    as (t & ts & w2 & -> & Hfl & Hrun).
  eexists _, w2. split; [exact Hrun|].
  apply Forall_cons_1 in Hfl as [(Hp & Hr & Hf) _].
  rewrite foldl_add_run. destruct t as [[[p r] f] s].
  cbn [first_run fst snd] in *.
  rewrite !add_zero_floats, add_zero_ints by done.
  split.
  - intros key. rewrite !elem_of_cons, elem_of_nil.
    intros [->|[->|[->|[]]]].
    + eexists. split.
      { apply (mapM_dict_of (float_array_of "precision") (λ t, t.1.1.1)).
        by intros [[[??]?]?]. }
      reflexivity.
    + eexists. split.
      { apply (mapM_dict_of (float_array_of "recall") (λ t, t.1.1.2)).
        by intros [[[??]?]?]. }
      reflexivity.
    + eexists. split.
      { apply (mapM_dict_of (float_array_of "f-score") (λ t, t.1.2)).
        by intros [[[??]?]?]. }
      reflexivity.
  - eexists. split.
    { apply (mapM_dict_of (int_array_of "support") (λ t, t.2)).
      by intros [[[??]?]?]. }
    reflexivity.
Qed.

Lemma MonteCarlo_mean_witness :
  ∃ metrics_averages w2,
    run (MonteCarloCrossValidation demo_rng demo_argmax demo_render
                                   demo_featuresets (Z.of_nat 3)) demo_world
    = (Ok metrics_averages, w2)
    ∧ (∀ key, key ∈ ["precision"; "recall"; "f-score"] →
         ∃ arrays,
           mapM (float_array_of key) demo_run_metrics = Some arrays
           ∧ md_lookup metrics_averages key
             = Some (NdFloat (elementwise_mean (Z.of_nat 3) arrays)))
    ∧ ∃ supports,
        mapM (int_array_of "support") demo_run_metrics = Some supports
        ∧ md_lookup metrics_averages "support"
          = Some (NdFloat ((λ z, np_div (of_int z) (Z.of_nat 3))
                             <$> elementwise_int_sum supports)).
Proof.
  apply (MonteCarlo_mean demo_rng demo_argmax demo_render demo_featuresets 3
           demo_world demo_runs_after demo_run_metrics 2).
  - lia.
  - exact demo_runs_eq.
  - apply (bool_decide_unpack _). vm_compute. exact I.
Defined.

(** X18: runs that report different numbers of classes.  When the first
    run of the validator reports one class and the second reports two (the
    test subset of the first held tracks of one class only), the in-place
    addition of the second run's arrays to the accumulators fails: the
    validator raises [ValueError] after the second run, having printed
    nothing. *)
Theorem MonteCarlo_shape_mismatch
    (rng_permutation : nat → nat → list nat)
    (posterior_argmax : list (gmap string nat * bool) → gmap string nat → bool)
    (render_ok : list (list nat) → list string → bool)
    (featuresets : loc) (n : Z) (w : World) :
  let first := run (naive_bayes rng_permutation posterior_argmax render_ok
                                featuresets false false) w in
  let second := run (naive_bayes rng_permutation posterior_argmax render_ok
                                 featuresets false false) first.2 in
  (2 ≤ n)%Z →
  classes_of first.1 = Some 1 →
  classes_of second.1 = Some 2 →
  run (MonteCarloCrossValidation rng_permutation posterior_argmax render_ok
                                 featuresets n) w
  = (Raise (ValueError ShapeMismatch), second.2).
Proof.
  intros first second Hn H1 H2. subst second first.
  destruct (run _ w) as [[[c1 m1]|e1] w1] eqn:Hrun1; [|done].
  simpl in H1, H2. simpl.
  destruct (run _ w1) as [[[c2 m2]|e2] w2] eqn:Hrun2; [|done].
  simpl in H2.
  destruct (naive_bayes_shape _ _ _ _ _ _ _ _ Hrun1)
    as (testY1 & predictY1 & p1 & r1 & f1 & -> & _ & _ & Hp1 & _).
  destruct (naive_bayes_shape _ _ _ _ _ _ _ _ Hrun2)
    as (testY2 & predictY2 & p2 & r2 & f2 & -> & _ & _ & Hp2 & _).
  rewrite (support_classes _ _ _ _ _ _ H1) in Hp1.
  rewrite (support_classes _ _ _ _ _ _ H2) in Hp2.
  destruct p1 as [|x1 [|??] ]; try done. destruct p2 as [|y1 [|y2 [|??] ] ]; try done.
  unfold MonteCarloCrossValidation.
  destruct (Z.to_nat n) as [|[|k] ] eqn:Hk; [lia|lia|].
  change (seq 0 (S (S k))) with (0 :: 1 :: seq 2 k). simpl for_fold.
  rewrite !run_bind, Hrun1. cbv beta iota.
  rewrite run_bind, run_accumulate_first_array; cycle 1.
  { by destruct (support_array_cases testY1 predictY1) as [->| ->]. }
  cbv beta iota.
  change (run (ret ?a) ?w) with (Ok a, w). cbv beta iota.
  rewrite !run_bind, Hrun2. reflexivity.
Qed.

Lemma MonteCarlo_shape_mismatch_witness :
  run (MonteCarloCrossValidation (demo_rng_at 0) demo_argmax demo_render
                                 demo_featuresets 5) demo_world
  = (Raise (ValueError ShapeMismatch),
     (run (naive_bayes (demo_rng_at 0) demo_argmax demo_render demo_featuresets
                       false false)
          (run (naive_bayes (demo_rng_at 0) demo_argmax demo_render demo_featuresets
                            false false) demo_world).2).2).
Proof.
  apply (MonteCarlo_shape_mismatch (demo_rng_at 0) demo_argmax demo_render
           demo_featuresets 5 demo_world).
  - lia.
  - vm_compute. reflexivity.
  - vm_compute. reflexivity.
Defined.

(** X19: the opposite order is not noticed.  When the first run reports
    two classes and the second only one, numpy broadcasts the one-entry
    arrays of the second run: the validator with [n = 2] returns, and each
    of the two averaged precisions is the first run's precision for that
    class plus the single precision of the second run, halved -- whichever
    class the second run's value belonged to. *)
Theorem MonteCarlo_broadcast
    (rng_permutation : nat → nat → list nat)
    (posterior_argmax : list (gmap string nat * bool) → gmap string nat → bool)
    (render_ok : list (list nat) → list string → bool)
    (featuresets : loc) (w : World) :
  let first := run (naive_bayes rng_permutation posterior_argmax render_ok
                                featuresets false false) w in
  let second := run (naive_bayes rng_permutation posterior_argmax render_ok
                                 featuresets false false) first.2 in
  classes_of first.1 = Some 2 →
  classes_of second.1 = Some 1 →
  ∃ c1 m1 c2 m2 a1 a2 b metrics_averages w',
    first.1 = Ok (c1, m1) ∧ second.1 = Ok (c2, m2)
    ∧ array_of "precision" m1 = Some [a1; a2]
    ∧ array_of "precision" m2 = Some [b]
    ∧ run (MonteCarloCrossValidation rng_permutation posterior_argmax render_ok
                                     featuresets 2) w
      = (Ok metrics_averages, w')
    ∧ array_of "precision" metrics_averages
      = Some [np_div (np_add (np_add (of_int 0) a1) b) 2;
              np_div (np_add (np_add (of_int 0) a2) b) 2].
Proof.
  intros first second H1 H2. subst second first.
  destruct (run _ w) as [[[c1 m1]|e1] w1] eqn:Hrun1; [|done].
  simpl in H1, H2. simpl.
  destruct (run _ w1) as [[[c2 m2]|e2] w2] eqn:Hrun2; [|done].
  simpl in H2.
  destruct (naive_bayes_shape _ _ _ _ _ _ _ _ Hrun1)
    as (testY1 & predictY1 & p1 & r1 & f1 & -> & _ & _ & Hp1 & Hr1 & Hf1 & _).
  destruct (naive_bayes_shape _ _ _ _ _ _ _ _ Hrun2)
    as (testY2 & predictY2 & p2 & r2 & f2 & -> & Hne2 & Hlen2 & Hp2 & Hr2 & Hf2 & _).
  pose proof (support_classes _ _ _ _ _ _ H1) as Hs1.
  pose proof (support_classes _ _ _ _ _ _ H2) as Hs2.
  rewrite Hs1 in Hp1, Hr1, Hf1. rewrite Hs2 in Hp2, Hr2, Hf2.
  assert (support_array testY2 predictY2 = NdInt (support_counts testY2 predictY2))
    as Hint2.
  { unfold support_array. rewrite one_class_any_correct; [done..|].
    unfold support_counts in Hs2. by rewrite length_fmap in Hs2. }
  rewrite Hint2 in *. clear Hint2 H2.
  destruct p1 as [|a1 [|a2 [|??] ] ]; try done. destruct p2 as [|b [|??] ]; try done.
  destruct r1 as [|? [|? [|??] ] ]; try done. destruct r2 as [|? [|??] ]; try done.
  destruct f1 as [|? [|? [|??] ] ]; try done. destruct f2 as [|? [|??] ]; try done.
  destruct (support_counts testY2 predictY2) as [|? [|??] ]; try done.
  assert (∃ s1 : pyval, is_array s1 ∧ support_array testY1 predictY1 = s1
                        ∧ length <$> entries s1 = Some 2) as (s1 & Harr & Hc1 & Hl1).
  { exists (support_array testY1 predictY1). split; [|split; [done|] ].
    - by destruct (support_array_cases testY1 predictY1) as [->| ->].
    - by destruct (support_array_cases testY1 predictY1) as [->| ->]; simpl;
        rewrite length_fmap, Hs1. }
  rewrite Hc1 in *. clear Hc1 Hs1 H1.
  cut (∃ metrics_averages w',
         run (MonteCarloCrossValidation rng_permutation posterior_argmax render_ok
                                        featuresets 2) w
         = (Ok metrics_averages, w')
         ∧ array_of "precision" metrics_averages
           = Some [np_div (np_add (np_add (of_int 0) a1) b) 2;
                   np_div (np_add (np_add (of_int 0) a2) b) 2]).
  { intros (metrics_averages & w' & Hrun & Hprecision).
    by eexists c1, _, c2, _, a1, a2, b, metrics_averages, w'. }
  unfold MonteCarloCrossValidation.
  change (seq 0 (Z.to_nat 2)) with [0; 1]. simpl for_fold.
  rewrite !run_bind, Hrun1. cbv beta iota.
  rewrite run_bind, run_accumulate_first_array by done.
  cbv beta iota.
  change (run (ret ?a) ?w) with (Ok a, w). cbv beta iota.
  rewrite !run_bind, Hrun2.
  destruct s1 as [| |[|? [|? [|??] ] ]|[|? [|? [|??] ] ] ]; try done;
    eexists _, _; split; reflexivity.
Qed.

Lemma MonteCarlo_broadcast_witness :
  ∃ c1 m1 c2 m2 a1 a2 b metrics_averages w',
    (run (naive_bayes (demo_rng_at 1) demo_argmax demo_render demo_featuresets
                      false false) demo_world).1 = Ok (c1, m1)
    ∧ (run (naive_bayes (demo_rng_at 1) demo_argmax demo_render demo_featuresets
                        false false)
           (run (naive_bayes (demo_rng_at 1) demo_argmax demo_render demo_featuresets
                             false false) demo_world).2).1 = Ok (c2, m2)
    ∧ array_of "precision" m1 = Some [a1; a2]
    ∧ array_of "precision" m2 = Some [b]
    ∧ run (MonteCarloCrossValidation (demo_rng_at 1) demo_argmax demo_render
                                     demo_featuresets 2) demo_world
      = (Ok metrics_averages, w')
    ∧ array_of "precision" metrics_averages
      = Some [np_div (np_add (np_add (of_int 0) a1) b) 2;
              np_div (np_add (np_add (of_int 0) a2) b) 2].
Proof.
  apply (MonteCarlo_broadcast (demo_rng_at 1) demo_argmax demo_render
           demo_featuresets demo_world).
  - vm_compute. reflexivity.
  - vm_compute. reflexivity.
Defined.

End ExtrasMonteCarlo.

Section ExtrasEvaluation.
Import Text Py Featuresets Effects Metrics Arith NaiveBayes MonteCarlo Averages.
Import Examples MoreExamples.

(** X20: on fewer than two featuresets the validator fails at its first
    run.  With a repetition count of at least one it raises the
    [ValueError] of the split -- the training subset would be empty -- and
    leaves the world as it was: nothing drawn, nothing printed. *)
Theorem MonteCarlo_too_few_featuresets
    (rng_permutation : nat → nat → list nat)
    (posterior_argmax : list (gmap string nat * bool) → gmap string nat → bool)
    (render_ok : list (list nat) → list string → bool)
    (featuresets : loc) (n : Z) (w : World) (fs : list (gmap string nat * bool)) :
  contents (heap w) featuresets = Some fs →
  length fs < 2 →
  (1 ≤ n)%Z →
  run (MonteCarloCrossValidation rng_permutation posterior_argmax render_ok
                                 featuresets n) w
  = (Raise (ValueError EmptyTrainSet), w).
Proof.
  intros Hfs Hsmall Hn. unfold MonteCarloCrossValidation.
  destruct (Z.to_nat n) as [|k] eqn:Hk; [lia|].
  change (seq 0 (S k)) with (0 :: seq 1 k). simpl for_fold.
  rewrite !run_bind.
  by rewrite (naive_bayes_too_small rng_permutation posterior_argmax render_ok
                _ _ _ _ _ Hfs Hsmall).
Qed.

Lemma MonteCarlo_too_few_featuresets_witness :
  run (MonteCarloCrossValidation demo_rng demo_argmax demo_render 0 10)
      {| heap := <[0 := OList []]> ∅; rng_calls := 0; stdout := [] |}
  = (Raise (ValueError EmptyTrainSet),
     {| heap := <[0 := OList []]> ∅; rng_calls := 0; stdout := [] |}).
Proof.
  apply (MonteCarlo_too_few_featuresets demo_rng demo_argmax demo_render 0 10 _ []).
  - unfold contents. simpl. by rewrite lookup_insert_eq.
  - simpl. lia.
  - lia.
Defined.

(** X21: the plot agrees with the metrics.  When a run with
    [showConfusionMatrix] set returns, the last thing it has put out is the
    plot of a square confusion matrix, with the tick labels "Not Explicit"
    and "Explicit", and the rows of that matrix add up to the entries of
    the support array it returns: the row sums are the counts of the int64
    support array, or those of the float64 array a run without a correct
    prediction returns. *)
Theorem plotted_rows_are_supports
    (rng_permutation : nat → nat → list nat)
    (posterior_argmax : list (gmap string nat * bool) → gmap string nat → bool)
    (render_ok : list (list nat) → list string → bool)
    (featuresets : loc) (printMetrics : bool) (w w' : World)
    (fs : list (gmap string nat * bool))
    (classifier : NaiveBayesClassifier) (metrics : metrics_dict) :
  contents (heap w) featuresets = Some fs →
  2 ≤ length fs →
  rng_permutation (rng_calls w) (length fs) ≡ₚ seq 0 (length fs) →
  run (naive_bayes rng_permutation posterior_argmax render_ok featuresets
                   printMetrics true) w
  = (Ok (classifier, metrics), w') →
  ∃ confusionMatrix support,
    last (stdout w') = Some (Plotted confusionMatrix ["Not Explicit"; "Explicit"])
    ∧ md_lookup metrics "support" = Some support
    ∧ (support = NdInt ((λ row, Z.of_nat (sum_list row)) <$> confusionMatrix)
       ∨ support
         = NdFloat ((λ row, of_int (Z.of_nat (sum_list row))) <$> confusionMatrix))
    ∧ Forall (λ row, length row = length confusionMatrix) confusionMatrix.
Proof.
  intros Hfs Hn Hperm Hrun.
  destruct (naive_bayes_run rng_permutation posterior_argmax render_ok featuresets
              printMetrics true w fs Hfs Hn Hperm)
    as (sample & test & p & r & f & s & w1 & _ & _ & Hprfs & Hrun' & _ & _ & Hout).
  rewrite Hrun in Hrun'. simpl in Hrun', Hout.
  destruct (render_ok _ _); [|discriminate Hrun']. simpl in Hrun', Hout.
  injection Hrun' as -> -> <-.
  pose proof (prfs_inv _ _ _ _ _ _ Hprfs) as (Hlen & _ & _ & _ & _ & ->).
  destruct (confusion_matrix_row_sums _ _ Hlen) as [Hrows Hsquare].
  eexists _, _. split; [by rewrite Hout, app_assoc, last_snoc|].
  split; [reflexivity|]. split; [|exact Hsquare].
  rewrite (list_fmap_compose (λ row, Z.of_nat (sum_list row)) of_int), Hrows.
  apply support_array_cases.
Qed.

Lemma plotted_rows_are_supports_witness :
  ∃ confusionMatrix support,
    last (stdout demo_plot_call.2)
    = Some (Plotted confusionMatrix ["Not Explicit"; "Explicit"])
    ∧ md_lookup demo_plot_result.2 "support" = Some support
    ∧ (support = NdInt ((λ row, Z.of_nat (sum_list row)) <$> confusionMatrix)
       ∨ support
         = NdFloat ((λ row, of_int (Z.of_nat (sum_list row))) <$> confusionMatrix))
    ∧ Forall (λ row, length row = length confusionMatrix) confusionMatrix.
Proof.
  apply (plotted_rows_are_supports demo_rng demo_argmax demo_render demo_featuresets
           true demo_world demo_plot_call.2 demo_contents demo_plot_result.1).
  - apply demo_contents_eq.
  - vm_compute. lia.
  - apply reverse_Permutation.
  - exact demo_plot_call_eq.
Defined.

(** X26: a run without a correct prediction after a run with one.  When
    the first run of the validator returns an int64 support array and the
    second run, which reports as many classes, returns a float64 one -- it
    predicted no test item correctly -- the in-place addition of the second
    support array to the int64 accumulator fails: the validator with
    [n >= 2] raises [TypeError] after the second run, having printed
    nothing. *)
Theorem MonteCarlo_support_dtype_mismatch
    (rng_permutation : nat → nat → list nat)
    (posterior_argmax : list (gmap string nat * bool) → gmap string nat → bool)
    (render_ok : list (list nat) → list string → bool)
    (featuresets : loc) (n : Z) (w : World) (L : nat) :
  let first := run (naive_bayes rng_permutation posterior_argmax render_ok
                                featuresets false false) w in
  let second := run (naive_bayes rng_permutation posterior_argmax render_ok
                                 featuresets false false) first.2 in
  (2 ≤ n)%Z →
  length <$> int_support_of first.1 = Some L →
  length <$> float_support_of second.1 = Some L →
  run (MonteCarloCrossValidation rng_permutation posterior_argmax render_ok
                                 featuresets n) w
  = (Raise TypeError, second.2).
Proof.
  intros first second Hn H1 H2. subst second first.
  destruct (run _ w) as [[[c1 m1]|e1] w1] eqn:Hrun1; [|done].
  simpl in H1, H2. simpl.
  destruct (run _ w1) as [[[c2 m2]|e2] w2] eqn:Hrun2; [|done].
  simpl in H2.
  destruct (naive_bayes_shape _ _ _ _ _ _ _ _ Hrun1)
    as (testY1 & predictY1 & p1 & r1 & f1 & -> & _ & _ & Hp1 & Hr1 & Hf1 & _).
  destruct (naive_bayes_shape _ _ _ _ _ _ _ _ Hrun2)
    as (testY2 & predictY2 & p2 & r2 & f2 & -> & _ & _ & Hp2 & Hr2 & Hf2 & _).
  unfold int_array_of in H1. rewrite md_lookup_support in H1.
  unfold float_array_of in H2. rewrite md_lookup_support in H2.
  destruct (support_array_cases testY1 predictY1) as [Hc1|Hc1];
    rewrite Hc1 in H1, Hrun1; [|done].
  destruct (support_array_cases testY2 predictY2) as [Hc2|Hc2];
    rewrite Hc2 in H2, Hrun2; [done|].
  simpl in H1, H2. injection H1 as H1. injection H2 as H2.
  rewrite length_fmap in H2. rewrite H1 in Hp1, Hr1, Hf1. rewrite H2 in Hp2, Hr2, Hf2.
  unfold MonteCarloCrossValidation.
  destruct (Z.to_nat n) as [|[|k] ] eqn:Hk; [lia|lia|].
  change (seq 0 (S (S k))) with (0 :: 1 :: seq 2 k). simpl for_fold.
  rewrite !run_bind, Hrun1. cbv beta iota.
  rewrite run_bind, run_accumulate_first_array by done. cbv beta iota.
  change (run (ret ?a) ?w) with (Ok a, w). cbv beta iota.
  rewrite !run_bind, Hrun2. cbv beta iota. cbn [first_array].
  rewrite run_bind, (run_accumulate_type_error _ _ _ _ _ _ _ _ L)
    by (by rewrite ?length_fmap).
  reflexivity.
Qed.

Lemma MonteCarlo_support_dtype_mismatch_witness :
  run (MonteCarloCrossValidation (demo_rng_at 1) demo_always_explicit demo_render
                                 demo_featuresets 5) demo_world
  = (Raise TypeError,
     (run (naive_bayes (demo_rng_at 1) demo_always_explicit demo_render
                       demo_featuresets false false)
          (run (naive_bayes (demo_rng_at 1) demo_always_explicit demo_render
                            demo_featuresets false false) demo_world).2).2).
Proof.
  apply (MonteCarlo_support_dtype_mismatch (demo_rng_at 1) demo_always_explicit
           demo_render demo_featuresets 5 demo_world 2).
  - lia.
  - vm_compute. reflexivity.
  - vm_compute. reflexivity.
Defined.

End ExtrasEvaluation.

Section ExtrasTable.
Import Tracks.

(** X22: the table after the cleaning steps of cell 5.  Its rows are
    numbered 0, 1, 2, ... without gaps; no two rows have the same cells and
    no row has a missing cell; the rows are rows of the table read from the
    file, in their original order; and every row of that table without a
    missing cell is still there. *)
Theorem clean_table
    {Row : Type} `{EqDecision Row} (isna : Row → bool) (tracks : DataFrame Row) :
  let cleaned := clean isna tracks in
  cleaned.*1 = Z.of_nat <$> seq 0 (length cleaned)
  ∧ NoDup cleaned.*2
  ∧ Forall (λ row, isna row = false) cleaned.*2
  ∧ cleaned.*2 `sublist_of` tracks.*2
  ∧ ∀ row, row ∈ tracks.*2 → isna row = false → row ∈ cleaned.*2.
Proof.
  intros cleaned. unfold cleaned, clean.
  destruct (del_reset_index (dropna isna (drop_duplicates tracks))) as [Hrows Hlabels].
  rewrite Hrows, Hlabels.
  split; [by unfold del_index, reset_index; rewrite length_fmap, length_imap|].
  unfold dropna, drop_duplicates. split; [|split; [|split] ].
  - eapply sublist_NoDup; [apply (drop_duplicates_seen_NoDup [] tracks)|].
    apply fmap_sublist, sublist_filter.
  - apply Forall_fmap, Forall_forall. by intros r [? _]%list_elem_of_filter.
  - etransitivity; [apply fmap_sublist, sublist_filter|].
    apply fmap_sublist, drop_duplicates_seen_sublist.
  - intros row Hrow Hna.
    assert (row ∈ (drop_duplicates_seen [] tracks).*2) as Hin.
    { apply elem_of_drop_duplicates_seen. split; [done|]. by intros ?%elem_of_nil. }
    apply list_elem_of_fmap in Hin as ([label r] & -> & Hin).
    apply list_elem_of_fmap. exists (label, r). split; [done|].
    by apply list_elem_of_filter.
Qed.

End ExtrasTable.

Section FScoreFacts.
Import Py Metrics Arith.
Local Open Scope Q_scope.

Lemma representable_double q : representable q → representable (2 * q).
Proof.
  intros (m & e & Hm & He & Hq). exists m, (e + 1)%Z.
  split; [done|]. split; [lia|]. rewrite Hq, pow2_succ. ring.
Qed.

(** Doubling a float64 is exact. *)
Lemma round64_double q : round64 q = q → round64 (2 * q) == 2 * q.
Proof.
  intros Hq. apply round64_fixed, representable_double.
  rewrite <- Hq. apply round64_representable.
Qed.

Lemma Qdiv_le_cross a b c d : 0 < b → 0 < d → a * d <= c * b → a / b <= c / d.
Proof.
  intros Hb Hd H. apply Qle_shift_div_l; [done|].
  assert (a / b * d == a * d / b) as -> by (field; lra).
  by apply Qle_shift_div_r.
Qed.

Lemma prf_divide_zero den : prf_divide 0 den = Finite 0.
Proof.
  unfold prf_divide. destruct (Qeq_bool den 0); reflexivity.
Qed.

Lemma prf_divide_pos num den : 0 < den → prf_divide num den = Finite (fdiv num den).
Proof.
  intros Hden. unfold prf_divide. destruct (Qeq_bool den 0) eqn:E; [|done].
  apply Qeq_bool_iff in E. lra.
Qed.

(** The f-score [2 tp / (true + pred)], as float64 computes it, lies
    between the precision [tp / pred] and the recall [tp / true]. *)
Lemma fscore_between (tp ps ts : nat) pi ri fi :
  (tp ≤ ps)%nat → (tp ≤ ts)%nat →
  prf_divide (of_Z (Z.of_nat tp)) (of_Z (Z.of_nat ps)) = Finite pi →
  prf_divide (of_Z (Z.of_nat tp)) (of_Z (Z.of_nat ts)) = Finite ri →
  prf_divide (fmul 2 (of_Z (Z.of_nat tp)))
             (fadd (fmul 1 (of_Z (Z.of_nat ts))) (of_Z (Z.of_nat ps))) = Finite fi →
  (pi <= fi ∧ fi <= ri) ∨ (ri <= fi ∧ fi <= pi).
Proof.
  intros Hps Hts. rewrite fmul_1_l by apply of_Z_float.
  destruct tp as [|tp].
  { change (Z.of_nat 0) with 0%Z. rewrite of_Z_0.
    assert (fmul 2 0 = 0) as ->.
    { unfold fmul. rewrite <- round64_0 at 2. by apply round64_proper. }
    rewrite !prf_divide_zero. intros [= <-] [= <-] [= <-]. left. lra. }
  pose proof (of_Z_pos (Z.of_nat (S tp)) ltac:(lia)) as Ha.
  pose proof (of_Z_monotone (Z.of_nat (S tp)) (Z.of_nat ps) ltac:(lia)) as Hab.
  pose proof (of_Z_monotone (Z.of_nat (S tp)) (Z.of_nat ts) ltac:(lia)) as Hac.
  pose proof (of_Z_float (Z.of_nat (S tp))) as Fa.
  pose proof (of_Z_float (Z.of_nat ps)) as Fb.
  pose proof (of_Z_float (Z.of_nat ts)) as Fc.
  set (a := of_Z (Z.of_nat (S tp))) in *.
  set (b := of_Z (Z.of_nat ps)) in *.
  set (c := of_Z (Z.of_nat ts)) in *.
  pose proof (round64_double a Fa) as HN.
  pose proof (round64_double b Fb) as H2b.
  pose proof (round64_double c Fc) as H2c.
  assert (1 <= fadd c b) as HD.
  { unfold fadd. rewrite <- round64_1. apply round64_monotone. lra. }
  rewrite !prf_divide_pos by lra.
  intros [= <-] [= <-] [= <-]. unfold fdiv, fmul.
  destruct (Qlt_le_dec c b) as [Hcb|Hbc].
  - left.
    assert (2 * c <= fadd c b) as Hlo.
    { rewrite <- H2c. apply round64_monotone. lra. }
    assert (fadd c b <= 2 * b) as Hhi.
    { rewrite <- H2b. apply round64_monotone. lra. }
    split; apply round64_monotone; apply Qdiv_le_cross; try lra; rewrite HN.
    + assert (a * fadd c b <= a * (2 * b)) by (apply Qmult_le_l; lra). lra.
    + assert (a * (2 * c) <= a * fadd c b) by (apply Qmult_le_l; lra). lra.
  - right.
    assert (2 * b <= fadd c b) as Hlo.
    { rewrite <- H2b. apply round64_monotone. lra. }
    assert (fadd c b <= 2 * c) as Hhi.
    { rewrite <- H2c. apply round64_monotone. lra. }
    split; apply round64_monotone; apply Qdiv_le_cross; try lra; rewrite HN.
    + assert (a * fadd c b <= a * (2 * c)) by (apply Qmult_le_l; lra). lra.
    + assert (a * (2 * b) <= a * fadd c b) by (apply Qmult_le_l; lra). lra.
Qed.

End FScoreFacts.

Section ExtrasMetrics.
Import Py Metrics Arith.

(** X23: predictions that are all right.  When the predicted labels are
    the true labels of at least one sample, the call returns, the
    precision, the recall and the f-score of every class present are 1.0,
    and the support array is an int64 array. *)
Theorem perfect_predictions (testY : list bool) :
  testY ≠ [] →
  ∃ p r f counts,
    precision_recall_fscore_support testY testY = Ok (p, r, f, NdInt counts)
    ∧ Forall (λ x, x = Finite 1) p
    ∧ Forall (λ x, x = Finite 1) r
    ∧ Forall (λ x, x = Finite 1) f.
Proof.
  intros Hne.
  destruct (prfs_Ok testY testY eq_refl Hne) as (p & r & f & s & Hprfs).
  pose proof (prfs_inv _ _ _ _ _ _ Hprfs) as (_ & _ & -> & -> & -> & ->).
  assert (support_array testY testY = NdInt (support_counts testY testY)) as Hs.
  { unfold support_array, any_correct. destruct testY as [|t testY]; [done|].
    cbn [zip zip_with existsb]. by rewrite Bool.eqb_reflx. }
  rewrite Hs in Hprfs. eexists _, _, _, _. split; [exact Hprfs|].
  assert (∀ l, l ∈ unique_labels testY testY →
               (1 <= of_Z (Z.of_nat (true_sum testY l)))%Q) as Hpos.
  { intros l Hl%elem_of_unique_labels_inv. apply of_Z_pos.
    pose proof (true_sum_pos testY l). set_solver by lia. }
  split; [|split]; apply Forall_fmap, Forall_forall; intros l Hl; unfold compose;
    rewrite tp_sum_same; change (pred_sum testY l) with (true_sum testY l);
    specialize (Hpos l Hl).
  - apply prf_divide_same. lra.
  - apply prf_divide_same. lra.
  - rewrite fmul_1_l by apply of_Z_float.
    assert (fadd (of_Z (Z.of_nat (true_sum testY l))) (of_Z (Z.of_nat (true_sum testY l)))
            = fmul 2 (of_Z (Z.of_nat (true_sum testY l)))) as ->.
    { apply round64_proper. ring. }
    apply prf_divide_same. unfold fmul.
    eapply Qlt_le_trans; [|apply round64_monotone with (q := 1%Q); lra].
    by rewrite round64_1.
Qed.

Lemma perfect_predictions_witness :
  ∃ p r f counts,
    precision_recall_fscore_support [true; false; true] [true; false; true]
    = Ok (p, r, f, NdInt counts)
    ∧ Forall (λ x, x = Finite 1) p
    ∧ Forall (λ x, x = Finite 1) r
    ∧ Forall (λ x, x = Finite 1) f.
Proof. apply (perfect_predictions [true; false; true]). discriminate. Defined.

(** X24: the f-score lies between precision and recall.  For every class,
    the f-score that one call reports is not below the smaller and not
    above the larger of the precision and the recall it reports for that
    class; the three are equal where a zero denominator made them 0.  (The
    f-score is the float64 quotient [2 tp / (true + pred)]; the harmonic-mean
    identity [f (p + r) = 2 p r] holds of the exact quotients and is lost
    to rounding.) *)
Theorem fscore_between_precision_and_recall
    (y_true y_pred : list bool) (p r f : list npfloat) (s : pyval) :
  precision_recall_fscore_support y_true y_pred = Ok (p, r, f, s) →
  ∀ i pi ri fi,
    p !! i = Some (Finite pi) → r !! i = Some (Finite ri) → f !! i = Some (Finite fi) →
    (pi <= fi ∧ fi <= ri)%Q ∨ (ri <= fi ∧ fi <= pi)%Q.
Proof.
  intros (_ & _ & -> & -> & -> & _)%prfs_inv i pi ri fi.
  rewrite !list_lookup_fmap.
  destruct (unique_labels y_true y_pred !! i) as [l|]; [|done]. simpl.
  intros [= Hp] [= Hr] [= Hf].
  eapply fscore_between; [apply tp_le_pred|apply tp_le_true|done..].
Qed.

Lemma fscore_between_precision_and_recall_witness :
  (fdiv (of_Z 2) (of_Z 2) <= fdiv (fmul 2 (of_Z 2)) (fadd (fmul 1 (of_Z 3)) (of_Z 2))
   ∧ fdiv (fmul 2 (of_Z 2)) (fadd (fmul 1 (of_Z 3)) (of_Z 2)) <= fdiv (of_Z 2) (of_Z 3))%Q
  ∨ (fdiv (of_Z 2) (of_Z 3) <= fdiv (fmul 2 (of_Z 2)) (fadd (fmul 1 (of_Z 3)) (of_Z 2))
     ∧ fdiv (fmul 2 (of_Z 2)) (fadd (fmul 1 (of_Z 3)) (of_Z 2)) <= fdiv (of_Z 2) (of_Z 2))%Q.
Proof.
  apply (fscore_between_precision_and_recall
           [false; true; true; true] [false; false; true; true]
           [prf_divide (of_Z 1) (of_Z 2); prf_divide (of_Z 2) (of_Z 2)]
           [prf_divide (of_Z 1) (of_Z 1); prf_divide (of_Z 2) (of_Z 3)]
           [prf_divide (fmul 2 (of_Z 1)) (fadd (fmul 1 (of_Z 1)) (of_Z 2));
            prf_divide (fmul 2 (of_Z 2)) (fadd (fmul 1 (of_Z 3)) (of_Z 2))]
           (NdInt [1; 3]%Z) ltac:(vm_compute; reflexivity) 1);
    vm_compute; reflexivity.
Defined.

End ExtrasMetrics.

Section ExtrasCells.
Import Text Py Featuresets Effects Metrics Arith NaiveBayes MonteCarlo.
Import Examples MoreExamples.

(** X25: cells 13 and 15 together.  A classifier trained on the reduced
    featuresets knows no feature beyond the listed names: after the
    reduction to [names], an evaluation run on the reduced list returns
    (when the plot is not asked for), and every feature name known to the
    classifier of any run that returns is one of [names]. *)
Theorem informative_classifier_features
    (rng_permutation : nat → nat → list nat)
    (posterior_argmax : list (gmap string nat * bool) → gmap string nat → bool)
    (render_ok : list (list nat) → list string → bool)
    (names : list string) (featuresets : loc) (w : World)
    (fs : list (gmap string nat * bool)) :
  contents (heap w) featuresets = Some fs →
  2 ≤ length fs →
  rng_permutation (rng_calls w) (length fs) ≡ₚ seq 0 (length fs) →
  ∃ informative_featuresets w1,
    run (select_informative names featuresets) w = (Ok informative_featuresets, w1)
    ∧ (∃ classifier metrics w',
         run (naive_bayes rng_permutation posterior_argmax render_ok
                          informative_featuresets false false) w1
         = (Ok (classifier, metrics), w'))
    ∧ ∀ printMetrics showConfusionMatrix classifier metrics w',
        run (naive_bayes rng_permutation posterior_argmax render_ok
                         informative_featuresets printMetrics showConfusionMatrix) w1
        = (Ok (classifier, metrics), w') →
        ∀ fname, known_fname classifier fname = true → fname ∈ names.
Proof.
  intros Hfs Hn Hperm.
  destruct (run_select_informative names featuresets w fs Hfs)
    as (reduced & w1 & Hrun & _ & Hreduced).
  pose proof (silent_select_informative names featuresets w) as [Hrng _].
  rewrite Hrun in Hrng. simpl in Hrng.
  set (fs' := (λ x : gmap string nat * bool, (restrict names x.1, x.2)) <$> fs) in *.
  assert (length fs' = length fs) as Hlen by (unfold fs'; by rewrite length_fmap).
  assert (2 ≤ length fs') as Hn' by (by rewrite Hlen).
  assert (rng_permutation (rng_calls w1) (length fs') ≡ₚ seq 0 (length fs')) as Hperm'
    by (by rewrite Hlen, Hrng).
  pose proof (λ printMetrics showConfusionMatrix,
                naive_bayes_run rng_permutation posterior_argmax render_ok reduced
                  printMetrics showConfusionMatrix w1 fs' Hreduced Hn' Hperm') as Hnb.
  cbv zeta in Hnb.
  exists reduced, w1. split; [done|]. split.
  - destruct (Hnb false false)
      as (sample & test & p & r & f & s & w' & _ & _ & _ & Hrun' & _).
    cbn [andb] in Hrun'. eauto.
  - intros printMetrics showConfusionMatrix classifier metrics w' Hrun' fname Hknown.
    destruct (Hnb printMetrics showConfusionMatrix)
      as (sample & test & p & r & f & s & w'' & Hsample & _ & _ & Hrun'' & _).
    rewrite Hrun' in Hrun''. destruct (_ && _); [discriminate Hrun''|].
    injection Hrun'' as -> _ _.
    unfold known_fname in Hknown. simpl in Hknown.
    apply existsb_exists in Hknown as ([m label] & Hin & [c Hc]%bool_decide_eq_true).
    apply list_elem_of_In, list_elem_of_lookup in Hin as [j Hj].
    destruct (Forall2_lookup_r _ _ _ _ _ Hsample Hj) as (i & _ & Hi).
    unfold fs' in Hi. rewrite list_lookup_fmap in Hi.
    destruct (fs !! i) as [ [m0 label0]|]; [|done]. injection Hi as <- _.
    rewrite restrict_lookup in Hc. by case_decide.
Qed.

Lemma informative_classifier_features_witness :
  ∃ informative_featuresets w1,
    run (select_informative ["damn"; "hell"] demo_featuresets) demo_world
    = (Ok informative_featuresets, w1)
    ∧ (∃ classifier metrics w',
         run (naive_bayes demo_rng demo_argmax demo_render
                          informative_featuresets false false) w1
         = (Ok (classifier, metrics), w'))
    ∧ ∀ printMetrics showConfusionMatrix classifier metrics w',
        run (naive_bayes demo_rng demo_argmax demo_render
                         informative_featuresets printMetrics showConfusionMatrix) w1
        = (Ok (classifier, metrics), w') →
        ∀ fname, known_fname classifier fname = true → fname ∈ ["damn"; "hell"].
Proof.
  apply (informative_classifier_features demo_rng demo_argmax demo_render
           ["damn"; "hell"] demo_featuresets demo_world demo_contents).
  - apply demo_contents_eq.
  - vm_compute. lia.
  - apply reverse_Permutation.
Defined.

End ExtrasCells.
